(** * IIP wire protocol core: a shallow embedding of [protocol.go]

    The development follows the Go source function by function.  Bytes and
    machine integers are values of [Z]; conversions that can truncate are
    written out.  Go pointers to channels are addresses into a heap of channel
    objects, so that the channel table of a connection (a Go map from ids to
    channel pointers) and the callers of a channel share the same object. *)

From Stdlib Require Import ZArith List Lia Bool.
From stdpp Require Import base tactics option list gmap.

Local Open Scope Z_scope.

(** ** Constants (const.go) *)

Definition MaxPathLen : Z := 512.
Definition MaxPacketSize : Z := 16 * 1024 * 1024.
Definition PacketReadBufSize : Z := 16 * 1024.

Definition RoleClient : Z := 0.
Definition RoleServer : Z := 4.

Definition PacketTypeRequest : Z := 0.
Definition PacketTypeResponse : Z := 4.

Definition StatusC0 : Z := 0.
Definition StatusC1 : Z := 1.
Definition StatusC2 : Z := 2.
Definition StatusC3 : Z := 3.
Definition StatusS4 : Z := 4.
Definition StatusS5 : Z := 5.
Definition StatusS6 : Z := 6.
Definition StatusS7 : Z := 7.
Definition Status8 : Z := 8.

Definition MaxUint32 : Z := 4294967295.

(** ** Machine values *)

(** A Go [byte] is a [Z] in [0, 256); a [uint32] is a [Z] in [0, 2^32). *)
Definition is_byte (b : Z) : Prop := 0 <= b < 256.
Definition is_uint32 (v : Z) : Prop := 0 <= v < 4294967296.

(** [uint32(x)] on a Go [int]. *)
Definition to_uint32 (x : Z) : Z := x mod 4294967296.

(** [byte(x)] on an unsigned value. *)
Definition to_byte (x : Z) : Z := Z.land x 255.

(** [len(s)] as a Go [int]. *)
Definition len {A} (l : list A) : Z := Z.of_nat (length l).

(** [s[lo:hi]] for [0 <= lo <= hi <= len(s)]. *)
Definition slice {A} (l : list A) (lo hi : Z) : list A :=
  take (Z.to_nat (hi - lo)) (drop (Z.to_nat lo) l).

(** [int64] addition as used by the advisory counters. *)
Definition wrap64 (x : Z) : Z :=
  (x + 9223372036854775808) mod 18446744073709551616 - 9223372036854775808.

(** [binary.BigEndian.PutUint32] and [binary.BigEndian.Uint32]. *)
Definition PutUint32 (v : Z) : list Z :=
  [ to_byte (Z.shiftr v 24); to_byte (Z.shiftr v 16);
    to_byte (Z.shiftr v 8); to_byte v ].

Definition Uint32 (b : list Z) : Z :=
  match b with
  | [b0; b1; b2; b3] =>
      Z.lor (Z.lor (Z.lor b3 (Z.shiftl b2 8)) (Z.shiftl b1 16)) (Z.shiftl b0 24)
  | _ => 0
  end.

(** ** Errors *)

(** The values built with [fmt.Errorf] in the source, one constructor per
    message, keeping the formatted arguments.  [ErrPacketContinue],
    [ErrHandleError] and [ErrHandleNoResponse] are the package-level error
    values the dispatcher compares against and sends. *)
Inductive error : Type :=
| ErrPathTooLarge
| ErrDataTooLarge
| ErrChannelInvalid (cause : error)
| ErrProtocolError
| ErrInvalidProtocol (prev current : Z)
| ErrInvalidStatusValue (current : Z)
| ErrEOF
| ErrBufferFull
| ErrUnexpectedEOF
| ErrReadDataFail (cause : error)
| ErrConnClosedByPeerCommand
| ErrClosedByPeerCommand
| ErrInvalidChannelId (id : Z)
| ErrDataLenMeta
| ErrInvalidDataLen (n : Z)
| ErrConnectionIsClosed
| ErrUnknown
| ErrPacketContinue
| ErrHandleError
| ErrHandleNoResponse
| ErrInvalidRole
| ErrApp (code : Z).

Fixpoint error_eqb (a b : error) : bool :=
  match a, b with
  | ErrPathTooLarge, ErrPathTooLarge
  | ErrDataTooLarge, ErrDataTooLarge
  | ErrProtocolError, ErrProtocolError
  | ErrEOF, ErrEOF
  | ErrBufferFull, ErrBufferFull
  | ErrUnexpectedEOF, ErrUnexpectedEOF
  | ErrConnClosedByPeerCommand, ErrConnClosedByPeerCommand
  | ErrClosedByPeerCommand, ErrClosedByPeerCommand
  | ErrDataLenMeta, ErrDataLenMeta
  | ErrConnectionIsClosed, ErrConnectionIsClosed
  | ErrUnknown, ErrUnknown
  | ErrPacketContinue, ErrPacketContinue
  | ErrHandleError, ErrHandleError
  | ErrHandleNoResponse, ErrHandleNoResponse
  | ErrInvalidRole, ErrInvalidRole => true
  | ErrChannelInvalid x, ErrChannelInvalid y => error_eqb x y
  | ErrReadDataFail x, ErrReadDataFail y => error_eqb x y
  | ErrInvalidProtocol p c, ErrInvalidProtocol p' c' => (p =? p') && (c =? c')
  | ErrInvalidStatusValue c, ErrInvalidStatusValue c' => c =? c'
  | ErrInvalidChannelId c, ErrInvalidChannelId c' => c =? c'
  | ErrInvalidDataLen c, ErrInvalidDataLen c' => c =? c'
  | ErrApp c, ErrApp c' => c =? c'
  | _, _ => false
  end.

(** A Go call either returns or panics. *)
Inductive outcome : Type := Returned | Panicked.

(** ** Packets *)

(** A channel pointer is an address in the heap of channel objects. *)
Definition ptr : Type := nat.

Record Packet : Type := mkPacket {
  Type_ : Z;
  Status : Z;
  Path : list Z;
  ChannelId : Z;
  Data : list Z;
  channel : option ptr
}.

Definition set_Status (s : Z) (p : Packet) : Packet :=
  mkPacket (Type_ p) s (Path p) (ChannelId p) (Data p) (channel p).

Definition set_Data (d : list Z) (p : Packet) : Packet :=
  mkPacket (Type_ p) (Status p) (Path p) (ChannelId p) d (channel p).

(** ** Status predicates *)

Definition isClientStatus (status : Z) : bool :=
  (status =? StatusC0) || (status =? StatusC1) || (status =? StatusC2) || (status =? StatusC3).

Definition isServerStatus (status : Z) : bool :=
  (status =? StatusS4) || (status =? StatusS5) || (status =? StatusS6) || (status =? StatusS7).

Definition isClientStatusCompleted (status : Z) : bool :=
  (status =? StatusC1) || (status =? StatusC3).

Definition isClientStatusUncompleted (status : Z) : bool :=
  (status =? StatusC0) || (status =? StatusC2).

Definition isServerStatusCompleted (status : Z) : bool :=
  (status =? StatusS5) || (status =? StatusS7).

Definition isServerStatusUncompleted (status : Z) : bool :=
  (status =? StatusS4) || (status =? StatusS6).

(** ** Frame encoder *)

Definition CreateNetPacket (pkt : Packet) : list Z + error :=
  if len (Path pkt) >? MaxPathLen then inr ErrPathTooLarge
  else if len (Data pkt) >? MaxPacketSize then inr ErrDataTooLarge
  else
    inl ([Status pkt] ++ Path pkt ++ [0]
           ++ PutUint32 (ChannelId pkt)
           ++ PutUint32 (to_uint32 (len (Data pkt)))
           ++ Data pkt).

(** ** Status transition checks *)

Definition CheckClientPacketStatus (prev current : Z) : option error :=
  if (current =? StatusC0) || (current =? StatusC1) then
    if negb (prev =? 255) && negb (isClientStatusCompleted prev)
    then Some (ErrInvalidProtocol prev current) else None
  else if (current =? StatusC2) || (current =? StatusC3) then
    if negb (isClientStatusUncompleted prev)
    then Some (ErrInvalidProtocol prev current) else None
  else if current =? Status8 then None
  else Some (ErrInvalidStatusValue current).

Definition CheckServerPacketStatus (prev current : Z) : option error :=
  if (current =? StatusS4) || (current =? StatusS5) then
    if negb (prev =? 255) && negb (isServerStatusCompleted prev)
    then Some (ErrInvalidProtocol prev current) else None
  else if (current =? StatusS6) || (current =? StatusS7) then
    if negb (isServerStatusUncompleted prev)
    then Some (ErrInvalidProtocol prev current) else None
  else if current =? Status8 then None
  else Some (ErrInvalidStatusValue current).

(** ** Channels, connections and the heap *)

(** [chan_closeNotify] is [true] while the field holds an open Go channel and
    [false] once it has been closed and set to [nil].  [pktWhole] is the local
    variable [pktWholeRequest] / [pktWholeResponse] of the channel's dispatcher
    goroutine.  Go channels used as queues are lists, oldest element first.
    A receive from [receivedQueue] is a dispatcher round, which runs while the
    channel's stop signal is open; the length of its buffer is not part of the
    state. *)
Record Channel : Type := mkChannel {
  chan_err : option error;
  Id : Z;
  WritePacketCount : Z;
  ReadPacketCount : Z;
  ReadBytes : Z;
  WriteBytes : Z;
  receivedQueue : list Packet;
  packetStatus : Z;
  chan_closeNotify : bool;
  chan_closeLock : Z;
  pktWhole : option Packet
}.

(** [tcpWriteQueue] is a Go channel with a buffer of [writeQueueLen] packets,
    the length given to [NewConnection].  A send on it returns at once while
    the buffer has a free slot; on a full buffer it waits until the writer
    has received a packet. *)
Record Connection : Type := mkConnection {
  conn_err : option error;
  Role : Z;
  Channels : gmap Z ptr;
  MaxChannelId : Z;
  FreeChannleId : gset Z;
  tcpWriteQueue : list Packet;
  conn_closeNotify : bool;
  conn_closeLock : Z;
  tcp_closed : bool;
  writeQueueLen : nat
}.

(** One connection together with the channel objects it and its users point
    to, the log of the calls made to the application handler, and the log of
    the whole responses a client dispatcher handed to a waiting caller.  A Go
    program holds no pointer to an address outside the heap; a method called
    on such an address leaves the state as it is. *)
Record World : Type := mkWorld {
  heap : gmap ptr Channel;
  conn : Connection;
  handled : list (ptr * Packet * bool);
  responded : list (ptr * Packet)
}.

Definition with_conn (f : Connection -> Connection) (w : World) : World :=
  mkWorld (heap w) (f (conn w)) (handled w) (responded w).

Definition with_chan (p : ptr) (f : Channel -> Channel) (w : World) : World :=
  mkWorld (alter f p (heap w)) (conn w) (handled w) (responded w).

Definition set_chan_err (e : option error) (c : Channel) : Channel :=
  mkChannel e (Id c) (WritePacketCount c) (ReadPacketCount c) (ReadBytes c)
    (WriteBytes c) (receivedQueue c) (packetStatus c) (chan_closeNotify c)
    (chan_closeLock c) (pktWhole c).

Definition set_WritePacketCount (n : Z) (c : Channel) : Channel :=
  mkChannel (chan_err c) (Id c) n (ReadPacketCount c) (ReadBytes c)
    (WriteBytes c) (receivedQueue c) (packetStatus c) (chan_closeNotify c)
    (chan_closeLock c) (pktWhole c).

Definition set_chan_closeNotify (b : bool) (c : Channel) : Channel :=
  mkChannel (chan_err c) (Id c) (WritePacketCount c) (ReadPacketCount c) (ReadBytes c)
    (WriteBytes c) (receivedQueue c) (packetStatus c) b
    (chan_closeLock c) (pktWhole c).

Definition set_chan_closeLock (v : Z) (c : Channel) : Channel :=
  mkChannel (chan_err c) (Id c) (WritePacketCount c) (ReadPacketCount c) (ReadBytes c)
    (WriteBytes c) (receivedQueue c) (packetStatus c) (chan_closeNotify c)
    v (pktWhole c).

Definition set_pktWhole (q : option Packet) (c : Channel) : Channel :=
  mkChannel (chan_err c) (Id c) (WritePacketCount c) (ReadPacketCount c) (ReadBytes c)
    (WriteBytes c) (receivedQueue c) (packetStatus c) (chan_closeNotify c)
    (chan_closeLock c) q.

Definition set_receivedQueue (q : list Packet) (c : Channel) : Channel :=
  mkChannel (chan_err c) (Id c) (WritePacketCount c) (ReadPacketCount c) (ReadBytes c)
    (WriteBytes c) q (packetStatus c) (chan_closeNotify c)
    (chan_closeLock c) (pktWhole c).

(** The three writes the reader does on delivery. *)
Definition note_received (status : Z) (nbytes : Z) (pkt : Packet) (c : Channel) : Channel :=
  mkChannel (chan_err c) (Id c) (WritePacketCount c)
    (wrap64 (ReadPacketCount c + 1)) (wrap64 (ReadBytes c + nbytes))
    (WriteBytes c) (receivedQueue c ++ [pkt]) status (chan_closeNotify c)
    (chan_closeLock c) (pktWhole c).

Definition enqueue (pkt : Packet) (c : Connection) : Connection :=
  mkConnection (conn_err c) (Role c) (Channels c) (MaxChannelId c) (FreeChannleId c)
    (tcpWriteQueue c ++ [pkt]) (conn_closeNotify c) (conn_closeLock c) (tcp_closed c)
    (writeQueueLen c).

Definition enqueue_all (pkts : list Packet) (c : Connection) : Connection :=
  mkConnection (conn_err c) (Role c) (Channels c) (MaxChannelId c) (FreeChannleId c)
    (tcpWriteQueue c ++ pkts) (conn_closeNotify c) (conn_closeLock c) (tcp_closed c)
    (writeQueueLen c).

Definition set_table (t : gmap Z ptr) (f : gset Z) (c : Connection) : Connection :=
  mkConnection (conn_err c) (Role c) t (MaxChannelId c) f
    (tcpWriteQueue c) (conn_closeNotify c) (conn_closeLock c) (tcp_closed c)
    (writeQueueLen c).

Definition set_alloc (mx : Z) (f : gset Z) (c : Connection) : Connection :=
  mkConnection (conn_err c) (Role c) (Channels c) mx f
    (tcpWriteQueue c) (conn_closeNotify c) (conn_closeLock c) (tcp_closed c)
    (writeQueueLen c).

Definition set_conn_closeLock (v : Z) (c : Connection) : Connection :=
  mkConnection (conn_err c) (Role c) (Channels c) (MaxChannelId c) (FreeChannleId c)
    (tcpWriteQueue c) (conn_closeNotify c) v (tcp_closed c) (writeQueueLen c).

Definition set_conn_closing (e : error) (c : Connection) : Connection :=
  mkConnection (Some e) (Role c) (Channels c) (MaxChannelId c) (FreeChannleId c)
    (tcpWriteQueue c) (conn_closeNotify c) (conn_closeLock c) true (writeQueueLen c).

Definition set_conn_closeNotify (b : bool) (c : Connection) : Connection :=
  mkConnection (conn_err c) (Role c) (Channels c) (MaxChannelId c) (FreeChannleId c)
    (tcpWriteQueue c) b (conn_closeLock c) (tcp_closed c)
    (writeQueueLen c).

(** ** Channel.SendPacket *)

(** [m.WritePacketCount++] *)
Definition count_sent (c : Channel) : Channel :=
  set_WritePacketCount (wrap64 (WritePacketCount c + 1)) c.

(** How the fragmenting [for] loop ended: by [break], by [return] of an error,
    or because the model's iteration budget ran out. *)
Inductive loop_exit : Type := LoopBreak | LoopError (e : error) | LoopStarved.

(** The status of one chunk, or the "protocol error" the source returns. *)
Definition chunk_status (role : Z) (chunkSize remainDataSize : Z) (firstSend : bool)
  : Z + error :=
  if chunkSize =? remainDataSize then
    if role =? RoleClient then inl (if firstSend then 1 else 3)
    else if role =? RoleServer then inl (if firstSend then 5 else 7)
    else inr ErrProtocolError
  else if chunkSize <? remainDataSize then
    if role =? RoleClient then inl (if firstSend then 0 else 2)
    else if role =? RoleServer then inl (if firstSend then 4 else 6)
    else inr ErrProtocolError
  else inr ErrProtocolError.

(** The loop of the fragmenting branch; the chunks are returned in the order
    in which they are put on [tcpWriteQueue].  The limit is a parameter so
    that the loop can also be run with a small one; [SendPacket] runs it with
    [MaxPacketSize], and with one iteration per byte of data, which is more
    than it uses ([sendLoop_ends]). *)
Fixpoint sendLoop (limit : Z) (fuel : nat) (role : Z) (m : ptr) (mId : Z) (pkt : Packet)
    (remainDataSize : Z) (firstSend : bool) : list Packet * loop_exit :=
  match fuel with
  | O => ([], LoopStarved)
  | S fuel' =>
      let chunkSize := if remainDataSize <? limit then remainDataSize else limit in
      let start := len (Data pkt) - remainDataSize in
      let end_ := start + chunkSize in
      match chunk_status role chunkSize remainDataSize firstSend with
      | inr e => ([], LoopError e)
      | inl st =>
          let chunk := mkPacket (Type_ pkt) st (Path pkt) mId
                         (slice (Data pkt) start end_) (Some m) in
          let remainDataSize' := remainDataSize - chunkSize in
          if remainDataSize' <=? 0 then ([chunk], LoopBreak)
          else
            let '(rest, ex) := sendLoop limit fuel' role m mId pkt remainDataSize' false in
            (chunk :: rest, ex)
      end
  end.

Definition SendPacket_limit (limit : Z) (w : World) (m : ptr) (pkt : Packet)
  : World * option error :=
  match heap w !! m with
  | None => (w, None)
  | Some ch =>
      match chan_err ch with
      | Some e => (w, Some (ErrChannelInvalid e))
      | None =>
          let role := Role (conn w) in
          if len (Data pkt) <=? limit then
            let pkt' := if role =? RoleClient then set_Status 1 pkt
                        else if role =? RoleServer then set_Status 5 pkt
                        else pkt in
            (with_chan m count_sent (with_conn (enqueue pkt') w), None)
          else
            let '(chunks, ex) :=
              sendLoop limit (Z.to_nat (len (Data pkt))) role m (Id ch) pkt
                       (len (Data pkt)) true in
            let w' := with_conn (enqueue_all chunks) w in
            match ex with
            | LoopBreak =>
                (with_chan m count_sent w', None)
            | LoopError e => (w', Some e)
            | LoopStarved => (w', Some ErrProtocolError)
            end
      end
  end.

Definition SendPacket : World -> ptr -> Packet -> World * option error :=
  SendPacket_limit MaxPacketSize.

(** ** Channel table and id allocation *)

(** The order in which a Go [range] over a map visits its keys is not fixed by
    the language.  A [range_order] takes the keys of the map (as [elements]
    lists them) to the order of one particular [range]; any permutation can
    occur. *)
Definition range_order : Type := list Z -> list Z.

Definition fair (ord : range_order) : Prop := forall l, ord l ≡ₚ l.

Definition getChannel (w : World) (channelId : Z) : option ptr :=
  Channels (conn w) !! channelId.

Definition removeChannel (w : World) (c : option ptr) : World :=
  match c with
  | None => w
  | Some p =>
      match heap w !! p with
      | None => w
      | Some ch =>
          with_conn (fun cn => set_table (delete (Id ch) (Channels cn))
                                          ({[ Id ch ]} ∪ FreeChannleId cn) cn) w
      end
  end.

(** Returns the id and the connection after the call.  The first key that
    [range m.FreeChannleId] yields is the head of the range order. *)
Definition makeNewChannelId (ord : range_order) (cn : Connection) : Z * Connection :=
  if 0 <? Z.of_nat (size (FreeChannleId cn)) then
    match ord (elements (FreeChannleId cn)) with
    | k :: _ => (k, set_alloc (MaxChannelId cn) (FreeChannleId cn ∖ {[ k ]}) cn)
    | [] => (0, cn)
    end
  else if MaxChannelId cn <? MaxUint32 then
    (MaxChannelId cn + 1, set_alloc (MaxChannelId cn + 1) (FreeChannleId cn) cn)
  else (0, cn).

Definition fresh_Channel (id : Z) : Channel :=
  mkChannel None id 0 0 0 0 [] 255 true 0 None.

(** Returns the new channel's address.  Starting the dispatcher goroutine
    changes no field. *)
Definition newChannel (ord : range_order) (w : World) (sys : bool) : ptr * World :=
  let p : ptr := fresh (dom (heap w)) in
  let '(id, cn) := if sys then (0, conn w) else makeNewChannelId ord (conn w) in
  (p, mkWorld (<[ p := fresh_Channel id ]> (heap w))
              (set_table (<[ id := p ]> (Channels cn)) (FreeChannleId cn) cn)
              (handled w) (responded w)).

(** ** Channel.Close and Connection.Close *)

(** A [nil] error makes [log.Errorf("channel closed: %s", err.Error())] panic
    after the terminal error has been stored; the deferred unlock still runs. *)
Definition ChannelClose (w : World) (m : ptr) (err : option error) : World * outcome :=
  match heap w !! m with
  | None => (w, Returned)
  | Some ch =>
      if negb (chan_closeLock ch =? 0) then (w, Returned)
      else
        let w1 := with_chan m (set_chan_closeLock 1) w in
        let w2 := fst (SendPacket w1 m (mkPacket 8 0 [] (Id ch) [] (Some m))) in
        let w3 := removeChannel w2 (Some m) in
        let w4 := with_chan m (set_chan_err (Some (default ErrUnknown err))) w3 in
        match err with
        | None => (with_chan m (set_chan_closeLock 0) w4, Panicked)
        | Some _ =>
            let w5 := with_chan m (set_chan_closeNotify false) w4 in
            (with_chan m (set_chan_closeLock 0) w5, Returned)
        end
  end.

(** [for _, v := range m.Channels { v.Close(...) }]: a key removed from the map
    before the iteration reaches it is not visited. *)
Fixpoint close_each (w : World) (keys : list Z) : World :=
  match keys with
  | [] => w
  | k :: keys' =>
      match Channels (conn w) !! k with
      | None => close_each w keys'
      | Some v => close_each (fst (ChannelClose w v (Some ErrConnectionIsClosed))) keys'
      end
  end.


(** The state in which [Connection.Close] returns, which it does when no send
    of the cascade waits for ever ([room_to_close]).  The calls on the server
    or client registry and on the socket are calls to collaborators; of these
    only the fact that the socket was closed is kept. *)
Definition ConnectionClose (ord : range_order) (w : World) (err : option error) : World :=
  if negb (conn_closeLock (conn w) =? 0) then w
  else
    let w1 := with_conn (set_conn_closeLock 1) w in
    let w2 := with_conn (set_conn_closing (default ErrUnknown err)) w1 in
    let w3 := close_each w2 (ord (elements (dom (Channels (conn w2))))) in
    let w4 := with_conn (set_conn_closeNotify false) w3 in
    with_conn (set_conn_closeLock 0) w4.

(** ** NewConnection *)

(** [writeQueueLen] is the length of the buffer of [tcpWriteQueue]; it is a
    natural number here, since [make] panics on a negative length. *)
Definition NewConnection (ord : range_order) (role : Z) (writeQueueLen : nat)
  : World + error :=
  if negb (role =? RoleClient) && negb (role =? RoleServer) then inr ErrInvalidRole
  else
    let ret := mkConnection None role ∅ 0 ∅ [] true 0 false writeQueueLen in
    inl (snd (newChannel ord (mkWorld ∅ ret [] []) true)).

(** ** The reader *)

(** The socket's inbound half is the list of bytes that arrive before the
    stream ends or fails; a read past its end is an error.  The three read
    primitives return what they read and the bytes left. *)

(** [bufio.Reader.ReadByte]. *)
Definition ReadByte (input : list Z) : (Z * list Z) + error :=
  match input with
  | [] => inr ErrEOF
  | b :: rest => inl (b, rest)
  end.

(** [bufio.Reader.ReadSlice]: the line up to and including [delim].  The
    delimiter has to show up among the next [room] bytes, the size of the
    reader's buffer; otherwise the call fails with [bufio.ErrBufferFull]. *)
Fixpoint ReadSlice_room (delim : Z) (input : list Z) (room : Z)
  : (list Z * list Z) + error :=
  match input with
  | [] => inr (if room <=? 0 then ErrBufferFull else ErrEOF)
  | b :: rest =>
      if room <=? 0 then inr ErrBufferFull
      else if b =? delim then inl ([b], rest)
      else match ReadSlice_room delim rest (room - 1) with
           | inl (line, rest') => inl (b :: line, rest')
           | inr e => inr e
           end
  end.

Definition ReadSlice (delim : Z) (input : list Z) : (list Z * list Z) + error :=
  ReadSlice_room delim input PacketReadBufSize.

(** [io.ReadFull] into a buffer of [n] bytes. *)
Definition ReadFull (n : Z) (input : list Z) : (list Z * list Z) + error :=
  if n <=? len input then inl (take (Z.to_nat n) input, drop (Z.to_nat n) input)
  else inr (if len input =? 0 then ErrEOF else ErrUnexpectedEOF).

(** What one round of a read loop decides before it touches any state. *)
Inductive parsed : Type :=
| Deliver (channel : ptr) (pkt : Packet) (rest : list Z)
| Abort (e : error).

(** The body of [serverReadLoop] and of [clientReadLoop] from the first read to
    the last; the two differ only in the status check they call. *)
Definition readFrame (check : Z -> Z -> option error) (w : World) (input : list Z) : parsed :=
  match ReadByte input with
  | inr e => Abort (ErrReadDataFail e)
  | inl (status, in1) =>
  if status =? Status8 then Abort ErrConnClosedByPeerCommand else
  match ReadSlice 0 in1 with
  | inr e => Abort (ErrReadDataFail e)
  | inl (path, in2) =>
  let pathStr := slice path 0 (len path - 1) in
  match ReadFull 4 in2 with
  | inr e => Abort (ErrReadDataFail e)
  | inl (btsChannelId, in3) =>
  let channelId := Uint32 btsChannelId in
  match getChannel w channelId with
  | None => Abort (ErrInvalidChannelId channelId)
  | Some channel =>
  match heap w !! channel with
  | None => Abort (ErrInvalidChannelId channelId)
  | Some ch =>
  match check (packetStatus ch) status with
  | Some e => Abort e
  | None =>
  match ReadFull 4 in3 with
  | inr e => Abort (ErrReadDataFail e)
  | inl (btsDataLen, in4) =>
  let dataLen := Uint32 btsDataLen in
  if dataLen >? MaxPacketSize then Abort ErrDataLenMeta
  else if dataLen =? 0 then Abort (ErrInvalidDataLen dataLen)
  else
  match ReadFull dataLen in4 with
  | inr e => Abort e
  | inl (data, in5) =>
      Deliver channel
        (mkPacket PacketTypeResponse status pathStr channelId data (Some channel)) in5
  end end end end end end end end.

(** One round of the loop: the connection after it, and the input left when
    the loop goes on ([None] when it has left the loop). *)
Definition readLoop_body (ord : range_order) (check : Z -> Z -> option error)
    (w : World) (input : list Z) : World * option (list Z) :=
  match conn_err (conn w) with
  | Some _ => (w, None)
  | None =>
      match readFrame check w input with
      | Abort e => (ConnectionClose ord w (Some e), None)
      | Deliver channel pkt rest =>
          (with_chan channel
             (note_received (Status pkt)
                (len (Data pkt) + 1 + len (Path pkt) + 1 + 4 + 4) pkt) w,
           Some rest)
      end
  end.

Fixpoint readLoop (ord : range_order) (check : Z -> Z -> option error)
    (fuel : nat) (w : World) (input : list Z) : option World :=
  match fuel with
  | O => None
  | S fuel' =>
      match readLoop_body ord check w input with
      | (w', None) => Some w'
      | (w', Some rest) => readLoop ord check fuel' w' rest
      end
  end.

Definition serverReadLoop_body (ord : range_order) := readLoop_body ord CheckClientPacketStatus.
Definition clientReadLoop_body (ord : range_order) := readLoop_body ord CheckServerPacketStatus.

Definition serverReadLoop (ord : range_order) (w : World) (input : list Z) : option World :=
  readLoop ord CheckClientPacketStatus (S (length input)) w input.

Definition clientReadLoop (ord : range_order) (w : World) (input : list Z) : option World :=
  readLoop ord CheckServerPacketStatus (S (length input)) w input.

(** ** The per-channel dispatchers *)

(** [// merge]: the running whole message after one more frame.  The first
    frame becomes the whole message itself. *)
Definition merge (whole : option Packet) (pkt : Packet) : Packet :=
  match whole with
  | None => pkt
  | Some r => set_Status (Status pkt) (set_Data (Data r ++ Data pkt) r)
  end.

Definition log_handled (m : ptr) (arg : Packet) (completed : bool) (w : World) : World :=
  mkWorld (heap w) (conn w) (handled w ++ [(m, arg, completed)]) (responded w).

Definition log_responded (m : ptr) (whole : Packet) (w : World) : World :=
  mkWorld (heap w) (conn w) (handled w) (responded w ++ [(m, whole)]).

Section Dispatch.

(** [handler.Handle]: the application handler, seen as what it returns for
    the arguments it is given. *)
Variable Handle : ptr -> Packet -> bool -> option (list Z) * option error.

(** [ErrorResponse(errExt).Data()], the payload of a structured error. *)
Variable ErrorResponseData : error -> list Z.

(** Whether the channel's context holds a response endpoint under
    [CtxResponseChan]. *)
Variable hasResponseChan : ptr -> bool.

Definition needs_error_response (err : option error) : bool :=
  match err with
  | Some e => negb (error_eqb e ErrPacketContinue)
  | None => false
  end.

(** One round of [handleServerLoop] in which the [select] receives from
    [receivedQueue]. *)
Definition handleServerLoop_body (w : World) (m : ptr) : World :=
  match heap w !! m with
  | None => w
  | Some ch =>
      match receivedQueue ch with
      | [] => w
      | pkt :: queue =>
          let w := with_chan m (set_receivedQueue queue) w in
          if Status pkt =? Status8
          then fst (ChannelClose w m (Some ErrClosedByPeerCommand))
          else
            let whole := merge (pktWhole ch) pkt in
            let w := with_chan m (set_pktWhole (Some whole)) w in
            let completed := isClientStatusCompleted (Status pkt) in
            let '(ret, err) := Handle m pkt completed in
            let w := log_handled m pkt completed w in
            let '(w, err) :=
              if needs_error_response err then (w, Some ErrHandleError)
              else match ret with
                   | None => (w, Some ErrHandleNoResponse)
                   | Some r =>
                       (fst (SendPacket w m
                               (mkPacket PacketTypeResponse 0 (Path pkt)
                                  (ChannelId pkt) r (Some m))), err)
                   end in
            let w :=
              match err with
              | Some e =>
                  if negb (error_eqb e ErrPacketContinue)
                  then fst (SendPacket w m
                              (mkPacket PacketTypeResponse 0 (Path pkt)
                                 (ChannelId pkt) (ErrorResponseData e) (Some m)))
                  else w
              | None => w
              end in
            if isServerStatusCompleted (Status pkt)
            then with_chan m (set_pktWhole None) w
            else w
      end
  end.

(** One round of [handleClientLoop] in which the [select] receives from
    [receivedQueue]. *)
Definition handleClientLoop_body (w : World) (m : ptr) : World :=
  match heap w !! m with
  | None => w
  | Some ch =>
      match receivedQueue ch with
      | [] => w
      | pkt :: queue =>
          let w := with_chan m (set_receivedQueue queue) w in
          if Status pkt =? Status8
          then fst (ChannelClose w m (Some ErrClosedByPeerCommand))
          else
            let whole := merge (pktWhole ch) pkt in
            let w := with_chan m (set_pktWhole (Some whole)) w in
            let completed := isServerStatusCompleted (Status pkt) in
            let w := log_handled m whole completed w in
            if isServerStatusCompleted (Status pkt)
            then
              let w := if hasResponseChan m then log_responded m whole w else w in
              with_chan m (set_pktWhole None) w
            else w
      end
  end.

End Dispatch.

(** ** Shapes of a burst of frames *)

(** The status a role puts on a frame: the client's or the server's. *)
Definition by_role (role : Z) (client server : Z) : Z :=
  if role =? RoleClient then client else server.

(** Zero or more continuation frames that are not the last, then a last one. *)
Definition continuation (role : Z) (frames : list Packet) : Prop :=
  exists middle last,
    frames = middle ++ [last]
    /\ Forall (fun f => Status f = by_role role StatusC2 StatusS6) middle
    /\ Status last = by_role role StatusC3 StatusS7.

(** ** Data frames on the wire *)

(** A packet that can travel as a data frame: its path holds no [0x00], its
    payload is not empty, its channel id fits 32 bits and its status is not
    the close status. *)
Definition wellformed (pkt : Packet) : Prop :=
  (0 ∉ Path pkt) /\ 0 < len (Data pkt) /\ is_uint32 (ChannelId pkt)
  /\ Status pkt <> Status8.

(** The packet is addressed to channel [p] of the connection, and its status
    may follow the last status received on that channel. *)
Definition expected (check : Z -> Z -> option error) (w : World) (p : ptr)
    (pkt : Packet) : Prop :=
  getChannel w (ChannelId pkt) = Some p
  /\ exists ch, heap w !! p = Some ch /\ check (packetStatus ch) (Status pkt) = None.

(** ** Protocol violations, as the error table lists them *)

(** The ways in which an incoming frame, with leading byte [status] and the
    bytes [rest] behind it, violates the protocol according to the error table
    of the specification: an invalid status byte, an illegal status
    transition, a data length over the limit, a data length of zero, an
    unknown channel id, a read that ends in the middle of the frame.  This
    follows the wording of the table, field by field of the wire layout, and
    not the code of the reader. *)
Inductive malformed (check : Z -> Z -> option error) (w : World)
    (status : Z) (rest : list Z) : Prop :=
| mal_status_invalid :
    (forall prev, check prev status <> None) ->
    malformed check w status rest
| mal_transition path idb tail p ch :
    rest = path ++ 0 :: idb ++ tail -> 0 ∉ path -> len idb = 4 ->
    getChannel w (Uint32 idb) = Some p -> heap w !! p = Some ch ->
    check (packetStatus ch) status <> None ->
    malformed check w status rest
| mal_len_over path idb lb tail :
    rest = path ++ 0 :: idb ++ lb ++ tail -> 0 ∉ path ->
    len idb = 4 -> len lb = 4 -> MaxPacketSize < Uint32 lb ->
    malformed check w status rest
| mal_len_zero path idb lb tail :
    rest = path ++ 0 :: idb ++ lb ++ tail -> 0 ∉ path ->
    len idb = 4 -> len lb = 4 -> Uint32 lb = 0 ->
    malformed check w status rest
| mal_unknown_channel path idb tail :
    rest = path ++ 0 :: idb ++ tail -> 0 ∉ path -> len idb = 4 ->
    getChannel w (Uint32 idb) = None ->
    malformed check w status rest
| mal_cut_in_path :
    0 ∉ rest ->
    malformed check w status rest
| mal_cut_in_header path tail :
    rest = path ++ 0 :: tail -> 0 ∉ path -> len tail < 8 ->
    malformed check w status rest
| mal_cut_in_data path idb lb tail :
    rest = path ++ 0 :: idb ++ lb ++ tail -> 0 ∉ path ->
    len idb = 4 -> len lb = 4 -> len tail < Uint32 lb ->
    malformed check w status rest.

(** The path does not end within the reader's buffer: at least
    [PacketReadBufSize] bytes follow the status byte and none of the first
    [PacketReadBufSize] is the terminator. *)
Definition path_overruns_buffer (rest : list Z) : Prop :=
  PacketReadBufSize <= len rest /\ (0 ∉ take (Z.to_nat PacketReadBufSize) rest).

(** A round of the reader closes the connection; a round delivers a frame. *)
Definition closes (ord : range_order) (check : Z -> Z -> option error)
    (w : World) (input : list Z) : Prop :=
  exists e, readLoop_body ord check w input = (ConnectionClose ord w (Some e), None).

Definition delivers (ord : range_order) (check : Z -> Z -> option error)
    (w : World) (input : list Z) : Prop :=
  exists channel pkt rest,
    readLoop_body ord check w input
    = (with_chan channel
         (note_received (Status pkt) (len (Data pkt) + 1 + len (Path pkt) + 1 + 4 + 4) pkt) w,
       Some rest).

(** Every entry of the channel table points to a channel object. *)
Definition table_in_heap (w : World) : Prop :=
  forall k p, Channels (conn w) !! k = Some p -> is_Some (heap w !! p).

(** ** The state a close leaves behind *)

(** The frame [Channel.Close] hands to [SendPacket], as [SendPacket] puts it on
    the outbound queue. *)
Definition close_frame (role : Z) (m : ptr) (ch : Channel) : Packet :=
  let pkt := mkPacket 8 0 [] (Id ch) [] (Some m) in
  if role =? RoleClient then set_Status 1 pkt
  else if role =? RoleServer then set_Status 5 pkt
  else pkt.

(** The channel object after [Close]: the error is stored, the frame counts
    as sent if the channel had no error before, and the stop signal is closed
    unless the call panicked on a [nil] error. *)
Definition closed_Channel (err : option error) (ch : Channel) : Channel :=
  mkChannel (Some (default ErrUnknown err)) (Id ch)
    (match chan_err ch with
     | None => wrap64 (WritePacketCount ch + 1)
     | Some _ => WritePacketCount ch
     end)
    (ReadPacketCount ch) (ReadBytes ch) (WriteBytes ch) (receivedQueue ch)
    (packetStatus ch)
    (match err with Some _ => false | None => chan_closeNotify ch end)
    0 (pktWhole ch).

(** The connection after the [Close] of a channel object [ch] at address [m]. *)
Definition closed_from (m : ptr) (ch : Channel) (cn : Connection) : Connection :=
  mkConnection (conn_err cn) (Role cn)
    (delete (Id ch) (Channels cn)) (MaxChannelId cn)
    ({[ Id ch ]} ∪ FreeChannleId cn)
    (tcpWriteQueue cn
       ++ match chan_err ch with
          | None => [close_frame (Role cn) m ch]
          | Some _ => []
          end)
    (conn_closeNotify cn) (conn_closeLock cn) (tcp_closed cn) (writeQueueLen cn).

(** The fields of a connection that [Channel.Close] neither reads nor writes. *)
Definition set_conn_meta (e : option error) (notify : bool) (lock : Z) (tcp : bool)
    (c : Connection) : Connection :=
  mkConnection e (Role c) (Channels c) (MaxChannelId c) (FreeChannleId c)
    (tcpWriteQueue c) notify lock tcp (writeQueueLen c).

(** ** Consistent states *)

(** What holds of a connection between two calls: no close is in progress, the
    role is one of the two, ids are within the ids handed out so far, the
    channel table points to channel objects under their own id, free ids are
    not in the table, and no close frame waits in an inbound queue. *)
Record consistent (w : World) : Prop := mkConsistent {
  cons_lock : conn_closeLock (conn w) = 0;
  cons_role : Role (conn w) = RoleClient \/ Role (conn w) = RoleServer;
  cons_max : 0 <= MaxChannelId (conn w) <= MaxUint32;
  cons_heap : forall p ch, heap w !! p = Some ch ->
      chan_closeLock ch = 0 /\ 0 <= Id ch <= MaxChannelId (conn w)
      /\ Forall (fun pkt => Status pkt <> Status8) (receivedQueue ch);
  cons_table : forall k p, Channels (conn w) !! k = Some p ->
      exists ch, heap w !! p = Some ch /\ Id ch = k;
  cons_free : forall k, k ∈ FreeChannleId (conn w) ->
      0 <= k <= MaxChannelId (conn w) /\ Channels (conn w) !! k = None
}.

(** An update of one channel object that keeps its latch and id, and keeps its
    inbound queue free of close frames. *)
Definition quiet (g : Channel -> Channel) : Prop :=
  forall c, chan_closeLock (g c) = chan_closeLock c /\ Id (g c) = Id c
            /\ (Forall (fun pkt => Status pkt <> Status8) (receivedQueue c) ->
                Forall (fun pkt => Status pkt <> Status8) (receivedQueue (g c))).

(** An update of the connection that keeps the role, the latch, the channel
    table and the allocator. *)
Definition framed (f : Connection -> Connection) : Prop :=
  forall c, Role (f c) = Role c /\ conn_closeLock (f c) = conn_closeLock c
            /\ Channels (f c) = Channels c /\ MaxChannelId (f c) = MaxChannelId c
            /\ FreeChannleId (f c) = FreeChannleId c.

(** ** Runs of a connection *)

(** What can happen to a connection after [NewConnection]: calls of the
    exported methods, one round of the reader, one round of a channel's
    dispatcher.  Each [range] brings its own order; a dispatcher round brings
    the handler it talks to. *)
Inductive op : Type :=
| OpNewChannel (ord : range_order)
| OpSendPacket (m : ptr) (pkt : Packet)
| OpChannelClose (m : ptr) (err : option error)
| OpConnectionClose (ord : range_order) (err : option error)
| OpRead (ord : range_order) (input : list Z)
| OpDispatch (Handle : ptr -> Packet -> bool -> option (list Z) * option error)
             (ErrorResponseData : error -> list Z)
             (hasResponseChan : ptr -> bool) (m : ptr).

Definition step (w : World) (o : op) : World :=
  match o with
  | OpNewChannel ord => snd (newChannel ord w false)
  | OpSendPacket m pkt => fst (SendPacket w m pkt)
  | OpChannelClose m err => fst (ChannelClose w m err)
  | OpConnectionClose ord err => ConnectionClose ord w err
  | OpRead ord input =>
      if Role (conn w) =? RoleClient
      then fst (clientReadLoop_body ord w input)
      else fst (serverReadLoop_body ord w input)
  | OpDispatch Handle ErrorResponseData hasResponseChan m =>
      if Role (conn w) =? RoleServer
      then handleServerLoop_body Handle ErrorResponseData w m
      else if Role (conn w) =? RoleClient
      then handleClientLoop_body hasResponseChan w m
      else w
  end.

Definition op_fair (o : op) : Prop :=
  match o with
  | OpNewChannel ord | OpConnectionClose ord _ | OpRead ord _ => fair ord
  | _ => True
  end.

Inductive reachable : World -> Prop :=
| reach_new ord role writeQueueLen w :
    fair ord -> NewConnection ord role writeQueueLen = inl w -> reachable w
| reach_step w o :
    reachable w -> op_fair o -> reachable (step w o).

(** ** Example states and inputs *)

(** A [range] that visits the keys in the order [elements] lists them. *)
Definition in_order : range_order := fun l => l.

(** The connection [NewConnection] builds for a role and a queue length, with
    its system channel. *)
Definition new_connection (role : Z) (writeQueueLen : nat) : World :=
  snd (newChannel in_order
         (mkWorld ∅ (mkConnection None role ∅ 0 ∅ [] true 0 false writeQueueLen) [] [])
         true).

(** The one with an outbound queue of 16 packets. *)
Definition new_world (role : Z) : World := new_connection role 16.

(** A client connection on which one more channel has been opened. *)
Definition two_channel_world : World :=
  snd (newChannel in_order (new_world RoleClient) false).


(** A request frame for the system channel whose path fills the whole read
    buffer before its terminator: status [C1], 16384 bytes of path, the
    terminator, channel id 0, data length 1, one byte of data. *)
Definition long_path : list Z := replicate (Z.to_nat PacketReadBufSize) 65.

Definition long_path_rest : list Z :=
  long_path ++ 0 :: [0; 0; 0; 0] ++ [0; 0; 0; 1] ++ [7].

(** The packet of the tiny echo: path "/echo" on the system channel. *)
Definition echo_packet : Packet :=
  mkPacket PacketTypeRequest StatusC1 [47; 101; 99; 104; 111] 0 [104; 105] None.

(** A path with a zero byte in it. *)
Definition nul_packet : Packet :=
  mkPacket PacketTypeRequest StatusC1 [47; 97; 0; 98] 0 [104; 105] None.

(** A request in two frames for the system channel, as bytes on the wire:
    [C0] with payload [1], then [C3] with payload [2]; both with path "/a". *)
Definition two_frames : list Z :=
  [0; 47; 97; 0; 0; 0; 0; 0; 0; 0; 0; 1; 1]
  ++ [3; 47; 97; 0; 0; 0; 0; 0; 0; 0; 0; 1; 2].

(** A handler that asks for more until the request is complete and then
    answers with one byte. *)
Definition waiting_handler (m : ptr) (pkt : Packet) (completed : bool)
  : option (list Z) * option error :=
  if completed then (Some [9], None) else (Some [], Some ErrPacketContinue).

Definition no_error_payload (e : error) : list Z := [].

(** A server connection after its reader has delivered the two frames and the
    dispatcher of the system channel has handled both. *)
Definition after_two_frames : World :=
  let w0 := new_world RoleServer in
  let '(w1, rest1) := serverReadLoop_body in_order w0 two_frames in
  let '(w2, _) := serverReadLoop_body in_order w1 (default [] rest1) in
  let w3 := handleServerLoop_body waiting_handler no_error_payload w2 0%nat in
  handleServerLoop_body waiting_handler no_error_payload w3 0%nat.

(** ** The writer *)

Definition set_WriteBytes (n : Z) (c : Channel) : Channel :=
  mkChannel (chan_err c) (Id c) (WritePacketCount c) (ReadPacketCount c) (ReadBytes c)
    n (receivedQueue c) (packetStatus c) (chan_closeNotify c)
    (chan_closeLock c) (pktWhole c).

Definition set_tcpWriteQueue (q : list Packet) (c : Connection) : Connection :=
  mkConnection (conn_err c) (Role c) (Channels c) (MaxChannelId c) (FreeChannleId c)
    q (conn_closeNotify c) (conn_closeLock c) (tcp_closed c)
    (writeQueueLen c).

(** What a call of [io.Writer.Write] returns: it took all the bytes it was
    given, or it took [n] of them and reports an error.  By the contract of
    [io.Writer] a call that takes fewer bytes than it was given returns an
    error, so the answer [n != len(data)] with a [nil] error, which
    [WritePacket] also tests for, is not among a writer's answers. *)
Inductive written : Type :=
| WroteAll
| WroteSome (n : Z) (e : error).

(** The socket's outbound half, seen as what [Write] answers for the bytes it
    is given. *)
Definition writer : Type := list Z -> written.

(** [pkt.channel.WriteBytes += int64(n)] *)
Definition count_written (n : Z) (c : Channel) : Channel :=
  set_WriteBytes (wrap64 (WriteBytes c + n)) c.

(** Returns the state after the call, the bytes the writer took, and the two
    results [n] and [err] of the source. *)
Definition WritePacket (Write : writer) (w : World) (pkt : Packet)
  : World * list Z * Z * option error :=
  match CreateNetPacket pkt with
  | inr e => (w, [], 0, Some e)
  | inl data =>
      match Write data with
      | WroteSome n e => (w, take (Z.to_nat n) data, n, Some e)
      | WroteAll =>
          let n := len data in
          match channel pkt with
          | Some c => (with_chan c (count_written n) w, data, n, None)
          | None => (w, data, n, None)
          end
      end
  end.

(** One round of [writeLoop] in which the [select] receives a packet from
    [tcpWriteQueue]: the state after it, the bytes the socket took, and whether
    the loop goes on.  With an empty queue there is nothing to receive. *)
Definition writeLoop_body (Write : writer) (ord : range_order) (w : World)
  : World * list Z * bool :=
  match tcpWriteQueue (conn w) with
  | [] => (w, [], false)
  | pkt :: queue =>
      let w := with_conn (set_tcpWriteQueue queue) w in
      match WritePacket Write w pkt with
      | (w, sent, _, Some e) => (ConnectionClose ord w (Some e), sent, false)
      | (w, sent, _, None) => (w, sent, true)
      end
  end.

(** The rounds of [writeLoop] until the queue is empty or the loop returns. *)
Fixpoint writeLoop (Write : writer) (ord : range_order) (fuel : nat) (w : World)
  : World * list Z :=
  match fuel with
  | O => (w, [])
  | S fuel' =>
      match writeLoop_body Write ord w with
      | (w', sent, true) =>
          let '(w'', more) := writeLoop Write ord fuel' w' in (w'', sent ++ more)
      | (w', sent, false) => (w', sent)
      end
  end.

(** A socket that takes whatever it is given. *)
Definition takes_all : writer := fun _ => WroteAll.

(** ** Frames on the wire *)

(** The bytes of a frame: status, path, terminator, channel id, data length,
    data. *)
Definition wire (pkt : Packet) : list Z :=
  Status pkt :: Path pkt ++ 0 :: PutUint32 (ChannelId pkt)
    ++ PutUint32 (to_uint32 (len (Data pkt))) ++ Data pkt.

(** A packet whose frame a reader can take: within the two limits of the
    encoder, and [wellformed]. *)
Definition sendable (pkt : Packet) : Prop :=
  len (Path pkt) <= MaxPathLen /\ len (Data pkt) <= MaxPacketSize /\ wellformed pkt.

(** The packet a reader builds from the frame of [pkt] for channel [q]. *)
Definition received (q : ptr) (pkt : Packet) : Packet :=
  mkPacket PacketTypeResponse (Status pkt) (Path pkt) (ChannelId pkt) (Data pkt) (Some q).

(** The first [n] rounds of a read loop. *)
Fixpoint readRounds (ord : range_order) (check : Z -> Z -> option error)
    (n : nat) (w : World) (input : list Z) : World * option (list Z) :=
  match n with
  | O => (w, Some input)
  | S n' =>
      match readLoop_body ord check w input with
      | (w', None) => (w', None)
      | (w', Some rest) => readRounds ord check n' w' rest
      end
  end.

(** The status check run over the statuses of consecutive frames of one
    channel: the last status, or [None] when one of them is refused. *)
Fixpoint check_all (check : Z -> Z -> option error) (prev : Z) (statuses : list Z)
  : option Z :=
  match statuses with
  | [] => Some prev
  | s :: rest =>
      match check prev s with
      | Some _ => None
      | None => check_all check s rest
      end
  end.

(** ** Channels of the table are open *)

(** Every channel of the channel table has no terminal error and an open stop
    signal. *)
Definition table_open (w : World) : Prop :=
  forall k p ch, Channels (conn w) !! k = Some p -> heap w !! p = Some ch ->
                 chan_err ch = None /\ chan_closeNotify ch = true.

(** An update of one channel object that keeps its error and stop signal. *)
Definition keeps_open (g : Channel -> Channel) : Prop :=
  forall c, chan_err (g c) = chan_err c /\ chan_closeNotify (g c) = chan_closeNotify c.

(** ** Runs with the writer *)

(** The states of a connection when, besides the steps of [step], rounds of
    its writer are taken too. *)
Inductive running : World -> Prop :=
| run_new ord role writeQueueLen w :
    fair ord -> NewConnection ord role writeQueueLen = inl w -> running w
| run_step w o :
    running w -> op_fair o -> running (step w o)
| run_write Write ord w :
    running w -> fair ord -> running (fst (fst (writeLoop_body Write ord w))).

(** ** What the writer counts *)

(** The bytes of the frames of [pkts] that [WritePacket] adds to [WriteBytes]
    of the channel at [p]: those of the packets that point to it. *)
Fixpoint written_on (p : ptr) (pkts : list Packet) : Z :=
  match pkts with
  | [] => 0
  | pkt :: rest =>
      (if decide (channel pkt = Some p) then len (wire pkt) else 0) + written_on p rest
  end.

(** The channel object at [p] after the frames of [pkts] have been written. *)
Definition after_written (p : ptr) (pkts : list Packet) (c : Channel) : Channel :=
  if decide (Exists (fun pkt => channel pkt = Some p) pkts)
  then count_written (written_on p pkts) c
  else c.

(** A packet within the two limits of [CreateNetPacket]. *)
Definition encodable (pkt : Packet) : Prop :=
  len (Path pkt) <= MaxPathLen /\ len (Data pkt) <= MaxPacketSize.

(** ** Bursts of frames *)

(** The channel object after the reader has delivered the frames of [pkts],
    one after the other, to the channel at [q]. *)
Definition deliver_all (q : ptr) (pkts : list Packet) (c : Channel) : Channel :=
  foldl (fun c pkt =>
           note_received (Status pkt)
             (len (Data pkt) + 1 + len (Path pkt) + 1 + 4 + 4) (received q pkt) c)
        c pkts.

(** [n] rounds of [handleClientLoop] on the channel at [m]. *)
Fixpoint handleClientRounds (hasResponseChan : ptr -> bool) (n : nat) (w : World)
    (m : ptr) : World :=
  match n with
  | O => w
  | S n' => handleClientRounds hasResponseChan n'
              (handleClientLoop_body hasResponseChan w m) m
  end.

(** [n] rounds of [handleServerLoop] on the channel at [m]. *)
Fixpoint handleServerRounds
    (Handle : ptr -> Packet -> bool -> option (list Z) * option error)
    (ErrorResponseData : error -> list Z) (n : nat) (w : World) (m : ptr) : World :=
  match n with
  | O => w
  | S n' => handleServerRounds Handle ErrorResponseData n'
              (handleServerLoop_body Handle ErrorResponseData w m) m
  end.

(** The frames of one message: frames that do not complete it, then one that
    does; none of them a close frame. *)
Definition one_message (completed : Z -> bool) (init : list Packet) (last : Packet) : Prop :=
  Forall (fun f => Status f <> Status8 /\ completed (Status f) = false) init
  /\ Status last <> Status8 /\ completed (Status last) = true.

(** The whole message a dispatcher holds after the frames [fs], starting from
    the pending message [acc]. *)
Definition merged (acc : option Packet) (fs : list Packet) : option Packet :=
  foldl (fun a f => Some (merge a f)) acc fs.

(** ** The server's answer to a frame *)

(** The payload of the response that a round of [handleServerLoop] sends,
    from the two results of the handler: the structured error for a handler
    error other than [ErrPacketContinue], the structured error for a missing
    response, and the handler's response otherwise. *)
Definition response_payload (ErrorResponseData : error -> list Z)
    (ret : option (list Z)) (err : option error) : list Z :=
  if needs_error_response err then ErrorResponseData ErrHandleError
  else match ret with
       | None => ErrorResponseData ErrHandleNoResponse
       | Some r => r
       end.

(** ** Further example states and packets *)

(** A payload of one byte more than [MaxPacketSize], and a response for the
    system channel that carries it. *)
Definition big_data : list Z := replicate (Z.to_nat (MaxPacketSize + 1)) 7.

Definition big_packet : Packet :=
  mkPacket PacketTypeResponse 0 [47; 97] 0 big_data None.

(** A request without a payload. *)
Definition empty_packet : Packet :=
  mkPacket PacketTypeRequest StatusC1 [47; 97] 0 [] None.


(** A client connection with the tiny echo on its outbound queue. *)
Definition queued_world : World :=
  fst (SendPacket (new_world RoleClient) 0%nat echo_packet).

(** A request in two frames for the system channel. *)
Definition request_frames : list Packet :=
  [ mkPacket PacketTypeRequest StatusC0 [47; 97] 0 [1] None;
    mkPacket PacketTypeRequest StatusC3 [47; 97] 0 [2] None ].

(** A response in two frames, as a reader hands them to the system channel. *)
Definition response_first : Packet :=
  mkPacket PacketTypeResponse StatusS4 [47; 97] 0 [1] (Some 0%nat).

Definition response_last : Packet :=
  mkPacket PacketTypeResponse StatusS7 [47; 97] 0 [2] (Some 0%nat).

(** A client connection whose system channel holds these two frames. *)
Definition answered_world : World :=
  with_chan 0%nat (set_receivedQueue [response_first; response_last])
    (new_world RoleClient).

(** A server connection after its reader has taken the frame of the tiny
    echo, and its system channel then. *)
Definition requested_world : World :=
  fst (serverReadLoop_body in_order (new_world RoleServer) (wire echo_packet)).

Definition requested_channel : Channel :=
  note_received StatusC1 17 (received 0%nat echo_packet) (fresh_Channel 0).

(** A response endpoint on every channel. *)
Definition every_channel : ptr -> bool := fun _ => true.

(** The first of [two_frames] as the server's reader delivers it, and the
    bytes of the second. *)
Definition first_request : Packet :=
  mkPacket PacketTypeResponse StatusC0 [47; 97] 0 [1] (Some 0%nat).

Definition second_frame : list Z := [3; 47; 97; 0; 0; 0; 0; 0; 0; 0; 0; 1; 2].

(** ** The outbound queue holds frames the encoder takes *)

(** No packet on the outbound queue has more data than [MaxPacketSize]. *)
Definition queue_bounded (w : World) : Prop :=
  Forall (fun f => len (Data f) <= MaxPacketSize) (tcpWriteQueue (conn w)).

(** An update of the connection that keeps the outbound queue. *)
Definition keeps_queue (f : Connection -> Connection) : Prop :=
  forall c, tcpWriteQueue (f c) = tcpWriteQueue c.

(** * Properties *)

(** ** Status transition checks *)

Ltac split_eqb :=
  repeat match goal with
         | |- context [Z.eqb ?a ?b] => destruct (Z.eqb_spec a b); simpl
         end.

Lemma CheckClientPacketStatus_accepts prev current :
  CheckClientPacketStatus prev current = None <->
    ((current = StatusC0 \/ current = StatusC1)
       /\ (prev = 255 \/ prev = StatusC1 \/ prev = StatusC3))
    \/ ((current = StatusC2 \/ current = StatusC3)
       /\ (prev = StatusC0 \/ prev = StatusC2))
    \/ current = Status8.
Proof.
  unfold CheckClientPacketStatus, isClientStatusCompleted, isClientStatusUncompleted,
    StatusC0, StatusC1, StatusC2, StatusC3, Status8.
  split_eqb; split; intros H; try discriminate; try reflexivity; lia.
Qed.

Lemma CheckServerPacketStatus_accepts prev current :
  CheckServerPacketStatus prev current = None <->
    ((current = StatusS4 \/ current = StatusS5)
       /\ (prev = 255 \/ prev = StatusS5 \/ prev = StatusS7))
    \/ ((current = StatusS6 \/ current = StatusS7)
       /\ (prev = StatusS4 \/ prev = StatusS6))
    \/ current = Status8.
Proof.
  unfold CheckServerPacketStatus, isServerStatusCompleted, isServerStatusUncompleted,
    StatusS4, StatusS5, StatusS6, StatusS7, Status8.
  split_eqb; split; intros H; try discriminate; try reflexivity; lia.
Qed.

(** A current status outside the checked alphabet and different from [X8] is
    reported as an invalid status value, whatever the previous status. *)
Lemma CheckClientPacketStatus_other prev current :
  isClientStatus current = false -> current <> Status8 ->
  CheckClientPacketStatus prev current = Some (ErrInvalidStatusValue current).
Proof.
  unfold CheckClientPacketStatus, isClientStatus, StatusC0, StatusC1, StatusC2,
    StatusC3, Status8.
  split_eqb; intros; try discriminate; try reflexivity; lia.
Qed.

Lemma CheckServerPacketStatus_other prev current :
  isServerStatus current = false -> current <> Status8 ->
  CheckServerPacketStatus prev current = Some (ErrInvalidStatusValue current).
Proof.
  unfold CheckServerPacketStatus, isServerStatus, StatusS4, StatusS5, StatusS6,
    StatusS7, Status8.
  split_eqb; intros; try discriminate; try reflexivity; lia.
Qed.

(** C3: [CheckClientPacketStatus] returns no error exactly when the current
    status is [C0] or [C1] and the previous one is the sentinel 255 or a
    completed client status ([C1], [C3]), or the current status is [C2] or
    [C3] and the previous one is an uncompleted client status ([C0], [C2]), or
    the current status is [X8]; in every other case it returns an error.
    [CheckServerPacketStatus] does the same over [S4]..[S7]. *)
Theorem CheckPacketStatus_transitions :
  forall prev current : Z,
    (CheckClientPacketStatus prev current = None <->
       ((current = StatusC0 \/ current = StatusC1)
          /\ (prev = 255 \/ isClientStatusCompleted prev = true))
       \/ ((current = StatusC2 \/ current = StatusC3)
          /\ isClientStatusUncompleted prev = true)
       \/ current = Status8)
    /\ (CheckServerPacketStatus prev current = None <->
       ((current = StatusS4 \/ current = StatusS5)
          /\ (prev = 255 \/ isServerStatusCompleted prev = true))
       \/ ((current = StatusS6 \/ current = StatusS7)
          /\ isServerStatusUncompleted prev = true)
       \/ current = Status8)
    /\ (isClientStatusCompleted prev = true <-> prev = StatusC1 \/ prev = StatusC3)
    /\ (isClientStatusUncompleted prev = true <-> prev = StatusC0 \/ prev = StatusC2)
    /\ (isServerStatusCompleted prev = true <-> prev = StatusS5 \/ prev = StatusS7)
    /\ (isServerStatusUncompleted prev = true <-> prev = StatusS4 \/ prev = StatusS6).
Proof.
  intros prev current.
  assert (Hcc : isClientStatusCompleted prev = true <-> prev = StatusC1 \/ prev = StatusC3).
  { unfold isClientStatusCompleted, StatusC1, StatusC3. split_eqb; intuition (try discriminate; lia). }
  assert (Hcu : isClientStatusUncompleted prev = true <-> prev = StatusC0 \/ prev = StatusC2).
  { unfold isClientStatusUncompleted, StatusC0, StatusC2. split_eqb; intuition (try discriminate; lia). }
  assert (Hsc : isServerStatusCompleted prev = true <-> prev = StatusS5 \/ prev = StatusS7).
  { unfold isServerStatusCompleted, StatusS5, StatusS7. split_eqb; intuition (try discriminate; lia). }
  assert (Hsu : isServerStatusUncompleted prev = true <-> prev = StatusS4 \/ prev = StatusS6).
  { unfold isServerStatusUncompleted, StatusS4, StatusS6. split_eqb; intuition (try discriminate; lia). }
  repeat split; try tauto.
  - rewrite CheckClientPacketStatus_accepts, Hcc, Hcu. tauto.
  - rewrite CheckClientPacketStatus_accepts, Hcc, Hcu. tauto.
  - rewrite CheckServerPacketStatus_accepts, Hsc, Hsu. tauto.
  - rewrite CheckServerPacketStatus_accepts, Hsc, Hsu. tauto.
Qed.

(** ** Machine values and slices *)

Lemma testbit_255 m : 0 <= m -> Z.testbit 255 m = (m <? 8).
Proof.
  intros Hm. change 255 with (Z.ones 8).
  destruct (Z.ltb_spec m 8).
  - apply Z.ones_spec_low. lia.
  - apply Z.ones_spec_high. lia.
Qed.

Lemma testbit_uint32_high v n : is_uint32 v -> 32 <= n -> Z.testbit v n = false.
Proof.
  intros [Hlo Hhi] Hn.
  destruct (Z.eq_dec v 0) as [->|Hnz]; [apply Z.bits_0|].
  apply Z.bits_above_log2; [lia|].
  assert (Z.log2 v < 32); [|lia].
  apply Z.log2_lt_pow2; [lia|]. change (2 ^ 32) with 4294967296. lia.
Qed.

Lemma testbit_be_byte v k n :
  0 <= k -> 0 <= n ->
  Z.testbit (Z.shiftl (to_byte (Z.shiftr v k)) k) n
  = Z.testbit v n && (k <=? n) && (n <? k + 8).
Proof.
  intros Hk Hn. unfold to_byte.
  destruct (Z.leb_spec k n) as [Hkn|Hkn].
  - rewrite Z.shiftl_spec, Z.land_spec, Z.shiftr_spec, testbit_255 by lia.
    replace (n - k + k) with n by lia.
    destruct (Z.ltb_spec (n - k) 8), (Z.ltb_spec n (k + 8)); try lia;
      now rewrite ?andb_true_r, ?andb_false_r.
  - rewrite Z.shiftl_spec_low by lia. now rewrite andb_false_r.
Qed.

Lemma Uint32_PutUint32 v : is_uint32 v -> Uint32 (PutUint32 v) = v.
Proof.
  intros Hv. unfold Uint32, PutUint32.
  apply Z.bits_inj'. intros n Hn.
  rewrite !Z.lor_spec.
  rewrite (testbit_be_byte v 8), (testbit_be_byte v 16), (testbit_be_byte v 24) by lia.
  unfold to_byte. rewrite Z.land_spec, testbit_255 by lia.
  destruct (Z.ltb_spec n 32) as [Hlt|Hge].
  - destruct (Z.testbit v n); simpl; [|reflexivity].
    destruct (Z.ltb_spec n 8), (Z.leb_spec 8 n), (Z.ltb_spec n (8 + 8)),
      (Z.leb_spec 16 n), (Z.ltb_spec n (16 + 8)), (Z.leb_spec 24 n),
      (Z.ltb_spec n (24 + 8)); simpl; try reflexivity; lia.
  - rewrite (testbit_uint32_high v n) by (assumption || lia). reflexivity.
Qed.

Lemma length_PutUint32 v : length (PutUint32 v) = 4%nat.
Proof. reflexivity. Qed.

Lemma to_uint32_small x : is_uint32 x -> to_uint32 x = x.
Proof. intros [? ?]. unfold to_uint32. apply Z.mod_small. lia. Qed.

Lemma len_app {A} (l k : list A) : len (l ++ k) = len l + len k.
Proof. unfold len. rewrite length_app. lia. Qed.

Lemma len_nonneg {A} (l : list A) : 0 <= len l.
Proof. unfold len. lia. Qed.

Lemma slice_prefix {A} (l k : list A) : slice (l ++ k) 0 (len l) = l.
Proof.
  unfold slice. replace (Z.to_nat (len l - 0)) with (length l) by (unfold len; lia).
  change (Z.to_nat 0) with 0%nat. rewrite drop_0. apply take_app_length.
Qed.

(** ** The read primitives *)

Lemma ReadFull_app n l rest :
  len l = n -> ReadFull n (l ++ rest) = inl (l, rest).
Proof.
  intros <-. unfold ReadFull.
  assert (H : (len l <=? len (l ++ rest)) = true).
  { apply Z.leb_le. rewrite len_app. pose proof (len_nonneg rest). lia. }
  rewrite H. unfold len. rewrite Nat2Z.id.
  now rewrite take_app_length, drop_app_length.
Qed.

Lemma ReadFull_inl n input l rest :
  0 <= n -> ReadFull n input = inl (l, rest) -> input = l ++ rest /\ len l = n.
Proof.
  intros Hn. unfold ReadFull.
  destruct (Z.leb_spec n (len input)) as [Hle|Hlt]; [|discriminate].
  intros [= <- <-]. split.
  - now rewrite take_drop.
  - unfold len in *. rewrite length_take. lia.
Qed.

Lemma ReadFull_inr n input e :
  ReadFull n input = inr e -> len input < n.
Proof.
  unfold ReadFull. destruct (Z.leb_spec n (len input)); [discriminate|]. intros _. lia.
Qed.

Lemma ReadFull_short n input :
  len input < n -> exists e, ReadFull n input = inr e.
Proof.
  intros H. unfold ReadFull. destruct (Z.leb_spec n (len input)); [lia|]. eauto.
Qed.

(** [ReadSlice_room] succeeds exactly on an input whose first [delim] lies
    among the first [room] bytes, and then splits the input after it. *)
Lemma ReadSlice_room_app delim path rest room :
  delim ∉ path -> len path < room ->
  ReadSlice_room delim (path ++ delim :: rest) room = inl (path ++ [delim], rest).
Proof.
  revert room. induction path as [|b path IH]; intros room Hnin Hroom; simpl.
  - unfold len in Hroom; simpl in Hroom.
    destruct (Z.leb_spec room 0); [lia|]. now rewrite Z.eqb_refl.
  - apply not_elem_of_cons in Hnin as [Hne Hnin].
    unfold len in Hroom; simpl in Hroom.
    destruct (Z.leb_spec room 0); [lia|].
    destruct (Z.eqb_spec b delim); [congruence|].
    rewrite IH; [reflexivity|assumption|unfold len; lia].
Qed.

Lemma ReadSlice_room_inl delim input room line rest :
  ReadSlice_room delim input room = inl (line, rest) ->
  exists path, line = path ++ [delim] /\ input = path ++ delim :: rest
               /\ (delim ∉ path) /\ len path < room.
Proof.
  revert room line. induction input as [|b input IH]; intros room line; simpl.
  - discriminate.
  - destruct (Z.leb_spec room 0); [discriminate|].
    destruct (Z.eqb_spec b delim) as [->|Hne].
    + intros [= <- <-]. exists []. repeat split; [apply not_elem_of_nil|].
      unfold len; simpl; lia.
    + destruct (ReadSlice_room delim input (room - 1)) as [[line' rest']|e] eqn:E;
        [|discriminate].
      intros [= <- <-]. destruct (IH _ _ E) as (path & -> & -> & Hnin & Hlen).
      exists (b :: path). repeat split.
      * apply not_elem_of_cons. split; [congruence|assumption].
      * unfold len in *; simpl; lia.
Qed.

Lemma ReadSlice_room_inr delim input room e :
  0 <= room ->
  ReadSlice_room delim input room = inr e ->
  (delim ∉ take (Z.to_nat room) input)
  /\ (e = ErrBufferFull /\ room <= len input \/ e = ErrEOF /\ len input < room).
Proof.
  revert room. induction input as [|b input IH]; intros room Hroom; simpl.
  - intros [= <-]. rewrite take_nil. split; [apply not_elem_of_nil|].
    unfold len; simpl. destruct (Z.leb_spec room 0); [left|right]; split; auto; lia.
  - destruct (Z.leb_spec room 0).
    + intros [= <-]. replace room with 0 by lia. simpl.
      split; [apply not_elem_of_nil|]. left. split; [reflexivity|]. unfold len; simpl; lia.
    + destruct (Z.eqb_spec b delim); [discriminate|].
      destruct (ReadSlice_room delim input (room - 1)) as [[line' rest']|e'] eqn:E;
        [discriminate|].
      intros [= <-]. destruct (IH (room - 1) ltac:(lia) E) as [Hnin Hcase].
      replace (Z.to_nat room) with (S (Z.to_nat (room - 1))) by lia. simpl.
      split.
      * apply not_elem_of_cons. split; [congruence|assumption].
      * unfold len in *. simpl length. destruct Hcase as [[-> ?]|[-> ?]]; [left|right];
          split; auto; lia.
Qed.

(** Splitting at the first [delim] is unique. *)
Lemma first_delim_unique (delim : Z) p1 r1 p2 r2 :
  delim ∉ p1 -> delim ∉ p2 ->
  p1 ++ delim :: r1 = p2 ++ delim :: r2 -> p1 = p2 /\ r1 = r2.
Proof.
  revert p2. induction p1 as [|a p1 IH]; intros [|b p2] H1 H2 E; simpl in E.
  - now injection E.
  - injection E as -> _. exfalso. apply H2. left.
  - injection E as -> _. exfalso. apply H1. left.
  - injection E as -> E. apply not_elem_of_cons in H1 as [_ H1].
    apply not_elem_of_cons in H2 as [_ H2].
    destruct (IH _ H1 H2 E) as [-> ->]. auto.
Qed.

(** ** The frame parser *)

Lemma strip_terminator (path : list Z) :
  slice (path ++ [0]) 0 (len (path ++ [0]) - 1) = path.
Proof.
  rewrite len_app. replace (len path + len [0] - 1) with (len path) by (unfold len; simpl; lia).
  apply slice_prefix.
Qed.

Lemma Uint32_nonneg b : Forall is_byte b -> 0 <= Uint32 b.
Proof.
  intros H. unfold Uint32.
  destruct b as [|b0 [|b1 [|b2 [|b3 [|? ?]]]]]; try lia.
  repeat match goal with
         | H : Forall _ (_ :: _) |- _ => apply Forall_cons in H as [? H]
         end.
  unfold is_byte in *.
  repeat (apply Z.lor_nonneg; split); try apply Z.shiftl_nonneg; lia.
Qed.

(** The inputs on which a round of the reader delivers a packet. *)
Lemma readFrame_accepts check w status path idb lb data rest p ch :
  status <> Status8 -> 0 ∉ path -> len path < PacketReadBufSize ->
  len idb = 4 -> len lb = 4 ->
  getChannel w (Uint32 idb) = Some p -> heap w !! p = Some ch ->
  check (packetStatus ch) status = None ->
  0 < Uint32 lb <= MaxPacketSize -> len data = Uint32 lb ->
  readFrame check w (status :: path ++ 0 :: idb ++ lb ++ data ++ rest)
  = Deliver p (mkPacket PacketTypeResponse status path (Uint32 idb) data (Some p)) rest.
Proof.
  intros Hs Hnin Hlen Hidb Hlb Hget Hheap Hcheck [Hpos Hmax] Hdata.
  unfold readFrame. simpl ReadByte. cbv beta iota.
  destruct (Z.eqb_spec status Status8); [contradiction|].
  unfold ReadSlice. rewrite (ReadSlice_room_app 0 path) by assumption.
  rewrite strip_terminator.
  rewrite (ReadFull_app 4 idb) by assumption.
  rewrite Hget, Hheap, Hcheck.
  rewrite (ReadFull_app 4 lb) by assumption.
  destruct (Z.gtb_spec (Uint32 lb) MaxPacketSize); [lia|].
  destruct (Z.eqb_spec (Uint32 lb) 0); [lia|].
  rewrite (ReadFull_app (Uint32 lb) data) by assumption.
  reflexivity.
Qed.

Lemma readFrame_Deliver_inv check w input p pkt rest :
  Forall is_byte input ->
  readFrame check w input = Deliver p pkt rest ->
  exists status path idb lb data ch,
    input = status :: path ++ 0 :: idb ++ lb ++ data ++ rest
    /\ status <> Status8 /\ (0 ∉ path) /\ len path < PacketReadBufSize
    /\ len idb = 4 /\ len lb = 4
    /\ getChannel w (Uint32 idb) = Some p /\ heap w !! p = Some ch
    /\ check (packetStatus ch) status = None
    /\ 0 < Uint32 lb <= MaxPacketSize /\ len data = Uint32 lb
    /\ pkt = mkPacket PacketTypeResponse status path (Uint32 idb) data (Some p).
Proof.
  intros Hbytes.
  unfold readFrame. destruct input as [|status in1]; simpl ReadByte; [discriminate|].
  cbv beta iota.
  destruct (Z.eqb_spec status Status8); [discriminate|].
  unfold ReadSlice.
  destruct (ReadSlice_room 0 in1 PacketReadBufSize) as [[line in2]|e] eqn:Eslice;
    [|discriminate].
  apply ReadSlice_room_inl in Eslice as (path & -> & -> & Hnin & Hlen).
  rewrite strip_terminator.
  destruct (ReadFull 4 in2) as [[idb in3]|e] eqn:Eid; [|discriminate].
  apply ReadFull_inl in Eid as [-> Hidb]; [|lia].
  destruct (getChannel w (Uint32 idb)) as [q|] eqn:Hget; [|discriminate].
  destruct (heap w !! q) as [ch|] eqn:Hheap; [|discriminate].
  destruct (check (packetStatus ch) status) eqn:Hcheck; [discriminate|].
  destruct (ReadFull 4 in3) as [[lb in4]|e] eqn:Elen; [|discriminate].
  apply ReadFull_inl in Elen as [-> Hlb]; [|lia].
  destruct (Z.gtb_spec (Uint32 lb) MaxPacketSize); [discriminate|].
  destruct (Z.eqb_spec (Uint32 lb) 0); [discriminate|].
  assert (Hnn : 0 <= Uint32 lb).
  { apply Uint32_nonneg.
    apply Forall_cons in Hbytes as [_ Hbytes].
    apply Forall_app in Hbytes as [_ Hbytes].
    apply Forall_cons in Hbytes as [_ Hbytes].
    apply Forall_app in Hbytes as [_ Hbytes].
    now apply Forall_app in Hbytes as [Hbytes _]. }
  destruct (ReadFull (Uint32 lb) in4) as [[data in5]|e] eqn:Edata; [|discriminate].
  apply ReadFull_inl in Edata as [-> Hdata]; [|assumption].
  intros [= <- <- <-].
  exists status, path, idb, lb, data, ch. repeat split; try assumption; lia.
Qed.

(** ** Encoding, then decoding *)

Lemma CreateNetPacket_ok pkt :
  len (Path pkt) <= MaxPathLen -> len (Data pkt) <= MaxPacketSize ->
  CreateNetPacket pkt
  = inl (Status pkt :: Path pkt ++ 0 :: PutUint32 (ChannelId pkt)
           ++ PutUint32 (to_uint32 (len (Data pkt))) ++ Data pkt).
Proof.
  intros Hp Hd. unfold CreateNetPacket.
  destruct (Z.gtb_spec (len (Path pkt)) MaxPathLen); [lia|].
  destruct (Z.gtb_spec (len (Data pkt)) MaxPacketSize); [lia|].
  reflexivity.
Qed.

Lemma data_len_is_uint32 (data : list Z) :
  len data <= MaxPacketSize -> is_uint32 (len data).
Proof. pose proof (len_nonneg data). unfold MaxPacketSize, is_uint32. lia. Qed.

Lemma frame_app (s : Z) path a b d rest :
  (s :: path ++ 0 :: a ++ b ++ d) ++ rest = s :: path ++ 0 :: a ++ b ++ d ++ rest.
Proof. simpl. rewrite <- !app_assoc. simpl. now rewrite <- !app_assoc. Qed.

(** C2: a well-formed packet with a path of at most 512 bytes and a payload of
    at most 16 MiB, addressed to a channel of the connection with a status
    that may follow the channel's last one, is encoded by [CreateNetPacket]
    into bytes from which a round of either reader rebuilds a packet with the
    same status, path, channel id and data, leaving what follows the frame. *)
Theorem CreateNetPacket_readFrame_roundtrip :
  forall (check : Z -> Z -> option error) (w : World) (p : ptr) (pkt : Packet)
         (rest : list Z),
    len (Path pkt) <= MaxPathLen -> len (Data pkt) <= MaxPacketSize ->
    wellformed pkt -> expected check w p pkt ->
    exists bytes pkt',
      CreateNetPacket pkt = inl bytes
      /\ readFrame check w (bytes ++ rest) = Deliver p pkt' rest
      /\ Status pkt' = Status pkt /\ Path pkt' = Path pkt
      /\ ChannelId pkt' = ChannelId pkt /\ Data pkt' = Data pkt.
Proof.
  intros check w p pkt rest Hpath Hdata (Hnul & Hne & Hid & Hs8) (Hget & ch & Hheap & Hchk).
  pose proof (data_len_is_uint32 _ Hdata) as Hl32.
  eexists.
  exists (mkPacket PacketTypeResponse (Status pkt) (Path pkt)
            (Uint32 (PutUint32 (ChannelId pkt))) (Data pkt) (Some p)).
  split; [apply CreateNetPacket_ok; assumption|].
  split.
  - rewrite frame_app.
    apply (readFrame_accepts check w (Status pkt) (Path pkt)
             (PutUint32 (ChannelId pkt)) (PutUint32 (to_uint32 (len (Data pkt))))
             (Data pkt) rest p ch); try assumption; try reflexivity.
    + unfold MaxPathLen, PacketReadBufSize in *. lia.
    + now rewrite Uint32_PutUint32.
    + rewrite to_uint32_small, Uint32_PutUint32 by assumption. lia.
    + now rewrite to_uint32_small, Uint32_PutUint32.
  - cbn [Status Path ChannelId Data]. rewrite Uint32_PutUint32 by assumption. auto.
Qed.

(** ** Paths with an interior zero byte *)

Lemma readFrame_path check w status pre tail p pkt rest :
  0 ∉ pre -> len pre < PacketReadBufSize ->
  readFrame check w (status :: pre ++ 0 :: tail) = Deliver p pkt rest ->
  Path pkt = pre.
Proof.
  intros Hnin Hlen. unfold readFrame. simpl ReadByte. cbv beta iota.
  destruct (status =? Status8); [discriminate|].
  unfold ReadSlice. rewrite (ReadSlice_room_app 0 pre) by assumption.
  rewrite strip_terminator.
  repeat match goal with
         | |- context [match ?x with _ => _ end] => destruct x; try discriminate
         end.
  now intros [= <- <- <-].
Qed.

(** C10: [CreateNetPacket] succeeds on every packet whose path has at most 512
    bytes and whose payload has at most 16 MiB, and writes the path bytes as
    they are, whatever they are.  When the path holds a zero byte, the
    reader's [ReadSlice] stops at the first one: the path it decodes is the
    part of the original path before that byte, a strict prefix, and a packet
    the reader builds from these bytes carries that prefix as its path. *)
Theorem CreateNetPacket_interior_nul :
  forall pkt : Packet,
    len (Path pkt) <= MaxPathLen -> len (Data pkt) <= MaxPacketSize ->
    exists bytes,
      CreateNetPacket pkt = inl bytes
      /\ bytes = Status pkt :: Path pkt ++ 0 :: PutUint32 (ChannelId pkt)
                   ++ PutUint32 (to_uint32 (len (Data pkt))) ++ Data pkt
      /\ (0 ∈ Path pkt ->
          exists decoded suffix after,
            Path pkt = decoded ++ 0 :: suffix
            /\ (0 ∉ decoded) /\ len decoded < len (Path pkt)
            /\ ReadSlice 0 (tail bytes) = inl (decoded ++ [0], after)
            /\ slice (decoded ++ [0]) 0 (len (decoded ++ [0]) - 1) = decoded
            /\ forall check w more p pkt' rest,
                 readFrame check w (bytes ++ more) = Deliver p pkt' rest ->
                 Path pkt' = decoded).
Proof.
  intros pkt Hpath Hdata. eexists. split; [apply CreateNetPacket_ok; assumption|].
  split; [reflexivity|]. intros Hin.
  apply list_elem_of_split_l in Hin as (pre & suf & Hsplit & Hnin).
  assert (Hlt : len pre < len (Path pkt)).
  { rewrite Hsplit, len_app. unfold len. simpl length. lia. }
  assert (Hroom : len pre < PacketReadBufSize).
  { unfold MaxPathLen, PacketReadBufSize in *. lia. }
  exists pre, suf. eexists. split; [assumption|]. split; [assumption|].
  split; [assumption|]. split; [|split].
  - simpl tail. rewrite Hsplit. rewrite <- app_assoc. simpl.
    unfold ReadSlice. rewrite (ReadSlice_room_app 0 pre) by assumption. reflexivity.
  - apply strip_terminator.
  - intros check w more p pkt' rest. rewrite frame_app, Hsplit.
    rewrite <- app_assoc. simpl. apply readFrame_path; assumption.
Qed.

Lemma CreateNetPacket_readFrame_roundtrip_witness :
  exists bytes pkt',
    CreateNetPacket echo_packet = inl bytes
    /\ readFrame CheckClientPacketStatus (new_world RoleServer) (bytes ++ [1; 2; 3])
       = Deliver 0%nat pkt' [1; 2; 3]
    /\ Status pkt' = Status echo_packet /\ Path pkt' = Path echo_packet
    /\ ChannelId pkt' = ChannelId echo_packet /\ Data pkt' = Data echo_packet.
Proof.
  apply (CreateNetPacket_readFrame_roundtrip CheckClientPacketStatus
           (new_world RoleServer) 0%nat echo_packet [1; 2; 3]).
  - vm_compute. discriminate.
  - vm_compute. discriminate.
  - unfold wellformed. split; [|split; [|split]].
    + simpl. intros H. repeat (apply elem_of_cons in H as [H|H]; [discriminate|]).
      now apply not_elem_of_nil in H.
    + reflexivity.
    + unfold is_uint32. simpl. lia.
    + discriminate.
  - split; [reflexivity|]. exists (fresh_Channel 0). split; reflexivity.
Defined.

Lemma CreateNetPacket_interior_nul_witness :
  exists bytes,
    CreateNetPacket nul_packet = inl bytes
    /\ bytes = Status nul_packet :: Path nul_packet ++ 0 :: PutUint32 (ChannelId nul_packet)
                 ++ PutUint32 (to_uint32 (len (Data nul_packet))) ++ Data nul_packet
    /\ (0 ∈ Path nul_packet ->
        exists decoded suffix after,
          Path nul_packet = decoded ++ 0 :: suffix
          /\ (0 ∉ decoded) /\ len decoded < len (Path nul_packet)
          /\ ReadSlice 0 (tail bytes) = inl (decoded ++ [0], after)
          /\ slice (decoded ++ [0]) 0 (len (decoded ++ [0]) - 1) = decoded
          /\ forall check w more p pkt' rest,
               readFrame check w (bytes ++ more) = Deliver p pkt' rest ->
               Path pkt' = decoded).
Proof.
  apply (CreateNetPacket_interior_nul nul_packet).
  - vm_compute. discriminate.
  - vm_compute. discriminate.
Defined.

(** The path the reader takes from the encoding of [nul_packet]. *)
Example nul_packet_decoded_path :
  exists bytes after,
    CreateNetPacket nul_packet = inl bytes
    /\ ReadSlice 0 (tail bytes) = inl ([47; 97; 0], after)
    /\ Path nul_packet = [47; 97; 0; 98].
Proof. eexists. eexists. repeat split. Qed.

(** ** When the reader gives up *)

Lemma readFrame_cases check w input :
  (exists e, readFrame check w input = Abort e)
  \/ (exists p pkt rest, readFrame check w input = Deliver p pkt rest).
Proof. destruct (readFrame check w input); eauto. Qed.

Lemma len4 (l : list Z) : len l = 4 -> length l = 4%nat.
Proof. unfold len. lia. Qed.

Lemma split_header path idb tail path' idb' tail' :
  0 ∉ path -> 0 ∉ path' -> len idb = 4 -> len idb' = 4 ->
  path ++ 0 :: idb ++ tail = path' ++ 0 :: idb' ++ tail' ->
  path = path' /\ idb = idb' /\ tail = tail'.
Proof.
  intros H1 H2 L1 L2 E.
  apply first_delim_unique in E as [-> E]; try assumption.
  apply app_inj_1 in E as [-> ->]; [auto|].
  apply len4 in L1, L2. congruence.
Qed.

Lemma malformed_not_delivered check w status rest p pkt rest' :
  Forall is_byte (status :: rest) ->
  malformed check w status rest \/ path_overruns_buffer rest ->
  readFrame check w (status :: rest) <> Deliver p pkt rest'.
Proof.
  intros Hbytes Hmal Hdel.
  apply readFrame_Deliver_inv in Hdel
    as (s & path & idb & lb & data & ch & E & Hs8 & Hnin & Hroom & Lidb & Llb
        & Hget & Hheap & Hchk & [Hpos Hmax] & Ldata & _); [|assumption].
  injection E as <- ->.
  destruct Hmal as [Hmal|[Hlen Hnul]].
  - destruct Hmal as [Hinv
                     |path' idb' tail' p' ch' E H0 L Hget' Hheap' Hchk'
                     |path' idb' lb' tail' E H0 L L' Hover
                     |path' idb' lb' tail' E H0 L L' Hzero
                     |path' idb' tail' E H0 L Hget'
                     |Hcut
                     |path' tail' E H0 Hshort
                     |path' idb' lb' tail' E H0 L L' Hshort].
    + apply (Hinv _ Hchk).
    + apply split_header in E as (<- & <- & _); try assumption.
      rewrite Hget in Hget'. injection Hget' as <-.
      rewrite Hheap in Hheap'. injection Hheap' as <-. contradiction.
    + apply split_header in E as (<- & <- & E); try assumption.
      apply app_inj_1 in E as [<- _]; [lia|]. apply len4 in Llb, L'. congruence.
    + apply split_header in E as (<- & <- & E); try assumption.
      apply app_inj_1 in E as [<- _]; [lia|]. apply len4 in Llb, L'. congruence.
    + apply split_header in E as (<- & <- & _); try assumption. congruence.
    + apply Hcut. apply elem_of_app. right. left.
    + apply first_delim_unique in E as [<- <-]; try assumption.
      rewrite !len_app in Hshort. pose proof (len_nonneg data).
      pose proof (len_nonneg rest'). lia.
    + apply split_header in E as (<- & <- & E); try assumption.
      apply app_inj_1 in E as [<- <-]; [|apply len4 in Llb, L'; congruence].
      rewrite len_app in Hshort. pose proof (len_nonneg rest'). lia.
  - apply Hnul. rewrite take_app_ge by (unfold len in Hroom; lia).
    apply elem_of_app. right.
    assert (Hk : exists k, (Z.to_nat PacketReadBufSize - length path)%nat = S k).
    { exists (Z.to_nat PacketReadBufSize - length path - 1)%nat. unfold len in Hroom. lia. }
    destruct Hk as [k ->]. left.
Qed.

Lemma abort_is_malformed check w status rest e :
  table_in_heap w -> status <> Status8 ->
  readFrame check w (status :: rest) = Abort e ->
  malformed check w status rest \/ path_overruns_buffer rest.
Proof.
  intros Hwf Hs8. unfold readFrame. simpl ReadByte. cbv beta iota.
  destruct (Z.eqb_spec status Status8); [contradiction|].
  unfold ReadSlice.
  destruct (ReadSlice_room 0 rest PacketReadBufSize) as [[line in2]|e1] eqn:Eslice.
  2:{ intros _. apply ReadSlice_room_inr in Eslice as [Hnin [[_ Hlen]|[_ Hlen]]];
        [| |unfold PacketReadBufSize; lia].
      - right. split; assumption.
      - left. apply mal_cut_in_path.
        rewrite take_ge in Hnin; [assumption|]. unfold len in Hlen. lia. }
  apply ReadSlice_room_inl in Eslice as (path & -> & -> & Hnin & Hlen).
  rewrite strip_terminator.
  destruct (ReadFull 4 in2) as [[idb in3]|e1] eqn:Eid.
  2:{ intros _. left. apply ReadFull_inr in Eid.
      eapply mal_cut_in_header; [reflexivity|assumption|lia]. }
  apply ReadFull_inl in Eid as [-> Lidb]; [|lia].
  destruct (getChannel w (Uint32 idb)) as [q|] eqn:Hget.
  2:{ intros _. left. eapply mal_unknown_channel; eauto. }
  destruct (heap w !! q) as [ch|] eqn:Hheap.
  2:{ destruct (Hwf _ _ Hget) as [ch Hch]. congruence. }
  destruct (check (packetStatus ch) status) eqn:Hchk.
  { intros _. left. eapply mal_transition; eauto. congruence. }
  destruct (ReadFull 4 in3) as [[lb in4]|e1] eqn:Elen.
  2:{ intros _. left. apply ReadFull_inr in Elen.
      eapply mal_cut_in_header; [reflexivity|assumption|]. rewrite len_app. lia. }
  apply ReadFull_inl in Elen as [-> Llb]; [|lia].
  destruct (Z.gtb_spec (Uint32 lb) MaxPacketSize).
  { intros _. left. eapply mal_len_over; eauto. }
  destruct (Z.eqb_spec (Uint32 lb) 0).
  { intros _. left. eapply mal_len_zero; eauto. }
  destruct (ReadFull (Uint32 lb) in4) as [[data in5]|e1] eqn:Edata; [discriminate|].
  intros _. left. apply ReadFull_inr in Edata. eapply mal_cut_in_data; eauto.
Qed.

(** For a frame that is not a close frame, the parser aborts exactly on the
    listed violations and on a path that overruns the read buffer. *)
Lemma readFrame_Abort_iff check w status rest :
  table_in_heap w -> Forall is_byte (status :: rest) -> status <> Status8 ->
  (exists e, readFrame check w (status :: rest) = Abort e)
  <-> malformed check w status rest \/ path_overruns_buffer rest.
Proof.
  intros Hwf Hbytes Hs8. split.
  - intros [e He]. eapply abort_is_malformed; eauto.
  - intros Hmal.
    destruct (readFrame_cases check w (status :: rest)) as [?|(p & pkt & r & Hdel)];
      [assumption|].
    exfalso. eapply malformed_not_delivered; eauto.
Qed.

(** A delivered frame takes bytes off the input, so a read loop over a finite
    input leaves its [for] after at most one round per byte, and one more. *)
Lemma ReadFull_rest n input l rest :
  ReadFull n input = inl (l, rest) -> (length rest <= length input)%nat.
Proof.
  unfold ReadFull. destruct (n <=? len input); [|discriminate].
  intros [= <- <-]. rewrite length_drop. lia.
Qed.

Lemma readFrame_Deliver_shorter check w input p pkt rest :
  readFrame check w input = Deliver p pkt rest -> (length rest < length input)%nat.
Proof.
  unfold readFrame. destruct input as [|status in1]; simpl ReadByte; [discriminate|].
  cbv beta iota.
  destruct (status =? Status8); [discriminate|].
  unfold ReadSlice.
  destruct (ReadSlice_room 0 in1 PacketReadBufSize) as [[line in2]|e] eqn:Eslice;
    [|discriminate].
  apply ReadSlice_room_inl in Eslice as (path & -> & -> & _ & _).
  destruct (ReadFull 4 in2) as [[idb in3]|e] eqn:Eid; [|discriminate].
  apply ReadFull_rest in Eid.
  destruct (getChannel w (Uint32 idb)) as [q|]; [|discriminate].
  destruct (heap w !! q) as [ch|]; [|discriminate].
  destruct (check (packetStatus ch) status); [discriminate|].
  destruct (ReadFull 4 in3) as [[lb in4]|e] eqn:Elen; [|discriminate].
  apply ReadFull_rest in Elen.
  destruct (Uint32 lb >? MaxPacketSize); [discriminate|].
  destruct (Uint32 lb =? 0); [discriminate|].
  destruct (ReadFull (Uint32 lb) in4) as [[data in5]|e] eqn:Edata; [|discriminate].
  apply ReadFull_rest in Edata.
  intros [= <- <- <-]. simpl. rewrite length_app. simpl. lia.
Qed.

Lemma readLoop_ends ord check fuel : forall w input,
  (length input < fuel)%nat -> exists w', readLoop ord check fuel w input = Some w'.
Proof.
  induction fuel as [|fuel IH]; intros w input Hfuel; [lia|].
  simpl. unfold readLoop_body.
  destruct (conn_err (conn w)); [eauto|].
  destruct (readFrame check w input) as [p pkt rest|e] eqn:Hread; [|eauto].
  apply IH. apply readFrame_Deliver_shorter in Hread. lia.
Qed.

Lemma serverReadLoop_ends ord w input : exists w', serverReadLoop ord w input = Some w'.
Proof. apply readLoop_ends. lia. Qed.

Lemma clientReadLoop_ends ord w input : exists w', clientReadLoop ord w input = Some w'.
Proof. apply readLoop_ends. lia. Qed.

(** ** Fragmentation *)

Lemma chunk_status_last role n first :
  role = RoleClient \/ role = RoleServer ->
  chunk_status role n n first
  = inl (if first then by_role role StatusC1 StatusS5 else by_role role StatusC3 StatusS7).
Proof.
  unfold chunk_status, by_role. rewrite Z.eqb_refl.
  intros [-> | ->]; simpl; now destruct first.
Qed.

Lemma chunk_status_more role n remain first :
  role = RoleClient \/ role = RoleServer -> n < remain ->
  chunk_status role n remain first
  = inl (if first then by_role role StatusC0 StatusS4 else by_role role StatusC2 StatusS6).
Proof.
  unfold chunk_status, by_role. intros Hrole Hlt.
  destruct (Z.eqb_spec n remain); [lia|].
  destruct (Z.ltb_spec n remain); [|lia].
  destruct Hrole as [-> | ->]; simpl; now destruct first.
Qed.

Lemma slice_drop_take {A} (l : list A) (lo n : Z) :
  0 <= lo -> 0 <= n -> slice l lo (lo + n) = take (Z.to_nat n) (drop (Z.to_nat lo) l).
Proof. intros. unfold slice. now replace (lo + n - lo) with n by lia. Qed.

(** With a positive limit and enough iterations the loop ends by [break]; its
    chunks are within the limit, together they are the part of the data that
    remained to be sent, and their statuses follow the fragment pattern. *)
Lemma sendLoop_spec limit role m mId pkt :
  0 < limit -> role = RoleClient \/ role = RoleServer ->
  forall fuel remain first,
    0 < remain <= len (Data pkt) -> (Z.to_nat remain <= fuel)%nat ->
    exists chunks,
      sendLoop limit fuel role m mId pkt remain first = (chunks, LoopBreak)
      /\ concat (map Data chunks) = drop (Z.to_nat (len (Data pkt) - remain)) (Data pkt)
      /\ Forall (fun f => len (Data f) <= limit) chunks
      /\ (if first
          then (remain <= limit
                /\ exists f, chunks = [f] /\ Status f = by_role role StatusC1 StatusS5)
               \/ (limit < remain
                   /\ exists f rest, chunks = f :: rest
                        /\ Status f = by_role role StatusC0 StatusS4
                        /\ continuation role rest)
          else continuation role chunks).
Proof.
  intros Hlimit Hrole. induction fuel as [|fuel IH]; intros remain first Hrem Hfuel.
  { lia. }
  simpl sendLoop.
  destruct (Z.ltb_spec remain limit) as [Hsmall|Hbig].
  - (* the whole remainder fits: last chunk *)
    rewrite chunk_status_last by assumption.
    replace (remain - remain <=? 0) with true by (symmetry; apply Z.leb_le; lia).
    eexists. split; [reflexivity|].
    rewrite slice_drop_take by lia.
    assert (Hall : take (Z.to_nat remain)
                     (drop (Z.to_nat (len (Data pkt) - remain)) (Data pkt))
                   = drop (Z.to_nat (len (Data pkt) - remain)) (Data pkt)).
    { apply take_ge. rewrite length_drop. unfold len in *. lia. }
    split; [simpl; rewrite app_nil_r; exact Hall|].
    split.
    + constructor; [|constructor]. simpl. rewrite Hall.
      unfold len in *. rewrite length_drop. lia.
    + destruct first.
      * left. split; [lia|]. eexists. split; reflexivity.
      * eexists [], _. split; [reflexivity|]. split; [constructor|reflexivity].
  - destruct (Z.eq_dec remain limit) as [Heq|Hne].
    + (* exactly one full chunk is left: last chunk *)
      subst remain.
      rewrite chunk_status_last by assumption.
      replace (limit - limit <=? 0) with true by (symmetry; apply Z.leb_le; lia).
      eexists. split; [reflexivity|].
      rewrite slice_drop_take by lia.
      assert (Hall : take (Z.to_nat limit)
                       (drop (Z.to_nat (len (Data pkt) - limit)) (Data pkt))
                     = drop (Z.to_nat (len (Data pkt) - limit)) (Data pkt)).
      { apply take_ge. rewrite length_drop. unfold len in *. lia. }
      split; [simpl; rewrite app_nil_r; exact Hall|].
      split.
      * constructor; [|constructor]. simpl. rewrite Hall.
        unfold len in *. rewrite length_drop. lia.
      * destruct first.
        -- left. split; [lia|]. eexists. split; reflexivity.
        -- eexists [], _. split; [reflexivity|]. split; [constructor|reflexivity].
    + (* a full chunk, and more to come *)
      rewrite chunk_status_more by (assumption || lia).
      destruct (Z.leb_spec (remain - limit) 0) as [|Hpos]; [lia|].
      destruct (IH (remain - limit) false ltac:(lia) ltac:(lia))
        as (rest & Hloop & Hcat & Hlen & Hshape).
      rewrite Hloop. eexists. split; [reflexivity|].
      rewrite slice_drop_take by lia.
      split; [|split].
      * simpl. rewrite Hcat.
        replace (Z.to_nat (len (Data pkt) - (remain - limit)))
          with (Z.to_nat (len (Data pkt) - remain) + Z.to_nat limit)%nat by lia.
        rewrite <- drop_drop. apply take_drop.
      * constructor; [|assumption]. simpl. unfold len. rewrite length_take. lia.
      * destruct first.
        -- right. split; [lia|]. eexists. eexists. split; [reflexivity|].
           split; [reflexivity|assumption].
        -- destruct Hshape as (middle & last & -> & Hmid & Hlast).
           eexists (_ :: middle), last. split; [reflexivity|].
           split; [|assumption]. constructor; [reflexivity|assumption].
Qed.

(** The fragmenting loop does not run out of iterations. *)
Lemma sendLoop_ends limit role m mId pkt :
  0 < limit ->
  forall fuel remain first,
    0 < remain -> (Z.to_nat remain <= fuel)%nat ->
    snd (sendLoop limit fuel role m mId pkt remain first) <> LoopStarved.
Proof.
  intros Hlimit. induction fuel as [|fuel IH]; intros remain first Hrem Hfuel; [lia|].
  simpl sendLoop.
  destruct (chunk_status role _ remain first) as [st|e]; [|discriminate].
  destruct (Z.ltb_spec remain limit) as [Hsmall|Hbig].
  - replace (remain - remain <=? 0) with true by (symmetry; apply Z.leb_le; lia).
    discriminate.
  - destruct (Z.leb_spec (remain - limit) 0); [discriminate|].
    specialize (IH (remain - limit) false ltac:(lia) ltac:(lia)).
    destruct (sendLoop limit fuel role m mId pkt (remain - limit) false).
    exact IH.
Qed.

(** The loop run with a limit of four bytes on nine bytes of payload. *)
Example sendLoop_nine_by_four :
  map (fun f => (Status f, Data f))
      (fst (sendLoop 4 9 RoleClient 1%nat 7
              (mkPacket 0 0 [47] 7 [1; 2; 3; 4; 5; 6; 7; 8; 9] None) 9 true))
  = [(0, [1; 2; 3; 4]); (2, [5; 6; 7; 8]); (3, [9])].
Proof. reflexivity. Qed.

(** ** Channel.SendPacket *)

Lemma SendPacket_closed w m ch e pkt :
  heap w !! m = Some ch -> chan_err ch = Some e ->
  SendPacket w m pkt = (w, Some (ErrChannelInvalid e)).
Proof. intros H1 H2. unfold SendPacket, SendPacket_limit. now rewrite H1, H2. Qed.

Lemma SendPacket_single w m ch pkt :
  heap w !! m = Some ch -> chan_err ch = None ->
  len (Data pkt) <= MaxPacketSize ->
  SendPacket w m pkt
  = (with_chan m count_sent
       (with_conn
          (enqueue (if Role (conn w) =? RoleClient then set_Status 1 pkt
                    else if Role (conn w) =? RoleServer then set_Status 5 pkt
                    else pkt)) w),
     None).
Proof.
  intros H1 H2 Hlen. unfold SendPacket, SendPacket_limit. rewrite H1, H2.
  destruct (Z.leb_spec (len (Data pkt)) MaxPacketSize); [reflexivity|lia].
Qed.

Lemma SendPacket_fragments w m ch pkt :
  heap w !! m = Some ch -> chan_err ch = None ->
  Role (conn w) = RoleClient \/ Role (conn w) = RoleServer ->
  MaxPacketSize < len (Data pkt) ->
  exists first rest,
    SendPacket w m pkt
    = (with_chan m count_sent (with_conn (enqueue_all (first :: rest)) w), None)
    /\ concat (map Data (first :: rest)) = Data pkt
    /\ Forall (fun f => len (Data f) <= MaxPacketSize) (first :: rest)
    /\ Status first = by_role (Role (conn w)) StatusC0 StatusS4
    /\ continuation (Role (conn w)) rest.
Proof.
  intros H1 H2 Hrole Hlen. unfold SendPacket, SendPacket_limit. rewrite H1, H2.
  destruct (Z.leb_spec (len (Data pkt)) MaxPacketSize); [lia|].
  destruct (sendLoop_spec MaxPacketSize (Role (conn w)) m (Id ch) pkt
              ltac:(unfold MaxPacketSize; lia) Hrole
              (Z.to_nat (len (Data pkt))) (len (Data pkt)) true
              ltac:(unfold MaxPacketSize in *; lia) ltac:(lia))
    as (chunks & Hloop & Hcat & Hall & Hshape).
  rewrite Hloop.
  destruct Hshape as [[Hle _]|(_ & f & rest & -> & Hf & Hrest)]; [lia|].
  exists f, rest. split; [reflexivity|].
  rewrite Z.sub_diag in Hcat. simpl in Hcat. auto.
Qed.

(** C1: on a channel without a terminal error, of a client or server
    connection, [SendPacket] returns no error and appends to the outbound
    queue frames whose payloads, concatenated, are the data and none of which
    carries more than 16 MiB.  When the data has at most 16 MiB it is one
    frame, the packet itself with status [C1] (client) or [S5] (server);
    otherwise the first frame has status [C0] / [S4], the last one [C3] /
    [S7], and those in between [C2] / [S6]. *)
Theorem SendPacket_frames :
  forall (w : World) (m : ptr) (ch : Channel) (pkt : Packet),
    heap w !! m = Some ch -> chan_err ch = None ->
    Role (conn w) = RoleClient \/ Role (conn w) = RoleServer ->
    exists frames,
      snd (SendPacket w m pkt) = None
      /\ tcpWriteQueue (conn (fst (SendPacket w m pkt)))
         = tcpWriteQueue (conn w) ++ frames
      /\ concat (map Data frames) = Data pkt
      /\ Forall (fun f => len (Data f) <= MaxPacketSize) frames
      /\ (len (Data pkt) <= MaxPacketSize ->
          frames = [set_Status (by_role (Role (conn w)) StatusC1 StatusS5) pkt])
      /\ (MaxPacketSize < len (Data pkt) ->
          exists first middle last,
            frames = first :: middle ++ [last]
            /\ Status first = by_role (Role (conn w)) StatusC0 StatusS4
            /\ Forall (fun f => Status f = by_role (Role (conn w)) StatusC2 StatusS6) middle
            /\ Status last = by_role (Role (conn w)) StatusC3 StatusS7).
Proof.
  intros w m ch pkt Hm Herr Hrole.
  destruct (Z.le_gt_cases (len (Data pkt)) MaxPacketSize) as [Hsmall|Hbig].
  - rewrite (SendPacket_single w m ch pkt Hm Herr Hsmall).
    exists [set_Status (by_role (Role (conn w)) StatusC1 StatusS5) pkt].
    split; [reflexivity|]. split.
    { simpl. unfold by_role. destruct Hrole as [-> | ->]; reflexivity. }
    split; [simpl; apply app_nil_r|].
    split; [constructor; [assumption|constructor]|].
    split; [reflexivity|lia].
  - destruct (SendPacket_fragments w m ch pkt Hm Herr Hrole Hbig)
      as (first & rest & Hsend & Hcat & Hall & Hfirst & middle & last & -> & Hmid & Hlast).
    rewrite Hsend. exists (first :: middle ++ [last]).
    split; [reflexivity|]. split; [reflexivity|]. split; [assumption|].
    split; [assumption|]. split; [lia|].
    intros _. exists first, middle, last. auto.
Qed.

Lemma SendPacket_frames_witness :
  exists frames,
    snd (SendPacket (new_world RoleClient) 0%nat echo_packet) = None
    /\ tcpWriteQueue (conn (fst (SendPacket (new_world RoleClient) 0%nat echo_packet)))
       = tcpWriteQueue (conn (new_world RoleClient)) ++ frames
    /\ concat (map Data frames) = Data echo_packet
    /\ Forall (fun f => len (Data f) <= MaxPacketSize) frames
    /\ (len (Data echo_packet) <= MaxPacketSize ->
        frames = [set_Status (by_role (Role (conn (new_world RoleClient))) StatusC1 StatusS5)
                    echo_packet])
    /\ (MaxPacketSize < len (Data echo_packet) ->
        exists first middle last,
          frames = first :: middle ++ [last]
          /\ Status first = by_role (Role (conn (new_world RoleClient))) StatusC0 StatusS4
          /\ Forall (fun f => Status f
                              = by_role (Role (conn (new_world RoleClient))) StatusC2 StatusS6)
               middle
          /\ Status last = by_role (Role (conn (new_world RoleClient))) StatusC3 StatusS7).
Proof.
  apply (SendPacket_frames (new_world RoleClient) 0%nat (fresh_Channel 0) echo_packet).
  - reflexivity.
  - reflexivity.
  - left. reflexivity.
Defined.


(** ** Channel.Close *)

Lemma world_eq h1 c1 a1 r1 h2 c2 a2 r2 :
  h1 = h2 -> c1 = c2 -> a1 = a2 -> r1 = r2 ->
  mkWorld h1 c1 a1 r1 = mkWorld h2 c2 a2 r2.
Proof. congruence. Qed.

Lemma len_nil_le : len (@nil Z) <= MaxPacketSize.
Proof. unfold len, MaxPacketSize. simpl. lia. Qed.

(** The state after [Close] on a channel object whose latch is free. *)
Lemma ChannelClose_eq w m ch err :
  heap w !! m = Some ch -> chan_closeLock ch = 0 ->
  ChannelClose w m err
  = (mkWorld (<[ m := closed_Channel err ch ]> (heap w)) (closed_from m ch (conn w))
       (handled w) (responded w),
     match err with Some _ => Returned | None => Panicked end).
Proof.
  intros Hm Hlock. unfold ChannelClose. rewrite Hm, Hlock. simpl negb. cbv iota.
  destruct (chan_err ch) as [e0|] eqn:Herr.
  - rewrite (SendPacket_closed _ m (set_chan_closeLock 1 ch) e0).
    2:{ unfold with_chan. simpl. now rewrite lookup_alter_eq, Hm. }
    2:{ exact Herr. }
    simpl fst. unfold removeChannel, with_chan at 1. simpl heap.
    rewrite lookup_alter_eq, Hm. simpl.
    destruct err as [e|]; f_equal; unfold with_chan, with_conn; simpl;
      (apply world_eq; try reflexivity;
       [ rewrite !alter_alter_eq; rewrite (alter_alt_Some _ _ _ _ Hm);
         f_equal; unfold closed_Channel; simpl; now rewrite Herr
       | unfold closed_from, set_table; simpl; rewrite Herr; now rewrite app_nil_r ]).
  - rewrite (SendPacket_single _ m (set_chan_closeLock 1 ch)).
    2:{ unfold with_chan. simpl. now rewrite lookup_alter_eq, Hm. }
    2:{ exact Herr. }
    2:{ apply len_nil_le. }
    simpl fst. unfold removeChannel. unfold with_chan at 2. simpl heap.
    rewrite !lookup_alter_eq, Hm. simpl.
    destruct err as [e|]; f_equal; unfold with_chan, with_conn; simpl;
      (apply world_eq; try reflexivity;
       [ rewrite !alter_alter_eq; rewrite (alter_alt_Some _ _ _ _ Hm);
         f_equal; unfold closed_Channel; simpl; now rewrite Herr
       | unfold closed_from, set_table, enqueue, close_frame; simpl; rewrite Herr;
         reflexivity ]).
Qed.

Lemma ChannelClose_locked w m ch err :
  heap w !! m = Some ch -> chan_closeLock ch <> 0 -> ChannelClose w m err = (w, Returned).
Proof.
  intros Hm Hlock. unfold ChannelClose. rewrite Hm.
  destruct (Z.eqb_spec (chan_closeLock ch) 0); [contradiction|reflexivity].
Qed.

Lemma ChannelClose_dangling w m err :
  heap w !! m = None -> ChannelClose w m err = (w, Returned).
Proof. intros Hm. unfold ChannelClose. now rewrite Hm. Qed.

(** ** Consistency is kept *)

Lemma consistent_with_chan w m g :
  quiet g -> consistent w -> consistent (with_chan m g w).
Proof.
  intros Hg [Hlock Hrole Hmax Hheap Htable Hfree].
  constructor; simpl; try assumption.
  - intros p ch. rewrite lookup_alter. case_decide as Hp.
    + subst p. destruct (heap w !! m) as [c|] eqn:Hm; [|discriminate].
      intros [= <-]. destruct (Hheap _ _ Hm) as (H1 & H2 & H3).
      destruct (Hg c) as (G1 & G2 & G3). rewrite G1, G2. auto.
    + apply Hheap.
  - intros k p Hk. destruct (Htable _ _ Hk) as (ch & Hch & Hid).
    rewrite lookup_alter. case_decide as Hp.
    + subst p. rewrite Hch. simpl. eexists. split; [reflexivity|].
      destruct (Hg ch) as (_ & G2 & _). now rewrite G2.
    + eauto.
Qed.

Lemma consistent_with_conn w f :
  framed f -> consistent w -> consistent (with_conn f w).
Proof.
  intros Hf [Hlock Hrole Hmax Hheap Htable Hfree].
  destruct (Hf (conn w)) as (F1 & F2 & F3 & F4 & F5).
  constructor; simpl; rewrite ?F1, ?F2, ?F3, ?F4, ?F5; assumption.
Qed.

Lemma quiet_count_sent : quiet count_sent.
Proof. intros c. simpl. auto. Qed.

Lemma quiet_set_pktWhole q : quiet (set_pktWhole q).
Proof. intros c. simpl. auto. Qed.

Lemma quiet_set_receivedQueue queue :
  Forall (fun pkt => Status pkt <> Status8) queue -> quiet (set_receivedQueue queue).
Proof. intros H c. simpl. auto. Qed.

Lemma quiet_note_received status n pkt :
  Status pkt <> Status8 -> quiet (note_received status n pkt).
Proof.
  intros Hs c. simpl. repeat split. intros H.
  apply Forall_app. split; [assumption|]. constructor; [assumption|constructor].
Qed.

Lemma framed_enqueue pkt : framed (enqueue pkt).
Proof. intros c. simpl. auto. Qed.

Lemma framed_enqueue_all pkts : framed (enqueue_all pkts).
Proof. intros c. simpl. auto. Qed.

Lemma consistent_SendPacket w m pkt :
  consistent w -> consistent (fst (SendPacket w m pkt)).
Proof.
  intros Hw. unfold SendPacket, SendPacket_limit.
  destruct (heap w !! m) as [ch|]; [|assumption].
  destruct (chan_err ch); [assumption|].
  destruct (len (Data pkt) <=? MaxPacketSize).
  - simpl. apply consistent_with_chan; [apply quiet_count_sent|].
    apply consistent_with_conn; [apply framed_enqueue|assumption].
  - destruct (sendLoop _ _ _ _ _ _ _ _) as [chunks ex].
    assert (consistent (with_conn (enqueue_all chunks) w))
      by (apply consistent_with_conn; [apply framed_enqueue_all|assumption]).
    destruct ex; simpl; try assumption.
    apply consistent_with_chan; [apply quiet_count_sent|assumption].
Qed.

Lemma consistent_ChannelClose w m err :
  consistent w -> consistent (fst (ChannelClose w m err)).
Proof.
  intros Hw. destruct (heap w !! m) as [ch|] eqn:Hm.
  2:{ now rewrite ChannelClose_dangling. }
  destruct (cons_heap w Hw _ _ Hm) as (Hlock & Hid & Hq).
  rewrite (ChannelClose_eq w m ch err Hm Hlock). simpl.
  destruct Hw as [Hclock Hrole Hmax Hheap Htable Hfree].
  constructor; simpl; try assumption.
  - intros p c. rewrite lookup_insert. case_decide as Hp.
    + intros [= <-]. simpl. auto.
    + apply Hheap.
  - intros k p. rewrite lookup_delete. case_decide as Hk; [discriminate|].
    intros Hkp. destruct (Htable _ _ Hkp) as (c & Hc & Hcid).
    rewrite lookup_insert. case_decide as Hp.
    + subst p. rewrite Hm in Hc. injection Hc as <-. congruence.
    + eauto.
  - intros k Hk. apply elem_of_union in Hk as [Hk|Hk].
    + apply elem_of_singleton in Hk. subst k. split; [assumption|].
      apply lookup_delete_eq.
    + destruct (Hfree _ Hk) as [? Hnone]. split; [assumption|].
      rewrite lookup_delete. case_decide; [reflexivity|assumption].
Qed.

(** ** Allocation of channel ids *)

Lemma makeNewChannelId_cases ord cn :
  fair ord ->
  (exists k, k ∈ FreeChannleId cn
     /\ makeNewChannelId ord cn
        = (k, set_alloc (MaxChannelId cn) (FreeChannleId cn ∖ {[ k ]}) cn))
  \/ (FreeChannleId cn = ∅ /\ MaxChannelId cn < MaxUint32
      /\ makeNewChannelId ord cn
         = (MaxChannelId cn + 1, set_alloc (MaxChannelId cn + 1) (FreeChannleId cn) cn))
  \/ (FreeChannleId cn = ∅ /\ MaxUint32 <= MaxChannelId cn
      /\ makeNewChannelId ord cn = (0, cn)).
Proof.
  intros Hfair. unfold makeNewChannelId.
  destruct (Z.ltb_spec 0 (Z.of_nat (size (FreeChannleId cn)))) as [Hpos|Hzero].
  - left. pose proof (Hfair (elements (FreeChannleId cn))) as Hperm.
    destruct (ord (elements (FreeChannleId cn))) as [|k l] eqn:Hord.
    + apply Permutation_nil_l in Hperm. symmetry in Hperm. apply elements_empty_inv in Hperm.
      apply leibniz_equiv in Hperm. rewrite Hperm, size_empty in Hpos. lia.
    + exists k. split; [|reflexivity].
      apply elem_of_elements. rewrite <- Hperm. left.
  - right. assert (Hempty : FreeChannleId cn = ∅).
    { apply leibniz_equiv, size_empty_inv. lia. }
    destruct (Z.ltb_spec (MaxChannelId cn) MaxUint32); [left|right]; auto.
Qed.

Lemma consistent_newChannel ord w :
  fair ord -> consistent w -> consistent (snd (newChannel ord w false)).
Proof.
  intros Hfair [Hlock Hrole Hmax Hheap Htable Hfree].
  unfold newChannel.
  assert (Hfresh : heap w !! fresh (dom (heap w)) = None).
  { apply not_elem_of_dom. apply is_fresh. }
  set (p := fresh (dom (heap w))) in *.
  assert (Hold : forall k q, Channels (conn w) !! k = Some q -> q <> p).
  { intros k q Hk ->. destruct (Htable _ _ Hk) as (c & Hc & _). congruence. }
  destruct (makeNewChannelId_cases ord (conn w) Hfair)
    as [(k & Hk & ->)|[(Hempty & Hlt & ->)|(Hempty & Hge & ->)]];
    simpl; (constructor; simpl; try assumption; try lia).
  - (* an id from the free set *)
    intros q c. rewrite lookup_insert. case_decide.
    + intros [= <-]. simpl. destruct (Hfree _ Hk). auto.
    + apply Hheap.
  - intros i q. rewrite lookup_insert. case_decide as Hi.
    + intros [= <-]. subst i. exists (fresh_Channel k).
      split; [apply lookup_insert_eq|reflexivity].
    + intros Hiq. destruct (Htable _ _ Hiq) as (c & Hc & Hcid).
      exists c. split; [|assumption]. rewrite lookup_insert_ne; [assumption|].
      intros <-. eapply Hold; eauto.
  - intros i Hi. apply elem_of_difference in Hi as [Hi Hne].
    destruct (Hfree _ Hi) as [? Hnone]. split; [assumption|].
    rewrite lookup_insert_ne; [assumption|]. intros <-. apply Hne. now apply elem_of_singleton.
  - (* a new id *)
    intros q c. rewrite lookup_insert. case_decide.
    + intros [= <-]. simpl. repeat split; try lia. constructor.
    + intros Hq. destruct (Hheap _ _ Hq) as (? & ? & ?). repeat split; auto; lia.
  - intros i q. rewrite lookup_insert. case_decide as Hi.
    + intros [= <-]. subst i. exists (fresh_Channel (MaxChannelId (conn w) + 1)).
      split; [apply lookup_insert_eq|reflexivity].
    + intros Hiq. destruct (Htable _ _ Hiq) as (c & Hc & Hcid).
      exists c. split; [|assumption]. rewrite lookup_insert_ne; [assumption|].
      intros <-. eapply Hold; eauto.
  - intros i Hi. rewrite Hempty in Hi. now apply not_elem_of_empty in Hi.
  - (* no id left: the new channel takes id 0 *)
    intros q c. rewrite lookup_insert. case_decide.
    + intros [= <-]. simpl. repeat split; try lia. constructor.
    + apply Hheap.
  - intros i q. rewrite lookup_insert. case_decide as Hi.
    + intros [= <-]. subst i. exists (fresh_Channel 0).
      split; [apply lookup_insert_eq|reflexivity].
    + intros Hiq. destruct (Htable _ _ Hiq) as (c & Hc & Hcid).
      exists c. split; [|assumption]. rewrite lookup_insert_ne; [assumption|].
      intros <-. eapply Hold; eauto.
  - intros i Hi. rewrite Hempty in Hi. now apply not_elem_of_empty in Hi.
Qed.

(** ** Connection.Close *)

Lemma ChannelClose_meta e n l t w m err :
  ChannelClose (with_conn (set_conn_meta e n l t) w) m err
  = (with_conn (set_conn_meta e n l t) (fst (ChannelClose w m err)),
     snd (ChannelClose w m err)).
Proof.
  destruct (heap w !! m) as [ch|] eqn:Hm.
  - destruct (Z.eq_dec (chan_closeLock ch) 0) as [Hlock|Hlock].
    + rewrite (ChannelClose_eq w m ch err Hm Hlock).
      rewrite (ChannelClose_eq (with_conn (set_conn_meta e n l t) w) m ch err Hm Hlock).
      reflexivity.
    + rewrite (ChannelClose_locked w m ch err Hm Hlock).
      now rewrite (ChannelClose_locked (with_conn (set_conn_meta e n l t) w) m ch err Hm Hlock).
  - rewrite (ChannelClose_dangling w m err Hm).
    now rewrite (ChannelClose_dangling (with_conn (set_conn_meta e n l t) w) m err Hm).
Qed.

Lemma close_each_meta e n l t keys : forall w,
  close_each (with_conn (set_conn_meta e n l t) w) keys
  = with_conn (set_conn_meta e n l t) (close_each w keys).
Proof.
  induction keys as [|k keys IH]; intros w; simpl; [reflexivity|].
  destruct (Channels (conn w) !! k) as [v|]; [|apply IH].
  rewrite ChannelClose_meta. simpl fst. apply IH.
Qed.

(** [Connection.Close] with a free latch: every channel of the table is closed
    in the order of the [range], and the error, the socket, the stop signal
    and the latch are set. *)
Lemma ConnectionClose_eq ord w err :
  conn_closeLock (conn w) = 0 ->
  ConnectionClose ord w err
  = with_conn (set_conn_meta (Some (default ErrUnknown err)) false 0 true)
      (close_each w (ord (elements (dom (Channels (conn w)))))).
Proof.
  intros Hlock. unfold ConnectionClose. rewrite Hlock. simpl negb. cbv iota.
  change (with_conn (set_conn_closing (default ErrUnknown err))
            (with_conn (set_conn_closeLock 1) w))
    with (with_conn (set_conn_meta (Some (default ErrUnknown err))
                       (conn_closeNotify (conn w)) 1 true) w).
  cbv zeta. simpl Channels. rewrite close_each_meta. reflexivity.
Qed.

Lemma ConnectionClose_locked ord w err :
  conn_closeLock (conn w) <> 0 -> ConnectionClose ord w err = w.
Proof.
  intros H. unfold ConnectionClose.
  destruct (Z.eqb_spec (conn_closeLock (conn w)) 0); [contradiction|reflexivity].
Qed.

Lemma consistent_close_each keys : forall w,
  consistent w -> consistent (close_each w keys).
Proof.
  induction keys as [|k keys IH]; intros w Hw; simpl; [assumption|].
  destruct (Channels (conn w) !! k); [|auto].
  apply IH. now apply consistent_ChannelClose.
Qed.

Lemma consistent_set_conn_meta e n t w :
  consistent w -> consistent (with_conn (set_conn_meta e n 0 t) w).
Proof. intros [? ? ? ? ? ?]. constructor; simpl; solve [assumption | reflexivity]. Qed.

Lemma consistent_ConnectionClose ord w err :
  consistent w -> consistent (ConnectionClose ord w err).
Proof.
  intros Hw. rewrite ConnectionClose_eq by apply Hw.
  apply consistent_set_conn_meta. now apply consistent_close_each.
Qed.

(** The channel table after the cascade: the visited keys are gone. *)
Lemma close_each_table keys : forall w i,
  consistent w ->
  Channels (conn (close_each w keys)) !! i
  = if decide (i ∈ keys) then None else Channels (conn w) !! i.
Proof.
  induction keys as [|k keys IH]; intros w i Hw; cbn [close_each].
  - destruct (decide (i ∈ [])) as [Hin|_]; [|reflexivity].
    now apply not_elem_of_nil in Hin.
  - assert (Hstep : forall w', consistent w' ->
              Channels (conn w') !! i
              = (if decide (i = k) then None else Channels (conn w) !! i) ->
              Channels (conn (close_each w' keys)) !! i
              = if decide (i ∈ k :: keys) then None else Channels (conn w) !! i).
    { intros w' Hw' Hi. rewrite IH by assumption. rewrite Hi.
      destruct (decide (i ∈ keys)) as [Hin|Hnin], (decide (i = k)) as [->|Hne],
        (decide (_ ∈ k :: keys)) as [Hin'|Hnin']; try reflexivity.
      - exfalso. apply Hnin'. now right.
      - exfalso. apply Hnin'. now right.
      - exfalso. apply Hnin'. left.
      - apply elem_of_cons in Hin' as [?|?]; contradiction. }
    destruct (Channels (conn w) !! k) as [v|] eqn:Hk.
    + destruct (cons_table w Hw _ _ Hk) as (ch & Hv & Hid).
      destruct (cons_heap w Hw _ _ Hv) as (Hlock & _).
      apply Hstep; [now apply consistent_ChannelClose|].
      rewrite (ChannelClose_eq w v ch _ Hv Hlock). simpl. rewrite Hid.
      destruct (decide (i = k)) as [->|Hne];
        [apply lookup_delete_eq|now apply lookup_delete_ne].
    + apply Hstep; [assumption|].
      destruct (decide (i = k)) as [->|Hne]; [assumption|reflexivity].
Qed.

Lemma ConnectionClose_table ord w err :
  fair ord -> consistent w -> Channels (conn (ConnectionClose ord w err)) = ∅.
Proof.
  intros Hfair Hw. rewrite ConnectionClose_eq by apply Hw. simpl.
  apply map_eq. intros i. rewrite lookup_empty, close_each_table by assumption.
  case_decide as Hi; [reflexivity|].
  apply not_elem_of_dom. intros Hdom. apply Hi.
  rewrite (Hfair _). now apply elem_of_elements.
Qed.


(** ** Reachable states are consistent *)

Lemma readFrame_Deliver_status check w input p pkt rest :
  readFrame check w input = Deliver p pkt rest -> Status pkt <> Status8.
Proof.
  unfold readFrame. destruct input as [|status in1]; simpl ReadByte; [discriminate|].
  cbv beta iota.
  destruct (Z.eqb_spec status Status8); [discriminate|].
  repeat match goal with
         | |- context [match ?x with _ => _ end] => destruct x; try discriminate
         end.
  now intros [= <- <- <-].
Qed.

Lemma consistent_readLoop_body ord check w input :
  consistent w -> consistent (fst (readLoop_body ord check w input)).
Proof.
  intros Hw. unfold readLoop_body.
  destruct (conn_err (conn w)); [assumption|].
  destruct (readFrame check w input) as [p pkt rest|e] eqn:Hread; simpl.
  - apply consistent_with_chan; [|assumption].
    apply quiet_note_received. eapply readFrame_Deliver_status; eauto.
  - now apply consistent_ConnectionClose.
Qed.

Lemma consistent_log_handled m arg completed w :
  consistent w -> consistent (log_handled m arg completed w).
Proof. intros [? ? ? ? ? ?]. constructor; assumption. Qed.

Lemma consistent_log_responded m whole w :
  consistent w -> consistent (log_responded m whole w).
Proof. intros [? ? ? ? ? ?]. constructor; assumption. Qed.

Lemma consistent_handleServerLoop_body Handle ErrorResponseData w m :
  consistent w -> consistent (handleServerLoop_body Handle ErrorResponseData w m).
Proof.
  intros Hw. unfold handleServerLoop_body.
  destruct (heap w !! m) as [ch|] eqn:Hm; [|assumption].
  destruct (receivedQueue ch) as [|pkt queue] eqn:Hq; [assumption|].
  destruct (cons_heap w Hw _ _ Hm) as (_ & _ & Hok). rewrite Hq in Hok.
  apply Forall_cons in Hok as [_ Hok].
  assert (H0 : consistent (with_chan m (set_receivedQueue queue) w))
    by (apply consistent_with_chan; [now apply quiet_set_receivedQueue|assumption]).
  destruct (Status pkt =? Status8); [now apply consistent_ChannelClose|].
  destruct (Handle m pkt (isClientStatusCompleted (Status pkt))) as [ret err].
  destruct (needs_error_response err); [|destruct ret]; cbv beta iota zeta;
    repeat match goal with
           | |- consistent (if ?b then _ else _) => destruct b
           | |- consistent (match ?x with _ => _ end) => destruct x
           | |- consistent (with_chan _ (set_pktWhole _) _) =>
               apply consistent_with_chan; [apply quiet_set_pktWhole|]
           | |- consistent (fst (SendPacket _ _ _)) => apply consistent_SendPacket
           | |- consistent (log_handled _ _ _ _) => apply consistent_log_handled
           | |- consistent _ => assumption
           end.
Qed.

Lemma consistent_handleClientLoop_body hasResponseChan w m :
  consistent w -> consistent (handleClientLoop_body hasResponseChan w m).
Proof.
  intros Hw. unfold handleClientLoop_body.
  destruct (heap w !! m) as [ch|] eqn:Hm; [|assumption].
  destruct (receivedQueue ch) as [|pkt queue] eqn:Hq; [assumption|].
  destruct (cons_heap w Hw _ _ Hm) as (_ & _ & Hok). rewrite Hq in Hok.
  apply Forall_cons in Hok as [_ Hok].
  assert (H0 : consistent (with_chan m (set_receivedQueue queue) w))
    by (apply consistent_with_chan; [now apply quiet_set_receivedQueue|assumption]).
  destruct (Status pkt =? Status8); [now apply consistent_ChannelClose|].
  set (w1 := log_handled _ _ _ _).
  assert (H1 : consistent w1).
  { apply consistent_log_handled, consistent_with_chan;
      [apply quiet_set_pktWhole|assumption]. }
  clearbody w1.
  destruct (isServerStatusCompleted (Status pkt)); [|assumption].
  apply consistent_with_chan; [apply quiet_set_pktWhole|].
  destruct (hasResponseChan m); [now apply consistent_log_responded|assumption].
Qed.

Lemma consistent_NewConnection ord role writeQueueLen w :
  NewConnection ord role writeQueueLen = inl w -> consistent w.
Proof.
  unfold NewConnection.
  destruct (Z.eqb_spec role RoleClient) as [Hc|Hc], (Z.eqb_spec role RoleServer) as [Hs|Hs];
    simpl; intros [= <-]; unfold newChannel; simpl;
    (constructor; simpl;
     [ reflexivity | auto | unfold MaxUint32; lia
     | intros p ch; rewrite lookup_insert; case_decide; [|now rewrite lookup_empty];
       intros [= <-]; simpl; repeat split; try lia; constructor
     | intros k p; rewrite lookup_insert; case_decide; [|now rewrite lookup_empty];
       intros [= <-]; subst k; exists (fresh_Channel 0);
       split; [apply lookup_insert_eq|reflexivity]
     | intros k Hk; now apply not_elem_of_empty in Hk ]).
Qed.

Lemma consistent_step w o :
  op_fair o -> consistent w -> consistent (step w o).
Proof.
  intros Hfair Hw. destruct o; simpl in *.
  - now apply consistent_newChannel.
  - now apply consistent_SendPacket.
  - now apply consistent_ChannelClose.
  - now apply consistent_ConnectionClose.
  - destruct (Role (conn w) =? RoleClient); now apply consistent_readLoop_body.
  - destruct (Role (conn w) =? RoleServer);
      [now apply consistent_handleServerLoop_body|].
    destruct (Role (conn w) =? RoleClient); [|assumption].
    now apply consistent_handleClientLoop_body.
Qed.

Theorem reachable_consistent w : reachable w -> consistent w.
Proof.
  induction 1 as [ord role writeQueueLen w Hfair Hnew|w o Hreach IH Hfair].
  - eapply consistent_NewConnection; eauto.
  - now apply consistent_step.
Qed.

Lemma consistent_table_in_heap w : consistent w -> table_in_heap w.
Proof.
  intros Hw k p Hk. destruct (cons_table w Hw _ _ Hk) as (ch & Hch & _). eauto.
Qed.

(** ** The allocator of channel ids *)

Lemma fair_in_order : fair in_order.
Proof. intros l. reflexivity. Qed.

Lemma NewConnection_new_connection ord role writeQueueLen :
  role = RoleClient \/ role = RoleServer ->
  NewConnection ord role writeQueueLen = inl (new_connection role writeQueueLen).
Proof. intros [-> | ->]; reflexivity. Qed.

Lemma NewConnection_new_world role :
  role = RoleClient \/ role = RoleServer ->
  NewConnection in_order role 16 = inl (new_world role).
Proof. apply NewConnection_new_connection. Qed.

Lemma reachable_new_world role :
  role = RoleClient \/ role = RoleServer -> reachable (new_world role).
Proof.
  intros H. apply (reach_new in_order role 16); [apply fair_in_order|].
  now apply NewConnection_new_world.
Qed.







(** ** The reader, round by round *)



(** ** The cascade of [Connection.Close] and the buffer of the queue *)






(** The round of a read loop, by what the parser decided. *)
Lemma readLoop_body_Abort ord check w input e :
  conn_err (conn w) = None -> readFrame check w input = Abort e ->
  readLoop_body ord check w input = (ConnectionClose ord w (Some e), None).
Proof. intros Herr Hread. unfold readLoop_body. now rewrite Herr, Hread. Qed.

Lemma readLoop_body_Deliver ord check w input p pkt rest :
  conn_err (conn w) = None -> readFrame check w input = Deliver p pkt rest ->
  readLoop_body ord check w input
  = (with_chan p
       (note_received (Status pkt) (len (Data pkt) + 1 + len (Path pkt) + 1 + 4 + 4) pkt) w,
     Some rest).
Proof. intros Herr Hread. unfold readLoop_body. now rewrite Herr, Hread. Qed.

Lemma closes_iff_Abort ord check w input :
  conn_err (conn w) = None ->
  closes ord check w input <-> exists e, readFrame check w input = Abort e.
Proof.
  intros Herr. split.
  - intros [e He]. destruct (readFrame check w input) as [p pkt rest|e'] eqn:Hread; [|eauto].
    rewrite (readLoop_body_Deliver _ _ _ _ _ _ _ Herr Hread) in He. discriminate.
  - intros [e He]. exists e. now apply readLoop_body_Abort.
Qed.

Lemma delivers_iff_Deliver ord check w input :
  conn_err (conn w) = None ->
  delivers ord check w input <-> exists p pkt rest, readFrame check w input = Deliver p pkt rest.
Proof.
  intros Herr. split.
  - intros (p & pkt & rest & H).
    destruct (readFrame check w input) as [p' pkt' rest'|e'] eqn:Hread; [eauto|].
    rewrite (readLoop_body_Abort _ _ _ _ _ Herr Hread) in H. discriminate.
  - intros (p & pkt & rest & H). exists p, pkt, rest. now apply readLoop_body_Deliver.
Qed.

(** C9, amended: on an open connection in a reachable state, a round of a
    reader on a frame whose status byte is not [X8] closes the connection
    exactly when the frame is malformed in one of the listed ways (invalid
    status byte, illegal transition, data length over 16 MiB, data length 0,
    unknown channel id, read ending inside the frame) or its path is not
    terminated within the 16 KiB read buffer; otherwise it delivers the
    frame. *)
Theorem reader_closes_iff_malformed :
  forall (ord : range_order) (check : Z -> Z -> option error) (w : World)
         (status : Z) (rest : list Z),
    reachable w -> conn_err (conn w) = None ->
    Forall is_byte (status :: rest) -> status <> Status8 ->
    (closes ord check w (status :: rest)
     <-> malformed check w status rest \/ path_overruns_buffer rest)
    /\ (delivers ord check w (status :: rest)
        <-> ~ (malformed check w status rest \/ path_overruns_buffer rest)).
Proof.
  intros ord check w status rest Hreach Herr Hbytes Hs8.
  apply reachable_consistent, consistent_table_in_heap in Hreach.
  pose proof (readFrame_Abort_iff check w status rest Hreach Hbytes Hs8) as Habort.
  split.
  - rewrite closes_iff_Abort by assumption. exact Habort.
  - rewrite delivers_iff_Deliver by assumption. rewrite <- Habort. split.
    + intros (p & pkt & r & Hd) [e He]. congruence.
    + intros Hno. destruct (readFrame_cases check w (status :: rest)) as [H|H];
        [contradiction|assumption].
Qed.

(** A frame with a path that fills the read buffer *)

Lemma long_path_no_nul : 0 ∉ long_path.
Proof. unfold long_path. intros H. apply elem_of_replicate in H as [H _]. discriminate. Qed.

Lemma long_path_bytes : Forall is_byte (StatusC1 :: long_path_rest).
Proof.
  constructor; [unfold is_byte, StatusC1; lia|].
  unfold long_path_rest. apply Forall_app. split.
  - unfold long_path. apply Forall_replicate. unfold is_byte. lia.
  - repeat (constructor; [unfold is_byte; lia|]). constructor.
Qed.

Lemma long_path_split path tail :
  long_path_rest = path ++ 0 :: tail -> 0 ∉ path ->
  path = long_path /\ tail = [0; 0; 0; 0; 0; 0; 0; 1; 7].
Proof.
  intros E Hnin. unfold long_path_rest in E. symmetry in E.
  apply first_delim_unique in E as [-> ->]; auto using long_path_no_nul.
Qed.

Lemma header_split (idb tail : list Z) (a b c d : Z) l :
  idb ++ tail = a :: b :: c :: d :: l -> len idb = 4 -> idb = [a; b; c; d] /\ tail = l.
Proof.
  intros E L. apply len4 in L.
  destruct idb as [|i0 [|i1 [|i2 [|i3 [|i4 idb]]]]]; try discriminate.
  simpl in E. injection E as -> -> -> -> ->. auto.
Qed.

(** C9, as stated, fails: on a frame for the system channel that is complete
    and in order but whose path fills the 16 KiB read buffer before its
    terminator, the server's reader closes the connection, and the frame is
    malformed in none of the listed ways. *)
Lemma long_path_closes_unlisted :
  reachable (new_world RoleServer)
  /\ conn_err (conn (new_world RoleServer)) = None
  /\ Forall is_byte (StatusC1 :: long_path_rest)
  /\ StatusC1 <> Status8
  /\ closes in_order CheckClientPacketStatus (new_world RoleServer)
       (StatusC1 :: long_path_rest)
  /\ ~ malformed CheckClientPacketStatus (new_world RoleServer) StatusC1 long_path_rest.
Proof.
  split; [apply reachable_new_world; now right|].
  split; [reflexivity|]. split; [apply long_path_bytes|]. split; [discriminate|].
  split.
  - exists (ErrReadDataFail ErrBufferFull). apply readLoop_body_Abort; [reflexivity|].
    vm_compute. reflexivity.
  - intros [Hinv
           |path idb tail p ch E H0 L Hget Hheap Hchk
           |path idb lb tail E H0 L L' Hover
           |path idb lb tail E H0 L L' Hzero
           |path idb tail E H0 L Hget
           |Hcut
           |path tail E H0 Hshort
           |path idb lb tail E H0 L L' Hshort].
    + apply (Hinv 255). reflexivity.
    + apply long_path_split in E as [-> E]; [|assumption].
      apply header_split in E as [-> ->]; [|assumption].
      vm_compute in Hget. injection Hget as <-.
      vm_compute in Hheap. injection Hheap as <-.
      apply Hchk. reflexivity.
    + apply long_path_split in E as [-> E]; [|assumption].
      apply header_split in E as [-> E]; [|assumption].
      apply header_split in E as [-> ->]; [|assumption].
      vm_compute in Hover. discriminate.
    + apply long_path_split in E as [-> E]; [|assumption].
      apply header_split in E as [-> E]; [|assumption].
      apply header_split in E as [-> ->]; [|assumption].
      discriminate.
    + apply long_path_split in E as [-> E]; [|assumption].
      apply header_split in E as [-> ->]; [|assumption].
      vm_compute in Hget. discriminate.
    + apply Hcut. unfold long_path_rest. apply elem_of_app. right. left.
    + apply long_path_split in E as [-> ->]; [|assumption].
      vm_compute in Hshort. discriminate.
    + apply long_path_split in E as [-> E]; [|assumption].
      apply header_split in E as [-> E]; [|assumption].
      apply header_split in E as [-> ->]; [|assumption].
      vm_compute in Hshort. discriminate.
Qed.

Lemma reader_closes_iff_malformed_witness :
  (closes in_order CheckClientPacketStatus (new_world RoleServer)
     (StatusC1 :: [47; 0; 0; 0; 0; 0; 0; 0; 0; 1; 7])
   <-> malformed CheckClientPacketStatus (new_world RoleServer) StatusC1
         [47; 0; 0; 0; 0; 0; 0; 0; 0; 1; 7]
       \/ path_overruns_buffer [47; 0; 0; 0; 0; 0; 0; 0; 0; 1; 7])
  /\ (delivers in_order CheckClientPacketStatus (new_world RoleServer)
        (StatusC1 :: [47; 0; 0; 0; 0; 0; 0; 0; 0; 1; 7])
      <-> ~ (malformed CheckClientPacketStatus (new_world RoleServer) StatusC1
               [47; 0; 0; 0; 0; 0; 0; 0; 0; 1; 7]
             \/ path_overruns_buffer [47; 0; 0; 0; 0; 0; 0; 0; 0; 1; 7])).
Proof.
  apply (reader_closes_iff_malformed in_order CheckClientPacketStatus
           (new_world RoleServer) StatusC1 [47; 0; 0; 0; 0; 0; 0; 0; 0; 1; 7]).
  - apply reachable_new_world. now right.
  - reflexivity.
  - repeat (constructor; [unfold is_byte, StatusC1; lia|]). constructor.
  - discriminate.
Defined.

(** The reader sets no limit of its own on the path: a frame with a path of
    600 bytes, more than [MaxPathLen], is delivered. *)
Example path_over_MaxPathLen_delivered :
  exists pkt,
    readFrame CheckClientPacketStatus (new_world RoleServer)
      (StatusC1 :: replicate 600 65 ++ 0 :: [0; 0; 0; 0] ++ [0; 0; 0; 1] ++ [7])
    = Deliver 0%nat pkt []
    /\ len (Path pkt) = 600 /\ MaxPathLen < len (Path pkt) /\ Data pkt = [7].
Proof. eexists. split; [vm_compute; reflexivity|]. repeat split. Qed.

(** ** Closing a channel *)


(** The first [Close] of a channel: one frame goes to the outbound queue, with
    the channel's id and the status of a complete one-frame message; the id
    leaves the channel table for the free set; the error is stored. *)
Lemma ChannelClose_first w m ch e :
  heap w !! m = Some ch -> chan_err ch = None -> chan_closeLock ch = 0 ->
  tcpWriteQueue (conn (fst (ChannelClose w m (Some e))))
  = tcpWriteQueue (conn w) ++ [close_frame (Role (conn w)) m ch]
  /\ Channels (conn (fst (ChannelClose w m (Some e)))) = delete (Id ch) (Channels (conn w))
  /\ FreeChannleId (conn (fst (ChannelClose w m (Some e))))
     = {[ Id ch ]} ∪ FreeChannleId (conn w)
  /\ chan_err <$> heap (fst (ChannelClose w m (Some e))) !! m = Some (Some e).
Proof.
  intros Hm Herr Hlock. rewrite (ChannelClose_eq w m ch (Some e) Hm Hlock). simpl.
  rewrite Herr, lookup_insert_eq. auto.
Qed.

(** C4 at a concrete channel: closing channel 1 of a client connection puts a
    frame with status 1 ([C1]), not 8 ([X8]), on the outbound queue; the
    frame carries the channel's id, the channel leaves the table and its
    error is stored. *)
Theorem ChannelClose_frame_status :
  tcpWriteQueue (conn (fst (ChannelClose two_channel_world 1%nat (Some ErrUnknown))))
  = [mkPacket 8 StatusC1 [] 1 [] (Some 1%nat)]
  /\ Channels (conn two_channel_world) !! 1 = Some 1%nat
  /\ Channels (conn (fst (ChannelClose two_channel_world 1%nat (Some ErrUnknown)))) !! 1
     = None
  /\ chan_err <$> heap (fst (ChannelClose two_channel_world 1%nat (Some ErrUnknown))) !! 1%nat
     = Some (Some ErrUnknown).
Proof. repeat split. Qed.

(** ** The dispatchers *)

Lemma SendPacket_handled w m pkt : handled (fst (SendPacket w m pkt)) = handled w.
Proof.
  unfold SendPacket, SendPacket_limit.
  destruct (heap w !! m) as [ch|]; [|reflexivity].
  destruct (chan_err ch); [reflexivity|].
  destruct (len (Data pkt) <=? MaxPacketSize); [reflexivity|].
  destruct (sendLoop _ _ _ _ _ _ _ _) as [chunks []]; reflexivity.
Qed.

Lemma SendPacket_pktWhole w m pkt p :
  pktWhole <$> heap (fst (SendPacket w m pkt)) !! p = pktWhole <$> heap w !! p.
Proof.
  assert (Halter : forall h : gmap ptr Channel,
             pktWhole <$> alter count_sent m h !! p = pktWhole <$> h !! p).
  { intros h. rewrite lookup_alter. case_decide; [subst|reflexivity].
    now destruct (h !! p). }
  unfold SendPacket, SendPacket_limit.
  destruct (heap w !! m) as [ch|]; [|reflexivity].
  destruct (chan_err ch); [reflexivity|].
  destruct (len (Data pkt) <=? MaxPacketSize); [apply Halter|].
  destruct (sendLoop _ _ _ _ _ _ _ _) as [chunks []]; simpl;
    try reflexivity; apply Halter.
Qed.

Lemma dropped_whole (o : option Channel) v :
  pktWhole <$> o = Some v -> pktWhole <$> (set_pktWhole None <$> o) = Some None.
Proof. now destruct o. Qed.

(** What a round of the server's dispatcher does with a frame that is not a
    close frame: the handler is called with the frame itself, and the whole
    message is dropped exactly when the frame has a completed server status. *)
Lemma handleServerLoop_body_frame Handle ErrorResponseData w m ch pkt queue :
  heap w !! m = Some ch -> receivedQueue ch = pkt :: queue -> Status pkt <> Status8 ->
  handled (handleServerLoop_body Handle ErrorResponseData w m)
  = handled w ++ [(m, pkt, isClientStatusCompleted (Status pkt))]
  /\ pktWhole <$> heap (handleServerLoop_body Handle ErrorResponseData w m) !! m
     = Some (if isServerStatusCompleted (Status pkt) then None
             else Some (merge (pktWhole ch) pkt)).
Proof.
  intros Hm Hq Hs8. unfold handleServerLoop_body. rewrite Hm, Hq.
  destruct (Z.eqb_spec (Status pkt) Status8); [contradiction|].
  destruct (Handle m pkt (isClientStatusCompleted (Status pkt))) as [ret err].
  set (w1 := log_handled _ _ _ _).
  assert (H1 : handled w1 = handled w ++ [(m, pkt, isClientStatusCompleted (Status pkt))])
    by reflexivity.
  assert (H2 : pktWhole <$> heap w1 !! m = Some (Some (merge (pktWhole ch) pkt))).
  { unfold w1. simpl. rewrite !lookup_alter_eq, Hm. reflexivity. }
  clearbody w1.
  destruct (needs_error_response err); [|destruct ret]; cbv beta iota zeta;
    repeat match goal with
           | |- context [match ?x with Some _ => _ | None => _ end] => destruct x
           | |- context [if negb ?b then _ else _] => destruct b; simpl negb; cbv iota
           end;
    destruct (isServerStatusCompleted (Status pkt)); simpl;
    rewrite ?lookup_alter_eq, ?SendPacket_handled, ?SendPacket_pktWhole, ?H2;
    auto;
    (split; [assumption|]; eapply dropped_whole;
     rewrite ?SendPacket_pktWhole; exact H2).
Qed.

Lemma handleClientLoop_body_frame hasResponseChan w m ch pkt queue :
  heap w !! m = Some ch -> receivedQueue ch = pkt :: queue -> Status pkt <> Status8 ->
  handled (handleClientLoop_body hasResponseChan w m)
  = handled w ++ [(m, merge (pktWhole ch) pkt, isServerStatusCompleted (Status pkt))]
  /\ pktWhole <$> heap (handleClientLoop_body hasResponseChan w m) !! m
     = Some (if isServerStatusCompleted (Status pkt) then None
             else Some (merge (pktWhole ch) pkt)).
Proof.
  intros Hm Hq Hs8. unfold handleClientLoop_body. rewrite Hm, Hq.
  destruct (Z.eqb_spec (Status pkt) Status8); [contradiction|].
  destruct (isServerStatusCompleted (Status pkt)); [destruct (hasResponseChan m)|];
    simpl; rewrite !lookup_alter_eq, Hm; auto.
Qed.

(** C5 at a concrete request: a request that arrives in two frames, [C0]
    with payload [1] and [C3] with payload [2].  The server's dispatcher calls
    the handler with the second frame alone (payload [2], completed), not with
    the whole request (payload [1; 2]), and keeps the whole request after the
    completed frame instead of dropping it. *)
Theorem handleServerLoop_two_frames :
  handled after_two_frames
  = [ (0%nat, mkPacket PacketTypeResponse StatusC0 [47; 97] 0 [1] (Some 0%nat), false);
      (0%nat, mkPacket PacketTypeResponse StatusC3 [47; 97] 0 [2] (Some 0%nat), true) ]
  /\ pktWhole <$> heap after_two_frames !! 0%nat
     = Some (Some (mkPacket PacketTypeResponse StatusC3 [47; 97] 0 [1; 2] (Some 0%nat))).
Proof. split; reflexivity. Qed.

(** On a frame with a client status the server's dispatcher never drops the
    whole message. *)
Lemma handleServerLoop_body_keeps Handle ErrorResponseData w m ch pkt queue :
  heap w !! m = Some ch -> receivedQueue ch = pkt :: queue ->
  isClientStatus (Status pkt) = true ->
  pktWhole <$> heap (handleServerLoop_body Handle ErrorResponseData w m) !! m
  = Some (Some (merge (pktWhole ch) pkt)).
Proof.
  intros Hm Hq Hs.
  assert (Hs8 : Status pkt <> Status8).
  { intros E. rewrite E in Hs. discriminate. }
  destruct (handleServerLoop_body_frame Handle ErrorResponseData w m ch pkt queue
              Hm Hq Hs8) as [_ ->].
  replace (isServerStatusCompleted (Status pkt)) with false; [reflexivity|].
  revert Hs. unfold isClientStatus, isServerStatusCompleted, StatusC0, StatusC1,
    StatusC2, StatusC3, StatusS5, StatusS7.
  destruct (Z.eqb_spec (Status pkt) 0), (Z.eqb_spec (Status pkt) 1),
    (Z.eqb_spec (Status pkt) 2), (Z.eqb_spec (Status pkt) 3),
    (Z.eqb_spec (Status pkt) 5), (Z.eqb_spec (Status pkt) 7);
    simpl; intros; try reflexivity; try discriminate; lia.
Qed.


(** ** Closing more than once *)













(** * Further properties *)

(** ** The encoder *)

Lemma not_elem_of_slash_a : 0 ∉ [47; 97].
Proof.
  intros H. repeat (apply elem_of_cons in H as [H|H]; [discriminate|]).
  now apply not_elem_of_nil in H.
Qed.

Lemma not_elem_of_echo_path : 0 ∉ Path echo_packet.
Proof.
  simpl. intros H. repeat (apply elem_of_cons in H as [H|H]; [discriminate|]).
  now apply not_elem_of_nil in H.
Qed.

Lemma CreateNetPacket_wire pkt :
  len (Path pkt) <= MaxPathLen -> len (Data pkt) <= MaxPacketSize ->
  CreateNetPacket pkt = inl (wire pkt).
Proof. apply CreateNetPacket_ok. Qed.

Lemma to_byte_is_byte x : is_byte (to_byte x).
Proof.
  unfold is_byte, to_byte. change 255 with (Z.ones 8). rewrite Z.land_ones by lia.
  change (2 ^ 8) with 256. apply Z.mod_pos_bound. lia.
Qed.

Lemma PutUint32_bytes v : Forall is_byte (PutUint32 v).
Proof. unfold PutUint32. repeat constructor; apply to_byte_is_byte. Qed.

Lemma len_PutUint32 v : len (PutUint32 v) = 4.
Proof. reflexivity. Qed.

Lemma len_wire pkt : len (wire pkt) = len (Path pkt) + len (Data pkt) + 10.
Proof.
  unfold wire, len. rewrite length_cons, length_app, length_cons, !length_app.
  rewrite !length_PutUint32. lia.
Qed.

(** X1: [CreateNetPacket] returns an error exactly when the path has more
    than 512 bytes ("path too large", also when the data is too large as
    well) or the data has more than 16 MiB; otherwise the frame it returns
    has [|path| + |data| + 10] bytes, and all of them are byte values when the
    status, the path and the data are. *)
Theorem CreateNetPacket_result :
  forall pkt : Packet,
    (MaxPathLen < len (Path pkt) -> CreateNetPacket pkt = inr ErrPathTooLarge)
    /\ (len (Path pkt) <= MaxPathLen -> MaxPacketSize < len (Data pkt) ->
        CreateNetPacket pkt = inr ErrDataTooLarge)
    /\ (len (Path pkt) <= MaxPathLen -> len (Data pkt) <= MaxPacketSize ->
        exists bytes,
          CreateNetPacket pkt = inl bytes
          /\ len bytes = len (Path pkt) + len (Data pkt) + 10
          /\ (is_byte (Status pkt) -> Forall is_byte (Path pkt) ->
              Forall is_byte (Data pkt) -> Forall is_byte bytes)).
Proof.
  intros pkt. split; [|split].
  - intros H. unfold CreateNetPacket.
    destruct (Z.gtb_spec (len (Path pkt)) MaxPathLen); [reflexivity|lia].
  - intros Hp Hd. unfold CreateNetPacket.
    destruct (Z.gtb_spec (len (Path pkt)) MaxPathLen); [lia|].
    destruct (Z.gtb_spec (len (Data pkt)) MaxPacketSize); [reflexivity|lia].
  - intros Hp Hd. exists (wire pkt). split; [now apply CreateNetPacket_wire|].
    split; [apply len_wire|]. intros Hs Hpath Hdata. unfold wire.
    constructor; [assumption|]. apply Forall_app. split; [assumption|].
    constructor; [unfold is_byte; lia|].
    repeat (apply Forall_app; split); auto using PutUint32_bytes.
Qed.

Lemma cons_eq_inv (a b : Z) (l k : list Z) : a :: l = b :: k -> a = b /\ l = k.
Proof. now intros [= -> ->]. Qed.

(** X2: frames are uniquely decodable.  If the frames of two packets within
    the encoder's limits, with paths free of zero bytes and 32-bit channel
    ids, each followed by arbitrary bytes, give the same byte sequence, then
    the packets agree in status, path, channel id and data, and the bytes
    that follow agree too: no frame is a prefix of a different one. *)
Theorem CreateNetPacket_unique_decoding :
  forall (p1 p2 : Packet) (b1 b2 r1 r2 : list Z),
    CreateNetPacket p1 = inl b1 -> CreateNetPacket p2 = inl b2 ->
    0 ∉ Path p1 -> 0 ∉ Path p2 ->
    is_uint32 (ChannelId p1) -> is_uint32 (ChannelId p2) ->
    b1 ++ r1 = b2 ++ r2 ->
    Status p1 = Status p2 /\ Path p1 = Path p2 /\ ChannelId p1 = ChannelId p2
    /\ Data p1 = Data p2 /\ r1 = r2 /\ b1 = b2.
Proof.
  intros p1 p2 b1 b2 r1 r2 H1 H2 Hn1 Hn2 Hi1 Hi2 E.
  assert (Hlim : forall p b, CreateNetPacket p = inl b ->
                   b = wire p /\ len (Data p) <= MaxPacketSize).
  { intros p b. unfold CreateNetPacket.
    destruct (len (Path p) >? MaxPathLen); [discriminate|].
    destruct (Z.gtb_spec (len (Data p)) MaxPacketSize); [discriminate|].
    intros [= <-]. split; [reflexivity|assumption]. }
  destruct (Hlim _ _ H1) as [-> Hd1]. destruct (Hlim _ _ H2) as [-> Hd2].
  unfold wire in E. rewrite !frame_app in E.
  apply cons_eq_inv in E as [Hs E].
  apply first_delim_unique in E as [Hp E]; try assumption.
  apply app_inj_1 in E as [Hid E]; [|reflexivity].
  apply app_inj_1 in E as [Hlen E]; [|reflexivity].
  assert (Hid' : ChannelId p1 = ChannelId p2).
  { rewrite <- (Uint32_PutUint32 (ChannelId p1)), <- (Uint32_PutUint32 (ChannelId p2))
      by assumption. now rewrite Hid. }
  assert (Hlen' : len (Data p1) = len (Data p2)).
  { pose proof (data_len_is_uint32 _ Hd1) as U1.
    pose proof (data_len_is_uint32 _ Hd2) as U2.
    rewrite <- (to_uint32_small _ U1), <- (to_uint32_small _ U2).
    rewrite <- (Uint32_PutUint32 (to_uint32 (len (Data p1)))),
      <- (Uint32_PutUint32 (to_uint32 (len (Data p2))));
      [now rewrite Hlen| |]; rewrite to_uint32_small; assumption. }
  apply app_inj_1 in E as [Hdata Hr]; [|unfold len in Hlen'; lia].
  repeat split; try assumption.
  unfold wire. now rewrite Hs, Hp, Hid', Hdata.
Qed.

Lemma CreateNetPacket_unique_decoding_witness :
  Status echo_packet = Status echo_packet /\ Path echo_packet = Path echo_packet
  /\ ChannelId echo_packet = ChannelId echo_packet
  /\ Data echo_packet = Data echo_packet /\ [1; 2] = [1; 2]
  /\ wire echo_packet = wire echo_packet.
Proof.
  apply (CreateNetPacket_unique_decoding echo_packet echo_packet
           (wire echo_packet) (wire echo_packet) [1; 2] [1; 2]).
  - reflexivity.
  - reflexivity.
  - apply not_elem_of_echo_path.
  - apply not_elem_of_echo_path.
  - unfold is_uint32. simpl. lia.
  - unfold is_uint32. simpl. lia.
  - reflexivity.
Defined.

(** ** Channels of the table are open *)

Lemma table_open_with_chan w m g :
  keeps_open g -> table_open w -> table_open (with_chan m g w).
Proof.
  intros Hg Hw k p ch Hk. simpl in *. rewrite lookup_alter. case_decide as Hp.
  - subst p. destruct (heap w !! m) as [c|] eqn:Hm; [|discriminate].
    intros [= <-]. destruct (Hg c) as [-> ->]. eapply Hw; eauto.
  - intros Hch. eapply Hw; eauto.
Qed.

Lemma table_open_with_conn w f :
  framed f -> table_open w -> table_open (with_conn f w).
Proof.
  intros Hf Hw k p ch. simpl. destruct (Hf (conn w)) as (_ & _ & -> & _). apply Hw.
Qed.

Lemma keeps_open_count_sent : keeps_open count_sent.
Proof. intros c. simpl. auto. Qed.

Lemma keeps_open_count_written n : keeps_open (count_written n).
Proof. intros c. simpl. auto. Qed.

Lemma keeps_open_set_pktWhole q : keeps_open (set_pktWhole q).
Proof. intros c. simpl. auto. Qed.

Lemma keeps_open_set_receivedQueue q : keeps_open (set_receivedQueue q).
Proof. intros c. simpl. auto. Qed.

Lemma keeps_open_note_received s n pkt : keeps_open (note_received s n pkt).
Proof. intros c. simpl. auto. Qed.

Lemma table_open_SendPacket w m pkt :
  table_open w -> table_open (fst (SendPacket w m pkt)).
Proof.
  intros Hw. unfold SendPacket, SendPacket_limit.
  destruct (heap w !! m) as [ch|]; [|assumption].
  destruct (chan_err ch); [assumption|].
  destruct (len (Data pkt) <=? MaxPacketSize).
  - simpl. apply table_open_with_chan; [apply keeps_open_count_sent|].
    apply table_open_with_conn; [apply framed_enqueue|assumption].
  - destruct (sendLoop _ _ _ _ _ _ _ _) as [chunks ex].
    assert (table_open (with_conn (enqueue_all chunks) w))
      by (apply table_open_with_conn; [apply framed_enqueue_all|assumption]).
    destruct ex; simpl; try assumption.
    apply table_open_with_chan; [apply keeps_open_count_sent|assumption].
Qed.

Lemma table_open_ChannelClose w m err :
  consistent w -> table_open w -> table_open (fst (ChannelClose w m err)).
Proof.
  intros Hc Hw. destruct (heap w !! m) as [ch|] eqn:Hm.
  2:{ now rewrite ChannelClose_dangling. }
  destruct (cons_heap w Hc _ _ Hm) as (Hlock & _).
  rewrite (ChannelClose_eq w m ch err Hm Hlock). simpl.
  intros k p c. simpl. rewrite lookup_delete. case_decide as Hk; [discriminate|].
  intros Hkp. rewrite lookup_insert. case_decide as Hp.
  - subst p. destruct (cons_table w Hc _ _ Hkp) as (c' & Hc' & Hid).
    rewrite Hm in Hc'. injection Hc' as <-. congruence.
  - intros Hpc. eapply Hw; eauto.
Qed.

Lemma table_open_newChannel ord w :
  consistent w -> table_open w -> table_open (snd (newChannel ord w false)).
Proof.
  intros Hc Hw. unfold newChannel.
  assert (Hfresh : heap w !! fresh (dom (heap w)) = None).
  { apply not_elem_of_dom. apply is_fresh. }
  set (p := fresh (dom (heap w))) in *.
  destruct (makeNewChannelId ord (conn w)) as [id cn] eqn:Hid.
  assert (Htab : Channels cn = Channels (conn w)).
  { revert Hid. unfold makeNewChannelId.
    destruct (0 <? Z.of_nat (size (FreeChannleId (conn w)))).
    - destruct (ord (elements (FreeChannleId (conn w)))); now intros [= <- <-].
    - destruct (MaxChannelId (conn w) <? MaxUint32); now intros [= <- <-]. }
  simpl. intros k q c. simpl. rewrite Htab.
  rewrite !lookup_insert. case_decide as Hk.
  - intros [= <-]. rewrite decide_True by reflexivity. intros [= <-]. simpl. auto.
  - intros Hkq. case_decide as Hq.
    + subst q. destruct (cons_table w Hc _ _ Hkq) as (c' & Hc' & _). congruence.
    + intros Hqc. eapply Hw; eauto.
Qed.

Lemma table_open_empty w : Channels (conn w) = ∅ -> table_open w.
Proof. intros E k p ch. rewrite E, lookup_empty. discriminate. Qed.

Lemma table_open_readLoop_body ord check w input :
  fair ord -> consistent w -> table_open w ->
  table_open (fst (readLoop_body ord check w input)).
Proof.
  intros Hfair Hc Hw. unfold readLoop_body.
  destruct (conn_err (conn w)); [assumption|].
  destruct (readFrame check w input) as [p pkt rest|e]; simpl.
  - apply table_open_with_chan; [apply keeps_open_note_received|assumption].
  - apply table_open_empty. now apply ConnectionClose_table.
Qed.

Lemma table_open_log_handled m arg completed w :
  table_open w -> table_open (log_handled m arg completed w).
Proof. intros Hw. exact Hw. Qed.

Lemma table_open_log_responded m whole w :
  table_open w -> table_open (log_responded m whole w).
Proof. intros Hw. exact Hw. Qed.

Lemma table_open_handleServerLoop_body Handle ErrorResponseData w m :
  consistent w -> table_open w ->
  table_open (handleServerLoop_body Handle ErrorResponseData w m).
Proof.
  intros Hc Hw. unfold handleServerLoop_body.
  destruct (heap w !! m) as [ch|] eqn:Hm; [|assumption].
  destruct (receivedQueue ch) as [|pkt queue] eqn:Hq; [assumption|].
  destruct (cons_heap w Hc _ _ Hm) as (_ & _ & Hok). rewrite Hq in Hok.
  apply Forall_cons in Hok as [_ Hok].
  assert (H0 : table_open (with_chan m (set_receivedQueue queue) w))
    by (apply table_open_with_chan; [apply keeps_open_set_receivedQueue|assumption]).
  assert (H0c : consistent (with_chan m (set_receivedQueue queue) w))
    by (apply consistent_with_chan; [now apply quiet_set_receivedQueue|assumption]).
  destruct (Status pkt =? Status8); [now apply table_open_ChannelClose|].
  destruct (Handle m pkt (isClientStatusCompleted (Status pkt))) as [ret err].
  destruct (needs_error_response err); [|destruct ret]; cbv beta iota zeta;
    repeat match goal with
           | |- table_open (if ?b then _ else _) => destruct b
           | |- table_open (match ?x with _ => _ end) => destruct x
           | |- table_open (with_chan _ (set_pktWhole _) _) =>
               apply table_open_with_chan; [apply keeps_open_set_pktWhole|]
           | |- table_open (fst (SendPacket _ _ _)) => apply table_open_SendPacket
           | |- table_open (log_handled _ _ _ _) => apply table_open_log_handled
           | |- table_open _ => assumption
           end.
Qed.

Lemma table_open_handleClientLoop_body hasResponseChan w m :
  consistent w -> table_open w ->
  table_open (handleClientLoop_body hasResponseChan w m).
Proof.
  intros Hc Hw. unfold handleClientLoop_body.
  destruct (heap w !! m) as [ch|] eqn:Hm; [|assumption].
  destruct (receivedQueue ch) as [|pkt queue] eqn:Hq; [assumption|].
  destruct (cons_heap w Hc _ _ Hm) as (_ & _ & Hok). rewrite Hq in Hok.
  apply Forall_cons in Hok as [_ Hok].
  assert (H0 : table_open (with_chan m (set_receivedQueue queue) w))
    by (apply table_open_with_chan; [apply keeps_open_set_receivedQueue|assumption]).
  assert (H0c : consistent (with_chan m (set_receivedQueue queue) w))
    by (apply consistent_with_chan; [now apply quiet_set_receivedQueue|assumption]).
  destruct (Status pkt =? Status8); [now apply table_open_ChannelClose|].
  cbv beta iota zeta.
  repeat match goal with
         | |- table_open (if ?b then _ else _) => destruct b
         | |- table_open (with_chan _ (set_pktWhole _) _) =>
             apply table_open_with_chan; [apply keeps_open_set_pktWhole|]
         | |- table_open (log_handled _ _ _ _) => apply table_open_log_handled
         | |- table_open (log_responded _ _ _) => apply table_open_log_responded
         | |- table_open _ => assumption
         end.
Qed.

Lemma table_open_NewConnection ord role writeQueueLen w :
  NewConnection ord role writeQueueLen = inl w -> table_open w.
Proof.
  unfold NewConnection.
  destruct (negb (role =? RoleClient) && negb (role =? RoleServer)); [discriminate|].
  intros [= <-]. unfold newChannel. simpl. intros k p ch. simpl.
  rewrite !lookup_insert. case_decide; [|now rewrite lookup_empty].
  intros [= <-]. rewrite decide_True by reflexivity. intros [= <-]. simpl. auto.
Qed.

Lemma table_open_step w o :
  op_fair o -> consistent w -> table_open w -> table_open (step w o).
Proof.
  intros Hfair Hc Hw. destruct o; simpl in *.
  - now apply table_open_newChannel.
  - now apply table_open_SendPacket.
  - now apply table_open_ChannelClose.
  - apply table_open_empty. now apply ConnectionClose_table.
  - destruct (Role (conn w) =? RoleClient); now apply table_open_readLoop_body.
  - destruct (Role (conn w) =? RoleServer);
      [now apply table_open_handleServerLoop_body|].
    destruct (Role (conn w) =? RoleClient); [|assumption].
    now apply table_open_handleClientLoop_body.
Qed.

Lemma quiet_count_written n : quiet (count_written n).
Proof. intros c. simpl. auto. Qed.

Lemma framed_set_tcpWriteQueue q : framed (set_tcpWriteQueue q).
Proof. intros c. simpl. auto. Qed.

Lemma WritePacket_state Write w pkt :
  fst (fst (fst (WritePacket Write w pkt))) = w
  \/ exists c n, channel pkt = Some c
       /\ fst (fst (fst (WritePacket Write w pkt))) = with_chan c (count_written n) w.
Proof.
  unfold WritePacket. destruct (CreateNetPacket pkt) as [data|e]; [|now left].
  destruct (Write data); [|now left].
  destruct (channel pkt) as [c|]; [right; eauto|now left].
Qed.

Lemma consistent_WritePacket Write w pkt :
  consistent w -> consistent (fst (fst (fst (WritePacket Write w pkt)))).
Proof.
  intros Hw. destruct (WritePacket_state Write w pkt) as [->|(c & n & _ & ->)];
    [assumption|]. apply consistent_with_chan; [apply quiet_count_written|assumption].
Qed.

Lemma table_open_WritePacket Write w pkt :
  table_open w -> table_open (fst (fst (fst (WritePacket Write w pkt)))).
Proof.
  intros Hw. destruct (WritePacket_state Write w pkt) as [->|(c & n & _ & ->)];
    [assumption|]. apply table_open_with_chan; [apply keeps_open_count_written|assumption].
Qed.

Lemma consistent_writeLoop_body Write ord w :
  consistent w -> consistent (fst (fst (writeLoop_body Write ord w))).
Proof.
  intros Hw. unfold writeLoop_body.
  destruct (tcpWriteQueue (conn w)) as [|pkt queue]; [assumption|].
  pose proof (consistent_WritePacket Write (with_conn (set_tcpWriteQueue queue) w) pkt
                (consistent_with_conn _ _ (framed_set_tcpWriteQueue queue) Hw)) as H.
  destruct (WritePacket Write _ pkt) as [[[w' sent] n] [e|]]; simpl in *;
    [now apply consistent_ConnectionClose|assumption].
Qed.

Lemma table_open_writeLoop_body Write ord w :
  fair ord -> consistent w -> table_open w ->
  table_open (fst (fst (writeLoop_body Write ord w))).
Proof.
  intros Hfair Hc Hw. unfold writeLoop_body.
  destruct (tcpWriteQueue (conn w)) as [|pkt queue]; [assumption|].
  pose proof (consistent_WritePacket Write (with_conn (set_tcpWriteQueue queue) w) pkt
                (consistent_with_conn _ _ (framed_set_tcpWriteQueue queue) Hc)) as H.
  pose proof (table_open_WritePacket Write (with_conn (set_tcpWriteQueue queue) w) pkt
                (table_open_with_conn _ _ (framed_set_tcpWriteQueue queue) Hw)) as H'.
  destruct (WritePacket Write _ pkt) as [[[w' sent] n] [e|]]; simpl in *;
    [|assumption].
  apply table_open_empty. now apply ConnectionClose_table.
Qed.

Lemma reachable_running w : reachable w -> running w.
Proof.
  induction 1; [eapply run_new; eauto|now apply run_step].
Qed.

Lemma running_invariants w : running w -> consistent w /\ table_open w.
Proof.
  induction 1 as [ord role writeQueueLen w Hfair Hnew|w o Hrun [IHc IHo] Hfair
                 |Write ord w Hrun [IHc IHo] Hfair].
  - split; [eapply consistent_NewConnection|eapply table_open_NewConnection]; eauto.
  - split; [now apply consistent_step|now apply table_open_step].
  - split; [now apply consistent_writeLoop_body|now apply table_open_writeLoop_body].
Qed.

Lemma running_new_world role :
  role = RoleClient \/ role = RoleServer -> running (new_world role).
Proof. intros H. now apply reachable_running, reachable_new_world. Qed.

(** Example states of a run, and facts about the example packets. *)
Lemma len_big_data : len big_data = MaxPacketSize + 1.
Proof.
  unfold big_data, len. rewrite length_replicate.
  apply Z2Nat.id. unfold MaxPacketSize. lia.
Qed.

Lemma running_queued_world : running queued_world.
Proof.
  apply (run_step (new_world RoleClient) (OpSendPacket 0%nat echo_packet)).
  - apply running_new_world. now left.
  - exact I.
Qed.


Lemma running_requested_world : running requested_world.
Proof.
  apply (run_step (new_world RoleServer) (OpRead in_order (wire echo_packet))).
  - apply running_new_world. now right.
  - apply fair_in_order.
Qed.

Lemma running_table_entry w k p :
  running w -> Channels (conn w) !! k = Some p ->
  exists ch, heap w !! p = Some ch /\ Id ch = k
             /\ chan_err ch = None /\ chan_closeNotify ch = true.
Proof.
  intros Hrun Hk. destruct (running_invariants w Hrun) as [Hc Ho].
  destruct (cons_table w Hc _ _ Hk) as (ch & Hch & Hid).
  destruct (Ho _ _ _ Hk Hch) as [Herr Hnot]. eauto.
Qed.

(** X3: in every state of a run, the channel that [getChannel] finds under an
    id is a channel object with that id, without a terminal error, with an
    open stop signal and a free latch; the id is between 0 and [MaxChannelId]
    and is not in the free set. *)
Theorem getChannel_open :
  forall (w : World) (channelId : Z) (p : ptr),
    running w -> getChannel w channelId = Some p ->
    exists ch,
      heap w !! p = Some ch /\ Id ch = channelId
      /\ chan_err ch = None /\ chan_closeNotify ch = true /\ chan_closeLock ch = 0
      /\ 0 <= channelId <= MaxChannelId (conn w)
      /\ channelId ∉ FreeChannleId (conn w).
Proof.
  intros w k p Hrun Hget. unfold getChannel in Hget.
  destruct (running_invariants w Hrun) as [Hc _].
  destruct (running_table_entry w k p Hrun Hget) as (ch & Hch & Hid & Herr & Hnot).
  destruct (cons_heap w Hc _ _ Hch) as (Hlock & Hrange & _).
  exists ch. repeat split; try assumption; try lia.
  intros Hfree. destruct (cons_free w Hc _ Hfree) as [_ Hnone]. congruence.
Qed.

Lemma getChannel_open_witness :
  exists ch,
    heap (new_world RoleServer) !! 0%nat = Some ch /\ Id ch = 0
    /\ chan_err ch = None /\ chan_closeNotify ch = true /\ chan_closeLock ch = 0
    /\ 0 <= 0 <= MaxChannelId (conn (new_world RoleServer))
    /\ 0 ∉ FreeChannleId (conn (new_world RoleServer)).
Proof.
  apply (getChannel_open (new_world RoleServer) 0 0%nat).
  - apply running_new_world. now right.
  - reflexivity.
Defined.

(** ** What the reader delivers *)

Lemma testbit_byte_high b n : is_byte b -> 8 <= n -> Z.testbit b n = false.
Proof.
  intros [Hlo Hhi] Hn.
  destruct (Z.eq_dec b 0) as [->|Hnz]; [apply Z.bits_0|].
  apply Z.bits_above_log2; [lia|].
  assert (Z.log2 b < 8); [|lia].
  apply Z.log2_lt_pow2; [lia|]. change (2 ^ 8) with 256. lia.
Qed.

Lemma testbit_shifted_byte b k n :
  is_byte b -> 0 <= k -> 0 <= n ->
  Z.testbit (Z.shiftl b k) n = Z.testbit b (n - k) && (k <=? n) && (n <? k + 8).
Proof.
  intros Hb Hk Hn. destruct (Z.leb_spec k n).
  - rewrite Z.shiftl_spec by lia. destruct (Z.ltb_spec n (k + 8)).
    + now rewrite !andb_true_r.
    + rewrite (testbit_byte_high b (n - k)) by (assumption || lia). reflexivity.
  - rewrite Z.shiftl_spec_low by lia. now rewrite andb_false_r.
Qed.

Lemma PutUint32_Uint32 b :
  Forall is_byte b -> length b = 4%nat -> PutUint32 (Uint32 b) = b.
Proof.
  intros Hb Hlen.
  destruct b as [|b0 [|b1 [|b2 [|b3 [|? ?]]]]]; try discriminate.
  repeat match goal with
         | H : Forall _ (_ :: _) |- _ => apply Forall_cons in H as [? H]
         end.
  assert (Hbit : forall m, 0 <= m ->
            Z.testbit (Uint32 [b0; b1; b2; b3]) m
            = (Z.testbit b3 m && (m <? 8))
              || (Z.testbit b2 (m - 8) && (8 <=? m) && (m <? 16))
              || (Z.testbit b1 (m - 16) && (16 <=? m) && (m <? 24))
              || (Z.testbit b0 (m - 24) && (24 <=? m) && (m <? 32))).
  { intros m Hm. unfold Uint32. rewrite !Z.lor_spec.
    rewrite !testbit_shifted_byte by (assumption || lia).
    destruct (Z.ltb_spec m 8).
    - now rewrite andb_true_r.
    - rewrite (testbit_byte_high b3 m) by (assumption || lia). reflexivity. }
  assert (Hbyte : forall k bk, is_byte bk -> 0 <= k ->
            (forall n, 0 <= n -> n < 8 ->
                       Z.testbit (Uint32 [b0; b1; b2; b3]) (n + k) = Z.testbit bk n) ->
            to_byte (Z.shiftr (Uint32 [b0; b1; b2; b3]) k) = bk).
  { intros k bk Hbk Hk Hn. unfold to_byte. apply Z.bits_inj'. intros n Hn0.
    rewrite Z.land_spec, Z.shiftr_spec, testbit_255 by lia.
    destruct (Z.ltb_spec n 8).
    - rewrite andb_true_r. now apply Hn.
    - rewrite andb_false_r. symmetry. now apply testbit_byte_high. }
  unfold PutUint32.
  rewrite (Hbyte 24 b0), (Hbyte 16 b1), (Hbyte 8 b2); try assumption; try lia.
  - f_equal. f_equal. f_equal. f_equal.
    rewrite <- (Z.shiftr_0_r (Uint32 [b0; b1; b2; b3])).
    apply (Hbyte 0 b3); try assumption; try lia.
    intros n Hn0 Hn8. rewrite Hbit by lia. rewrite Z.add_0_r.
    destruct (Z.ltb_spec n 8), (Z.leb_spec 8 n), (Z.leb_spec 16 n), (Z.leb_spec 24 n);
      try lia. now rewrite !andb_false_r, andb_true_r, !orb_false_r.
  - intros n Hn0 Hn8. rewrite Hbit by lia.
    destruct (Z.ltb_spec (n + 8) 8), (Z.leb_spec 8 (n + 8)), (Z.ltb_spec (n + 8) 16),
      (Z.leb_spec 16 (n + 8)), (Z.leb_spec 24 (n + 8)); try lia.
    replace (n + 8 - 8) with n by lia.
    now rewrite !andb_false_r, !andb_true_r, !orb_false_r.
  - intros n Hn0 Hn8. rewrite Hbit by lia.
    destruct (Z.ltb_spec (n + 16) 8), (Z.leb_spec 8 (n + 16)), (Z.ltb_spec (n + 16) 16),
      (Z.leb_spec 16 (n + 16)), (Z.ltb_spec (n + 16) 24), (Z.leb_spec 24 (n + 16));
      try lia.
    replace (n + 16 - 16) with n by lia.
    now rewrite !andb_false_r, !andb_true_r, !orb_false_r.
  - intros n Hn0 Hn8. rewrite Hbit by lia.
    destruct (Z.ltb_spec (n + 24) 8), (Z.leb_spec 8 (n + 24)), (Z.ltb_spec (n + 24) 16),
      (Z.leb_spec 16 (n + 24)), (Z.ltb_spec (n + 24) 24), (Z.leb_spec 24 (n + 24)),
      (Z.ltb_spec (n + 24) 32); try lia.
    replace (n + 24 - 24) with n by lia.
    now rewrite !andb_false_r, !andb_true_r.
Qed.

Lemma Forall_app_l {A} (P : A -> Prop) l k : Forall P (l ++ k) -> Forall P l.
Proof. intros H. now apply Forall_app in H. Qed.

Lemma Forall_app_r {A} (P : A -> Prop) l k : Forall P (l ++ k) -> Forall P k.
Proof. intros H. now apply Forall_app in H. Qed.

(** X4: a frame that a reader delivers goes to the channel that [getChannel]
    finds under the frame's channel id.  That channel has this id and no
    terminal error, the frame's status may follow the channel's last status,
    the packet handed over points to that channel, its payload is not empty
    and within 16 MiB, its path holds no zero byte and is shorter than the
    read buffer, and its status is not [X8]. *)
Theorem readFrame_delivers_to_open_channel :
  forall (check : Z -> Z -> option error) (w : World) (input : list Z)
         (p : ptr) (pkt : Packet) (rest : list Z),
    running w -> Forall is_byte input ->
    readFrame check w input = Deliver p pkt rest ->
    getChannel w (ChannelId pkt) = Some p
    /\ channel pkt = Some p
    /\ (exists ch, heap w !! p = Some ch /\ Id ch = ChannelId pkt
                   /\ chan_err ch = None
                   /\ check (packetStatus ch) (Status pkt) = None)
    /\ 0 < len (Data pkt) <= MaxPacketSize
    /\ (0 ∉ Path pkt) /\ len (Path pkt) < PacketReadBufSize
    /\ Status pkt <> Status8.
Proof.
  intros check w input p pkt rest Hrun Hbytes Hread.
  apply readFrame_Deliver_inv in Hread
    as (s & path & idb & lb & data & ch & -> & Hs8 & Hnin & Hroom & Lidb & Llb
        & Hget & Hheap & Hchk & Hlen & Ldata & ->); [|assumption].
  cbn [ChannelId channel Data Path Status].
  destruct (running_table_entry w _ _ Hrun Hget) as (ch' & Hch' & Hid & Herr & _).
  rewrite Hheap in Hch'. injection Hch' as <-.
  split; [assumption|]. split; [reflexivity|].
  split; [exists ch; auto|]. split; [lia|]. auto.
Qed.

Lemma readFrame_delivers_to_open_channel_witness :
  getChannel (new_world RoleServer) (ChannelId first_request) = Some 0%nat
  /\ channel first_request = Some 0%nat
  /\ (exists ch, heap (new_world RoleServer) !! 0%nat = Some ch
                 /\ Id ch = ChannelId first_request
                 /\ chan_err ch = None
                 /\ CheckClientPacketStatus (packetStatus ch) (Status first_request) = None)
  /\ 0 < len (Data first_request) <= MaxPacketSize
  /\ (0 ∉ Path first_request) /\ len (Path first_request) < PacketReadBufSize
  /\ Status first_request <> Status8.
Proof.
  apply (readFrame_delivers_to_open_channel CheckClientPacketStatus
           (new_world RoleServer) two_frames 0%nat first_request second_frame).
  - apply running_new_world. now right.
  - repeat (constructor; [unfold is_byte; lia|]). constructor.
  - reflexivity.
Defined.

(** X5: the bytes that a reader takes from its input for a delivered packet
    are the frame of that packet as [CreateNetPacket] lays it out, and their
    number is the number the reader adds to the channel's [ReadBytes]. *)
Theorem readFrame_consumes_frame :
  forall (check : Z -> Z -> option error) (w : World) (input : list Z)
         (p : ptr) (pkt : Packet) (rest : list Z),
    Forall is_byte input ->
    readFrame check w input = Deliver p pkt rest ->
    input = wire pkt ++ rest
    /\ len input - len rest = len (Data pkt) + 1 + len (Path pkt) + 1 + 4 + 4
    /\ (len (Path pkt) <= MaxPathLen -> CreateNetPacket pkt = inl (wire pkt)).
Proof.
  intros check w input p pkt rest Hbytes Hread.
  apply readFrame_Deliver_inv in Hread
    as (s & path & idb & lb & data & ch & -> & Hs8 & Hnin & Hroom & Lidb & Llb
        & Hget & Hheap & Hchk & Hlen & Ldata & ->); [|assumption].
  assert (Hwire : wire (mkPacket PacketTypeResponse s path (Uint32 idb) data (Some p))
                  = s :: path ++ 0 :: idb ++ lb ++ data).
  { unfold wire. cbn [ChannelId channel Data Path Status].
    apply Forall_cons in Hbytes as [_ Hbytes].
    apply Forall_app_r in Hbytes. apply Forall_cons in Hbytes as [_ Hbytes].
    pose proof (Forall_app_l _ _ _ Hbytes) as Hidb.
    apply Forall_app_r in Hbytes. pose proof (Forall_app_l _ _ _ Hbytes) as Hlb.
    rewrite (PutUint32_Uint32 idb) by (assumption || now apply len4).
    rewrite Ldata, to_uint32_small by (unfold is_uint32, MaxPacketSize in *; lia).
    rewrite (PutUint32_Uint32 lb) by (assumption || now apply len4).
    reflexivity. }
  split; [|split].
  - rewrite Hwire. now rewrite frame_app.
  - rewrite <- frame_app, <- Hwire, len_app, len_wire.
    cbn [ChannelId channel Data Path Status]. lia.
  - cbn [ChannelId channel Data Path Status]. intros Hp.
    apply CreateNetPacket_wire; cbn [Data Path]; lia.
Qed.

Lemma readFrame_consumes_frame_witness :
  two_frames = wire first_request ++ second_frame
  /\ len two_frames - len second_frame
     = len (Data first_request) + 1 + len (Path first_request) + 1 + 4 + 4
  /\ (len (Path first_request) <= MaxPathLen ->
      CreateNetPacket first_request = inl (wire first_request)).
Proof.
  apply (readFrame_consumes_frame CheckClientPacketStatus
           (new_world RoleServer) two_frames 0%nat first_request second_frame).
  - repeat (constructor; [unfold is_byte; lia|]). constructor.
  - reflexivity.
Defined.

(** ** The read loops *)




(** ** Fragments *)

Lemma sendLoop_chunks limit role m mId pkt :
  0 < limit -> role = RoleClient \/ role = RoleServer ->
  forall fuel remain first,
    0 < remain <= len (Data pkt) -> (Z.to_nat remain <= fuel)%nat ->
    exists init last,
      fst (sendLoop limit fuel role m mId pkt remain first) = init ++ [last]
      /\ Forall (fun f => Type_ f = Type_ pkt /\ Path f = Path pkt
                          /\ ChannelId f = mId /\ channel f = Some m) (init ++ [last])
      /\ Forall (fun f => len (Data f) = limit) init
      /\ 0 < len (Data last) <= limit
      /\ len (Data last) = remain - limit * len init.
Proof.
  intros Hlimit Hrole. induction fuel as [|fuel IH]; intros remain first Hrem Hfuel.
  { lia. }
  simpl sendLoop.
  assert (Hlast : forall st,
            exists init last,
              [mkPacket (Type_ pkt) st (Path pkt) mId
                 (slice (Data pkt) (len (Data pkt) - remain)
                    (len (Data pkt) - remain + remain)) (Some m)] = init ++ [last]
              /\ Forall (fun f => Type_ f = Type_ pkt /\ Path f = Path pkt
                                  /\ ChannelId f = mId /\ channel f = Some m)
                   (init ++ [last])
              /\ Forall (fun f => len (Data f) = limit) init
              /\ (remain <= limit -> 0 < len (Data last) <= limit)
              /\ len (Data last) = remain - limit * len init).
  { intros st. eexists [], _. split; [reflexivity|]. split.
    { constructor; [|constructor]. simpl. auto. }
    split; [constructor|].
    assert (Hl : len (slice (Data pkt) (len (Data pkt) - remain)
                        (len (Data pkt) - remain + remain)) = remain).
    { rewrite slice_drop_take by lia. unfold len in *.
      rewrite length_take, length_drop. lia. }
    cbn [Data]. rewrite Hl. change (len (@nil Packet)) with 0. split; lia. }
  destruct (Z.ltb_spec remain limit) as [Hsmall|Hbig].
  - rewrite chunk_status_last by assumption.
    replace (remain - remain <=? 0) with true by (symmetry; apply Z.leb_le; lia).
    cbn [fst]. destruct (Hlast (if first then by_role role StatusC1 StatusS5
                                else by_role role StatusC3 StatusS7))
      as (init & last & E & H1 & H2 & H3 & H4).
    exists init, last. repeat split; try assumption; apply H3; lia.
  - destruct (Z.eq_dec remain limit) as [Heq|Hne].
    + rewrite <- Heq. rewrite chunk_status_last by assumption.
      replace (remain - remain <=? 0) with true by (symmetry; apply Z.leb_le; lia).
      cbn [fst]. destruct (Hlast (if first then by_role role StatusC1 StatusS5
                                  else by_role role StatusC3 StatusS7))
        as (init & last & E & H1 & H2 & H3 & H4).
      exists init, last. rewrite <- Heq in *.
      repeat split; try assumption; apply H3; lia.
    + rewrite chunk_status_more by (assumption || lia).
      destruct (Z.leb_spec (remain - limit) 0) as [|Hpos]; [lia|].
      destruct (IH (remain - limit) false ltac:(lia) ltac:(lia))
        as (init & last & Hloop & Hf & Hfull & Hl & Hrest).
      destruct (sendLoop limit fuel role m mId pkt (remain - limit) false)
        as [rest ex]. cbn [fst] in *. subst rest.
      eexists (_ :: init), last. split; [reflexivity|].
      split; [|split; [|split]].
      * constructor; [simpl; auto|assumption].
      * constructor; [|assumption]. cbn [Data].
        rewrite slice_drop_take by lia. unfold len in *.
        rewrite length_take, length_drop. lia.
      * assumption.
      * rewrite Hrest. unfold len. simpl length. lia.
Qed.

(** X7: for data of more than 16 MiB on an open channel of a client or server
    connection, [SendPacket] puts on the outbound queue fragments that all
    carry the packet's type and path, the id of the channel (whatever channel
    id the packet itself names) and a pointer to the channel.  Every fragment
    but the last carries exactly 16 MiB and the last one the rest, at least
    one byte; the channel's [WritePacketCount] grows by one for the whole
    message. *)
Theorem SendPacket_fragment_fields :
  forall (w : World) (m : ptr) (ch : Channel) (pkt : Packet),
    heap w !! m = Some ch -> chan_err ch = None ->
    Role (conn w) = RoleClient \/ Role (conn w) = RoleServer ->
    MaxPacketSize < len (Data pkt) ->
    exists init last,
      tcpWriteQueue (conn (fst (SendPacket w m pkt)))
      = tcpWriteQueue (conn w) ++ init ++ [last]
      /\ Forall (fun f => Type_ f = Type_ pkt /\ Path f = Path pkt
                          /\ ChannelId f = Id ch /\ channel f = Some m) (init ++ [last])
      /\ Forall (fun f => len (Data f) = MaxPacketSize) init
      /\ 0 < len (Data last) <= MaxPacketSize
      /\ len (Data pkt) = MaxPacketSize * len init + len (Data last)
      /\ heap (fst (SendPacket w m pkt)) !! m = Some (count_sent ch).
Proof.
  intros w m ch pkt Hm Herr Hrole Hbig.
  destruct (SendPacket_fragments w m ch pkt Hm Herr Hrole Hbig)
    as (first & rest & Hsend & _).
  destruct (sendLoop_chunks MaxPacketSize (Role (conn w)) m (Id ch) pkt
              ltac:(unfold MaxPacketSize; lia) Hrole
              (Z.to_nat (len (Data pkt))) (len (Data pkt)) true
              ltac:(unfold MaxPacketSize in *; lia) ltac:(lia))
    as (init & last & Hchunks & Hf & Hfull & Hl & Hrest).
  assert (Hq : first :: rest = init ++ [last]).
  { revert Hsend Hchunks. unfold SendPacket, SendPacket_limit. rewrite Hm, Herr.
    destruct (Z.leb_spec (len (Data pkt)) MaxPacketSize); [lia|].
    destruct (sendLoop _ _ _ _ _ _ _ _) as [chunks ex]. cbn [fst].
    intros Hsend <-.
    apply (f_equal (fun x => tcpWriteQueue (conn (fst x)))) in Hsend.
    destruct ex; simpl in Hsend; apply app_inv_head in Hsend; congruence. }
  exists init, last. rewrite Hsend. cbn [fst]. simpl tcpWriteQueue. rewrite Hq.
  split; [reflexivity|]. split; [assumption|]. split; [assumption|].
  split; [assumption|]. split; [lia|].
  simpl. now rewrite lookup_alter_eq, Hm.
Qed.

Lemma SendPacket_fragment_fields_witness :
  exists init last,
    tcpWriteQueue (conn (fst (SendPacket (new_world RoleServer) 0%nat big_packet)))
    = tcpWriteQueue (conn (new_world RoleServer)) ++ init ++ [last]
    /\ Forall (fun f => Type_ f = Type_ big_packet /\ Path f = Path big_packet
                        /\ ChannelId f = Id (fresh_Channel 0) /\ channel f = Some 0%nat)
         (init ++ [last])
    /\ Forall (fun f => len (Data f) = MaxPacketSize) init
    /\ 0 < len (Data last) <= MaxPacketSize
    /\ len (Data big_packet) = MaxPacketSize * len init + len (Data last)
    /\ heap (fst (SendPacket (new_world RoleServer) 0%nat big_packet)) !! 0%nat
       = Some (count_sent (fresh_Channel 0)).
Proof.
  apply (SendPacket_fragment_fields (new_world RoleServer) 0%nat (fresh_Channel 0)
           big_packet).
  - reflexivity.
  - reflexivity.
  - right. reflexivity.
  - change (Data big_packet) with big_data. rewrite len_big_data. lia.
Defined.

(** ** Closing, sending, and opening again *)

(** X8: after [Close] of a channel, with any error or none, [SendPacket] on
    that channel returns an error that wraps the stored one and changes
    nothing; the channel's id is no longer in the channel table and is in the
    free set. *)
Theorem ChannelClose_then_SendPacket :
  forall (w : World) (m : ptr) (ch : Channel) (err : option error) (pkt : Packet),
    running w -> heap w !! m = Some ch ->
    SendPacket (fst (ChannelClose w m err)) m pkt
    = (fst (ChannelClose w m err), Some (ErrChannelInvalid (default ErrUnknown err)))
    /\ getChannel (fst (ChannelClose w m err)) (Id ch) = None
    /\ Id ch ∈ FreeChannleId (conn (fst (ChannelClose w m err)))
    /\ chan_err <$> heap (fst (ChannelClose w m err)) !! m
       = Some (Some (default ErrUnknown err)).
Proof.
  intros w m ch err pkt Hrun Hm.
  destruct (running_invariants w Hrun) as [Hc _].
  destruct (cons_heap w Hc _ _ Hm) as (Hlock & _).
  rewrite (ChannelClose_eq w m ch err Hm Hlock). cbn [fst].
  split; [|split; [|split]].
  - apply (SendPacket_closed _ m (closed_Channel err ch)); [|reflexivity].
    apply lookup_insert_eq.
  - unfold getChannel. simpl. apply lookup_delete_eq.
  - simpl. apply elem_of_union. left. now apply elem_of_singleton.
  - simpl. now rewrite lookup_insert_eq.
Qed.

Lemma ChannelClose_then_SendPacket_witness :
  SendPacket (fst (ChannelClose (new_world RoleClient) 0%nat (Some ErrUnknown))) 0%nat
    echo_packet
  = (fst (ChannelClose (new_world RoleClient) 0%nat (Some ErrUnknown)),
     Some (ErrChannelInvalid (default ErrUnknown (Some ErrUnknown))))
  /\ getChannel (fst (ChannelClose (new_world RoleClient) 0%nat (Some ErrUnknown)))
       (Id (fresh_Channel 0)) = None
  /\ Id (fresh_Channel 0)
     ∈ FreeChannleId (conn (fst (ChannelClose (new_world RoleClient) 0%nat (Some ErrUnknown))))
  /\ chan_err <$> heap (fst (ChannelClose (new_world RoleClient) 0%nat (Some ErrUnknown)))
                    !! 0%nat
     = Some (Some (default ErrUnknown (Some ErrUnknown))).
Proof.
  apply (ChannelClose_then_SendPacket (new_world RoleClient) 0%nat (fresh_Channel 0)
           (Some ErrUnknown) echo_packet).
  - apply running_new_world. now left.
  - reflexivity.
Defined.

Lemma elements_singleton_order (ord : range_order) (k : Z) :
  fair ord -> ord (elements ({[ k ]} : gset Z)) = [k].
Proof.
  intros Hfair. pose proof (Hfair (elements ({[ k ]} : gset Z))) as H.
  rewrite elements_singleton in H. rewrite elements_singleton.
  now apply Permutation_singleton_r in H.
Qed.

Lemma makeNewChannelId_recycles ord k cn :
  fair ord -> FreeChannleId cn = {[ k ]} ->
  makeNewChannelId ord cn = (k, set_alloc (MaxChannelId cn) ∅ cn).
Proof.
  intros Hfair Hfree. unfold makeNewChannelId. rewrite Hfree, size_singleton.
  simpl. rewrite elements_singleton_order by assumption.
  f_equal. f_equal. apply difference_diag_L.
Qed.

Lemma recycled_state :
  forall (ord : range_order) (w : World) (m : ptr) (ch : Channel) (e : error),
    fair ord -> running w -> heap w !! m = Some ch ->
    FreeChannleId (conn w) = ∅ ->
    let w1 := fst (ChannelClose w m (Some e)) in
    let p := fst (newChannel ord w1 false) in
    let w2 := snd (newChannel ord w1 false) in
    p <> m
    /\ getChannel w2 (Id ch) = Some p
    /\ heap w2 !! p = Some (fresh_Channel (Id ch))
    /\ heap w2 !! m = Some (closed_Channel (Some e) ch)
    /\ MaxChannelId (conn w2) = MaxChannelId (conn w)
    /\ FreeChannleId (conn w2) = ∅.
Proof.
  intros ord w m ch e Hfair Hrun Hm Hfree.
  destruct (running_invariants w Hrun) as [Hc _].
  destruct (cons_heap w Hc _ _ Hm) as (Hlock & _).
  cbv zeta. rewrite (ChannelClose_eq w m ch (Some e) Hm Hlock). cbn [fst].
  unfold newChannel. cbn [heap conn].
  rewrite (makeNewChannelId_recycles ord (Id ch)); [|assumption|].
  2:{ simpl. rewrite Hfree. apply union_empty_r_L. }
  cbn [fst snd heap conn].
  assert (Hp : fresh (dom (<[m:=closed_Channel (Some e) ch]> (heap w))) <> m).
  { intros E. pose proof (is_fresh (dom (<[m:=closed_Channel (Some e) ch]> (heap w)))) as Hf.
    rewrite E in Hf. apply Hf. apply elem_of_dom. rewrite lookup_insert_eq. eauto. }
  split; [assumption|]. split; [|split; [|split; [|split]]].
  - unfold getChannel. simpl. apply lookup_insert_eq.
  - apply lookup_insert_eq.
  - rewrite lookup_insert_ne by assumption. apply lookup_insert_eq.
  - reflexivity.
  - reflexivity.
Qed.

(** X9: ids are recycled.  In a state of a run with an empty free set, after
    [Close] of a channel the next [newChannel] makes a new channel object
    with the id of the closed one, files it under that id, and leaves
    [MaxChannelId] as it was and the free set empty; the closed channel
    object keeps its stored error. *)
Theorem newChannel_recycles_id :
  forall (ord : range_order) (w : World) (m : ptr) (ch : Channel) (e : error),
    fair ord -> running w -> heap w !! m = Some ch ->
    FreeChannleId (conn w) = ∅ ->
    let w1 := fst (ChannelClose w m (Some e)) in
    let p := fst (newChannel ord w1 false) in
    let w2 := snd (newChannel ord w1 false) in
    p <> m
    /\ getChannel w2 (Id ch) = Some p
    /\ heap w2 !! p = Some (fresh_Channel (Id ch))
    /\ heap w2 !! m = Some (closed_Channel (Some e) ch)
    /\ MaxChannelId (conn w2) = MaxChannelId (conn w)
    /\ FreeChannleId (conn w2) = ∅.
Proof. exact recycled_state. Qed.

Lemma newChannel_recycles_id_witness :
  fst (newChannel in_order
         (fst (ChannelClose (new_world RoleClient) 0%nat (Some ErrUnknown))) false)
  <> 0%nat
  /\ getChannel
       (snd (newChannel in_order
               (fst (ChannelClose (new_world RoleClient) 0%nat (Some ErrUnknown))) false))
       (Id (fresh_Channel 0))
     = Some (fst (newChannel in_order
                    (fst (ChannelClose (new_world RoleClient) 0%nat (Some ErrUnknown)))
                    false))
  /\ heap (snd (newChannel in_order
                  (fst (ChannelClose (new_world RoleClient) 0%nat (Some ErrUnknown)))
                  false))
       !! fst (newChannel in_order
                 (fst (ChannelClose (new_world RoleClient) 0%nat (Some ErrUnknown))) false)
     = Some (fresh_Channel (Id (fresh_Channel 0)))
  /\ heap (snd (newChannel in_order
                  (fst (ChannelClose (new_world RoleClient) 0%nat (Some ErrUnknown)))
                  false)) !! 0%nat
     = Some (closed_Channel (Some ErrUnknown) (fresh_Channel 0))
  /\ MaxChannelId
       (conn (snd (newChannel in_order
                     (fst (ChannelClose (new_world RoleClient) 0%nat (Some ErrUnknown)))
                     false)))
     = MaxChannelId (conn (new_world RoleClient))
  /\ FreeChannleId
       (conn (snd (newChannel in_order
                     (fst (ChannelClose (new_world RoleClient) 0%nat (Some ErrUnknown)))
                     false)))
     = ∅.
Proof.
  apply (newChannel_recycles_id in_order (new_world RoleClient) 0%nat (fresh_Channel 0)
           ErrUnknown).
  - apply fair_in_order.
  - apply running_new_world. now left.
  - reflexivity.
  - reflexivity.
Defined.

(** X10: a [Close] on a channel object removes whatever channel is filed
    under its id.  After a closed channel's id has been recycled for a new
    channel, a further [Close] on the closed channel object takes the new
    channel out of the channel table and puts its id into the free set,
    although the new channel has no error: [getChannel] no longer finds it. *)
Theorem stale_Close_evicts_new_channel :
  forall (ord : range_order) (w : World) (m : ptr) (ch : Channel) (e e' : error),
    fair ord -> running w -> heap w !! m = Some ch ->
    FreeChannleId (conn w) = ∅ ->
    let w1 := fst (ChannelClose w m (Some e)) in
    let p := fst (newChannel ord w1 false) in
    let w2 := snd (newChannel ord w1 false) in
    let w3 := fst (ChannelClose w2 m (Some e')) in
    getChannel w2 (Id ch) = Some p
    /\ getChannel w3 (Id ch) = None
    /\ heap w3 !! p = Some (fresh_Channel (Id ch))
    /\ chan_err (fresh_Channel (Id ch)) = None
    /\ Id ch ∈ FreeChannleId (conn w3)
    /\ tcpWriteQueue (conn w3) = tcpWriteQueue (conn w2).
Proof.
  intros ord w m ch e e' Hfair Hrun Hm Hfree.
  destruct (recycled_state ord w m ch e Hfair Hrun Hm Hfree)
    as (Hp & Hget & Hnew & Hold & _ & _).
  cbv zeta. split; [assumption|].
  rewrite (ChannelClose_eq _ m (closed_Channel (Some e) ch) (Some e') Hold eq_refl).
  cbn [fst]. split; [|split; [|split; [|split]]].
  - unfold getChannel. simpl. apply lookup_delete_eq.
  - simpl. rewrite lookup_insert_ne by congruence. exact Hnew.
  - reflexivity.
  - simpl. apply elem_of_union. left. now apply elem_of_singleton.
  - simpl. apply app_nil_r.
Qed.

Lemma stale_Close_evicts_new_channel_witness :
  getChannel
    (snd (newChannel in_order
            (fst (ChannelClose (new_world RoleClient) 0%nat (Some ErrUnknown))) false))
    (Id (fresh_Channel 0))
  = Some (fst (newChannel in_order
                 (fst (ChannelClose (new_world RoleClient) 0%nat (Some ErrUnknown)))
                 false))
  /\ getChannel
       (fst (ChannelClose
               (snd (newChannel in_order
                       (fst (ChannelClose (new_world RoleClient) 0%nat (Some ErrUnknown)))
                       false))
               0%nat (Some ErrEOF)))
       (Id (fresh_Channel 0)) = None
  /\ heap (fst (ChannelClose
                  (snd (newChannel in_order
                          (fst (ChannelClose (new_world RoleClient) 0%nat
                                  (Some ErrUnknown))) false))
                  0%nat (Some ErrEOF)))
       !! fst (newChannel in_order
                 (fst (ChannelClose (new_world RoleClient) 0%nat (Some ErrUnknown))) false)
     = Some (fresh_Channel (Id (fresh_Channel 0)))
  /\ chan_err (fresh_Channel (Id (fresh_Channel 0))) = None
  /\ Id (fresh_Channel 0)
     ∈ FreeChannleId
         (conn (fst (ChannelClose
                       (snd (newChannel in_order
                               (fst (ChannelClose (new_world RoleClient) 0%nat
                                       (Some ErrUnknown))) false))
                       0%nat (Some ErrEOF))))
  /\ tcpWriteQueue
       (conn (fst (ChannelClose
                     (snd (newChannel in_order
                             (fst (ChannelClose (new_world RoleClient) 0%nat
                                     (Some ErrUnknown))) false))
                     0%nat (Some ErrEOF))))
     = tcpWriteQueue
         (conn (snd (newChannel in_order
                       (fst (ChannelClose (new_world RoleClient) 0%nat (Some ErrUnknown)))
                       false))).
Proof.
  apply (stale_Close_evicts_new_channel in_order (new_world RoleClient) 0%nat
           (fresh_Channel 0) ErrUnknown ErrEOF).
  - apply fair_in_order.
  - apply running_new_world. now left.
  - reflexivity.
  - reflexivity.
Defined.

(** ** Connection.Close and the channels of the table *)






(** ** Frames without a payload *)

(** A frame with an empty payload is refused by the reader, whatever the
    connection it arrives on. *)
Lemma empty_frame_aborts check w pkt rest :
  len (Path pkt) <= MaxPathLen -> 0 ∉ Path pkt -> Data pkt = [] ->
  exists e, readFrame check w (wire pkt ++ rest) = Abort e.
Proof.
  intros Hlen Hnin Hdata. unfold wire. rewrite Hdata, frame_app.
  unfold readFrame, ReadByte. cbv beta iota.
  destruct (Status pkt =? Status8); [eauto|].
  unfold ReadSlice. rewrite (ReadSlice_room_app 0 (Path pkt)).
  2:{ assumption. }
  2:{ unfold MaxPathLen, PacketReadBufSize in *. lia. }
  rewrite (ReadFull_app 4 (PutUint32 (ChannelId pkt))) by apply len_PutUint32.
  destruct (getChannel w _) as [p|]; [|eauto].
  destruct (heap w !! p) as [ch|]; [|eauto].
  destruct (check _ _); [eauto|].
  rewrite (ReadFull_app 4 (PutUint32 (to_uint32 (len [])))) by apply len_PutUint32.
  change (Uint32 (PutUint32 (to_uint32 (len (@nil Z))))) with 0.
  simpl. eauto.
Qed.

Lemma close_frame_wire role m ch :
  CreateNetPacket (close_frame role m ch) = inl (wire (close_frame role m ch))
  /\ Path (close_frame role m ch) = [] /\ Data (close_frame role m ch) = []
  /\ channel (close_frame role m ch) = Some m.
Proof.
  unfold close_frame.
  destruct (role =? RoleClient); [|destruct (role =? RoleServer)];
    (split; [apply CreateNetPacket_wire; unfold len, MaxPathLen, MaxPacketSize; simpl; lia|]);
    auto.
Qed.

(** X12: [SendPacket] accepts a packet with an empty payload on an open
    channel: it returns [nil] and queues one frame.  [CreateNetPacket] encodes
    that frame, and a reader that is given its bytes, on any connection and
    whatever follows them, does not deliver it: the round ends in an error,
    on which the reader closes its connection. *)
Theorem SendPacket_empty_payload_refused_by_reader :
  forall (check : Z -> Z -> option error) (w peer : World) (m : ptr) (ch : Channel)
         (pkt : Packet) (rest : list Z),
    heap w !! m = Some ch -> chan_err ch = None ->
    len (Path pkt) <= MaxPathLen -> 0 ∉ Path pkt -> Data pkt = [] ->
    exists f bytes e,
      SendPacket w m pkt = (with_chan m count_sent (with_conn (enqueue f) w), None)
      /\ CreateNetPacket f = inl bytes
      /\ readFrame check peer (bytes ++ rest) = Abort e.
Proof.
  intros check w peer m ch pkt rest Hm Herr Hlen Hnin Hdata.
  assert (Hsmall : len (Data pkt) <= MaxPacketSize).
  { rewrite Hdata. unfold len, MaxPacketSize. simpl. lia. }
  rewrite (SendPacket_single w m ch pkt Hm Herr Hsmall).
  set (f := if Role (conn w) =? RoleClient then set_Status 1 pkt
            else if Role (conn w) =? RoleServer then set_Status 5 pkt else pkt).
  assert (Hf : Path f = Path pkt /\ Data f = Data pkt).
  { unfold f. destruct (_ =? RoleClient); [|destruct (_ =? RoleServer)]; now split. }
  destruct Hf as [Hp Hd].
  destruct (empty_frame_aborts check peer f rest) as [e He]; try congruence.
  exists f, (wire f), e. split; [reflexivity|]. split; [|assumption].
  apply CreateNetPacket_wire; congruence.
Qed.

Lemma SendPacket_empty_payload_refused_by_reader_witness :
  exists f bytes e,
    SendPacket (new_world RoleClient) 0%nat empty_packet
    = (with_chan 0%nat count_sent (with_conn (enqueue f) (new_world RoleClient)), None)
    /\ CreateNetPacket f = inl bytes
    /\ readFrame CheckClientPacketStatus (new_world RoleServer) (bytes ++ [1; 2]) = Abort e.
Proof.
  apply (SendPacket_empty_payload_refused_by_reader CheckClientPacketStatus
           (new_world RoleClient) (new_world RoleServer) 0%nat (fresh_Channel 0)
           empty_packet [1; 2]).
  - reflexivity.
  - reflexivity.
  - vm_compute. discriminate.
  - apply not_elem_of_slash_a.
  - reflexivity.
Defined.

(** X13: the frame of [Channel.Close] on the wire.  After [Close] of an open
    channel on a connection with an empty outbound queue, the next round of
    the writer writes a frame of ten bytes and goes on; a reader that is given
    these bytes, whatever its channels and whatever follows, closes its
    connection. *)
Theorem ChannelClose_frame_closes_peer :
  forall (ord ord' : range_order) (check : Z -> Z -> option error) (w peer : World)
         (m : ptr) (ch : Channel) (e : error) (rest : list Z),
    running w -> heap w !! m = Some ch -> chan_err ch = None ->
    tcpWriteQueue (conn w) = [] -> conn_err (conn peer) = None ->
    exists w' bytes e',
      writeLoop_body takes_all ord (fst (ChannelClose w m (Some e))) = (w', bytes, true)
      /\ len bytes = 10
      /\ tcpWriteQueue (conn w') = []
      /\ readLoop_body ord' check peer (bytes ++ rest)
         = (ConnectionClose ord' peer (Some e'), None).
Proof.
  intros ord ord' check w peer m ch e rest Hrun Hm Herr Hq Hpeer.
  destruct (running_invariants w Hrun) as [Hc _].
  destruct (cons_heap w Hc _ _ Hm) as (Hlock & _).
  rewrite (ChannelClose_eq w m ch (Some e) Hm Hlock). cbn [fst].
  destruct (close_frame_wire (Role (conn w)) m ch) as (Hwire & Hpath & Hdata & Hchan).
  set (f := close_frame (Role (conn w)) m ch) in *.
  destruct (empty_frame_aborts check peer f rest) as [e' He'].
  { rewrite Hpath. unfold len, MaxPathLen. simpl. lia. }
  { rewrite Hpath. apply not_elem_of_nil. }
  { assumption. }
  unfold writeLoop_body. cbn [conn]. simpl tcpWriteQueue. rewrite Hq, Herr.
  simpl app. fold f. cbv zeta. unfold WritePacket. rewrite Hwire. simpl takes_all.
  cbv beta iota. rewrite Hchan.
  eexists _, (wire f), e'. split; [reflexivity|].
  split; [|split].
  - rewrite len_wire, Hpath, Hdata. reflexivity.
  - reflexivity.
  - now apply readLoop_body_Abort.
Qed.

Lemma ChannelClose_frame_closes_peer_witness :
  exists w' bytes e',
    writeLoop_body takes_all in_order
      (fst (ChannelClose (new_world RoleClient) 0%nat (Some ErrUnknown)))
    = (w', bytes, true)
    /\ len bytes = 10
    /\ tcpWriteQueue (conn w') = []
    /\ readLoop_body in_order CheckClientPacketStatus (new_world RoleServer) (bytes ++ [1; 2])
       = (ConnectionClose in_order (new_world RoleServer) (Some e'), None).
Proof.
  apply (ChannelClose_frame_closes_peer in_order in_order CheckClientPacketStatus
           (new_world RoleClient) (new_world RoleServer) 0%nat (fresh_Channel 0)
           ErrUnknown [1; 2]).
  - apply running_new_world. now left.
  - reflexivity.
  - reflexivity.
  - reflexivity.
  - reflexivity.
Defined.

(** ** The writer *)

Lemma wrap64_add_l a b : wrap64 (wrap64 a + b) = wrap64 (a + b).
Proof.
  unfold wrap64.
  replace ((a + 9223372036854775808) mod 18446744073709551616 - 9223372036854775808
           + b + 9223372036854775808)
    with ((a + 9223372036854775808) mod 18446744073709551616 + b) by lia.
  rewrite Zplus_mod_idemp_l. f_equal. f_equal. lia.
Qed.

Lemma count_written_twice a b c :
  count_written b (count_written a c) = count_written (a + b) c.
Proof.
  unfold count_written, set_WriteBytes. simpl. f_equal.
  rewrite wrap64_add_l. f_equal. lia.
Qed.

Lemma written_on_none p pkts :
  ~ Exists (fun pkt => channel pkt = Some p) pkts -> written_on p pkts = 0.
Proof.
  induction pkts as [|pkt pkts IH]; intros H; simpl; [reflexivity|].
  rewrite Exists_cons in H.
  rewrite decide_False by tauto. rewrite IH by tauto. reflexivity.
Qed.

Lemma after_written_cons_hit p pkt pkts c :
  channel pkt = Some p ->
  after_written p pkts (count_written (len (wire pkt)) c) = after_written p (pkt :: pkts) c.
Proof.
  intros Hp. unfold after_written.
  rewrite (decide_True (P := Exists (fun pkt => channel pkt = Some p) (pkt :: pkts)))
    by (apply Exists_cons_hd; exact Hp).
  simpl written_on. rewrite (decide_True (P := channel pkt = Some p)) by assumption.
  case_decide as H.
  - apply count_written_twice.
  - rewrite (written_on_none _ _ H). now rewrite Z.add_0_r.
Qed.

Lemma after_written_cons_miss p pkt pkts c :
  channel pkt <> Some p ->
  after_written p pkts c = after_written p (pkt :: pkts) c.
Proof.
  intros Hp. unfold after_written. simpl written_on.
  rewrite (decide_False (P := channel pkt = Some p)) by assumption. rewrite Z.add_0_l.
  apply decide_ext. rewrite Exists_cons. tauto.
Qed.

Lemma writeLoop_body_takes_all ord w pkt queue :
  tcpWriteQueue (conn w) = pkt :: queue -> encodable pkt ->
  writeLoop_body takes_all ord w
  = (match channel pkt with
     | Some c => with_chan c (count_written (len (wire pkt)))
                   (with_conn (set_tcpWriteQueue queue) w)
     | None => with_conn (set_tcpWriteQueue queue) w
     end, wire pkt, true).
Proof.
  intros Hq [Hp Hd]. unfold writeLoop_body. rewrite Hq. cbv zeta.
  unfold WritePacket. rewrite (CreateNetPacket_wire pkt Hp Hd).
  unfold takes_all. cbv beta iota. now destruct (channel pkt).
Qed.

Lemma writeLoop_drains pkts : forall ord w fuel,
  tcpWriteQueue (conn w) = pkts -> Forall encodable pkts ->
  (length pkts <= fuel)%nat ->
  exists w',
    writeLoop takes_all ord fuel w = (w', concat (map wire pkts))
    /\ conn w' = set_tcpWriteQueue [] (conn w)
    /\ forall p, heap w' !! p = after_written p pkts <$> heap w !! p.
Proof.
  induction pkts as [|pkt pkts IH]; intros ord w fuel Hq Hall Hfuel.
  - exists w. split; [|split].
    + destruct fuel; [reflexivity|]. simpl. unfold writeLoop_body. now rewrite Hq.
    + destruct w as [h [? ? ? ? ? q ? ? ?] ? ?]. simpl in *. now subst q.
    + intros p. destruct (heap w !! p) as [ch|]; [|reflexivity].
      simpl. unfold after_written. rewrite decide_False; [reflexivity|].
      intros H. now apply Exists_nil in H.
  - destruct fuel as [|fuel]; [simpl in Hfuel; lia|].
    apply Forall_cons in Hall as [Hpkt Hall].
    cbn [writeLoop]. rewrite (writeLoop_body_takes_all ord w pkt pkts Hq Hpkt).
    set (w1 := match channel pkt with
               | Some c => with_chan c (count_written (len (wire pkt)))
                             (with_conn (set_tcpWriteQueue pkts) w)
               | None => with_conn (set_tcpWriteQueue pkts) w
               end).
    assert (Hq1 : tcpWriteQueue (conn w1) = pkts).
    { unfold w1. now destruct (channel pkt). }
    assert (Hc1 : conn w1 = set_tcpWriteQueue pkts (conn w)).
    { unfold w1. now destruct (channel pkt). }
    destruct (IH ord w1 fuel Hq1 Hall ltac:(simpl in Hfuel; lia))
      as (w' & Hloop & Hconn & Hheap).
    rewrite Hloop. exists w'. split; [reflexivity|]. split.
    + rewrite Hconn, Hc1. reflexivity.
    + intros p. rewrite Hheap. unfold w1.
      destruct (channel pkt) as [c|] eqn:Hc.
      * cbn [with_chan with_conn heap].
        destruct (decide (c = p)) as [->|Hcp].
        -- rewrite lookup_alter_eq. destruct (heap w !! p) as [ch|]; [|reflexivity].
           simpl. f_equal. now apply after_written_cons_hit.
        -- rewrite lookup_alter_ne by assumption.
           destruct (heap w !! p) as [ch|]; [|reflexivity].
           simpl. f_equal. apply after_written_cons_miss. congruence.
      * cbn [with_conn heap]. destruct (heap w !! p) as [ch|]; [|reflexivity].
        simpl. f_equal. apply after_written_cons_miss. congruence.
Qed.

(** X14: the writer drains the outbound queue in order.  When every queued
    packet is within the limits of [CreateNetPacket] and the socket takes all
    it is given, [writeLoop] writes the frames of the queued packets one
    after the other, in queue order, and leaves the queue empty and the rest
    of the connection as it was; for every channel, [WriteBytes] has grown by
    the bytes of the frames of the packets that point to it, and no other
    field has changed. *)
Theorem writeLoop_drains_queue :
  forall (ord : range_order) (w : World) (fuel : nat),
    Forall encodable (tcpWriteQueue (conn w)) ->
    (length (tcpWriteQueue (conn w)) <= fuel)%nat ->
    exists w',
      writeLoop takes_all ord fuel w
      = (w', concat (map wire (tcpWriteQueue (conn w))))
      /\ conn w' = set_tcpWriteQueue [] (conn w)
      /\ forall p, heap w' !! p
                   = after_written p (tcpWriteQueue (conn w)) <$> heap w !! p.
Proof.
  intros ord w fuel Hall Hfuel.
  now apply (writeLoop_drains (tcpWriteQueue (conn w))).
Qed.

Lemma writeLoop_drains_queue_witness :
  exists w',
    writeLoop takes_all in_order 1 queued_world
    = (w', concat (map wire (tcpWriteQueue (conn queued_world))))
    /\ conn w' = set_tcpWriteQueue [] (conn queued_world)
    /\ forall p, heap w' !! p
                 = after_written p (tcpWriteQueue (conn queued_world))
                     <$> heap queued_world !! p.
Proof.
  apply (writeLoop_drains_queue in_order queued_world 1).
  - repeat constructor; vm_compute; discriminate.
  - vm_compute. lia.
Defined.

(** ** Packets the encoder refuses *)



(** ** Bursts of frames at the reader *)

Lemma readFrame_wire check w q ch pkt rest :
  sendable pkt -> getChannel w (ChannelId pkt) = Some q -> heap w !! q = Some ch ->
  check (packetStatus ch) (Status pkt) = None ->
  readFrame check w (wire pkt ++ rest) = Deliver q (received q pkt) rest.
Proof.
  intros (Hpath & Hdata & Hnul & Hne & Hid & Hs8) Hget Hheap Hchk.
  pose proof (data_len_is_uint32 _ Hdata) as Hl32.
  unfold wire. rewrite frame_app.
  rewrite (readFrame_accepts check w (Status pkt) (Path pkt)
             (PutUint32 (ChannelId pkt)) (PutUint32 (to_uint32 (len (Data pkt))))
             (Data pkt) rest q ch); try assumption; try reflexivity.
  - unfold received. now rewrite Uint32_PutUint32.
  - unfold MaxPathLen, PacketReadBufSize in *. lia.
  - now rewrite Uint32_PutUint32.
  - rewrite to_uint32_small, Uint32_PutUint32 by assumption. lia.
  - now rewrite to_uint32_small, Uint32_PutUint32.
Qed.

Lemma with_chan_twice p f g w :
  with_chan p g (with_chan p f w) = with_chan p (g ∘ f) w.
Proof. unfold with_chan. simpl. f_equal. apply alter_alter_eq. Qed.

Lemma last_cons_default {A} (l : list A) : forall x d,
  List.last (x :: l) d = List.last l x.
Proof.
  induction l as [|y l IH]; intros x d; [reflexivity|].
  change (List.last (x :: y :: l) d) with (List.last (y :: l) d).
  now rewrite !IH.
Qed.

Lemma deliver_all_cons q pkt pkts c :
  deliver_all q (pkt :: pkts) c
  = deliver_all q pkts
      (note_received (Status pkt) (len (Data pkt) + 1 + len (Path pkt) + 1 + 4 + 4)
         (received q pkt) c).
Proof. reflexivity. Qed.

Lemma deliver_all_fields q pkts : forall c,
  receivedQueue (deliver_all q pkts c) = receivedQueue c ++ map (received q) pkts
  /\ packetStatus (deliver_all q pkts c) = List.last (map Status pkts) (packetStatus c)
  /\ chan_err (deliver_all q pkts c) = chan_err c
  /\ Id (deliver_all q pkts c) = Id c
  /\ pktWhole (deliver_all q pkts c) = pktWhole c.
Proof.
  induction pkts as [|pkt pkts IH]; intros c.
  - simpl. rewrite app_nil_r. auto.
  - rewrite deliver_all_cons.
    destruct (IH (note_received (Status pkt)
                    (len (Data pkt) + 1 + len (Path pkt) + 1 + 4 + 4) (received q pkt) c))
      as (H1 & H2 & H3 & H4 & H5).
    rewrite H1, H2, H3, H4, H5. simpl. rewrite <- app_assoc. simpl.
    repeat split; try reflexivity.
    symmetry. apply last_cons_default.
Qed.

Lemma readRounds_burst ord check k q rest pkts : forall w ch,
  conn_err (conn w) = None -> getChannel w k = Some q -> heap w !! q = Some ch ->
  Forall (fun pkt => sendable pkt /\ ChannelId pkt = k) pkts ->
  is_Some (check_all check (packetStatus ch) (map Status pkts)) ->
  readRounds ord check (length pkts) w (concat (map wire pkts) ++ rest)
  = (with_chan q (deliver_all q pkts) w, Some rest).
Proof.
  induction pkts as [|pkt pkts IH]; intros w ch Herr Hget Hheap Hall Hchk.
  - simpl. f_equal. unfold with_chan, deliver_all. simpl.
    destruct w as [h c hd rs]. simpl in *. f_equal.
    symmetry. apply map_eq. intros i. destruct (decide (i = q)) as [->|Hi].
    + rewrite lookup_alter_eq. now destruct (h !! q).
    + now rewrite lookup_alter_ne by congruence.
  - apply Forall_cons in Hall as [[Hs Hk] Hall].
    simpl in Hchk. destruct (check (packetStatus ch) (Status pkt)) eqn:Hc.
    { now destruct Hchk. }
    cbn [length readRounds map concat]. rewrite <- app_assoc.
    rewrite (readLoop_body_Deliver ord check w _ q (received q pkt) (concat (map wire pkts) ++ rest)).
    2:{ assumption. }
    2:{ apply (readFrame_wire check w q ch); try assumption. now rewrite Hk. }
    cbn [received Status Data Path].
    rewrite (IH _ (note_received (Status pkt)
                     (len (Data pkt) + 1 + len (Path pkt) + 1 + 4 + 4) (received q pkt) ch)).
    + now rewrite with_chan_twice.
    + assumption.
    + assumption.
    + simpl. now rewrite lookup_alter_eq, Hheap.
    + assumption.
    + assumption.
Qed.

(** X16: a reader takes a burst of frames for one channel one by one.  For
    frames of well-formed packets within the encoder's limits, all addressed
    to a channel of the table, with statuses that the reader's check accepts
    one after the other starting from the channel's last status, as many
    rounds as there are frames leave the connection open, consume exactly
    these frames, and put the packets on the channel's inbound queue in the
    order of arrival; the channel's last status is that of the last frame. *)
Theorem readRounds_delivers_burst :
  forall (ord : range_order) (check : Z -> Z -> option error) (w : World)
         (k : Z) (q : ptr) (ch : Channel) (pkts : list Packet) (rest : list Z),
    conn_err (conn w) = None -> getChannel w k = Some q -> heap w !! q = Some ch ->
    Forall (fun pkt => sendable pkt /\ ChannelId pkt = k) pkts ->
    is_Some (check_all check (packetStatus ch) (map Status pkts)) ->
    readRounds ord check (length pkts) w (concat (map wire pkts) ++ rest)
    = (with_chan q (deliver_all q pkts) w, Some rest)
    /\ receivedQueue (deliver_all q pkts ch) = receivedQueue ch ++ map (received q) pkts
    /\ packetStatus (deliver_all q pkts ch) = List.last (map Status pkts) (packetStatus ch)
    /\ chan_err (deliver_all q pkts ch) = chan_err ch.
Proof.
  intros ord check w k q ch pkts rest Herr Hget Hheap Hall Hchk.
  split; [now apply (readRounds_burst ord check k q rest pkts w ch)|].
  destruct (deliver_all_fields q pkts ch) as (H1 & H2 & H3 & _). auto.
Qed.

Lemma readRounds_delivers_burst_witness :
  readRounds in_order CheckClientPacketStatus (length request_frames)
    (new_world RoleServer) (concat (map wire request_frames) ++ [1; 2])
  = (with_chan 0%nat (deliver_all 0%nat request_frames) (new_world RoleServer),
     Some [1; 2])
  /\ receivedQueue (deliver_all 0%nat request_frames (fresh_Channel 0))
     = receivedQueue (fresh_Channel 0) ++ map (received 0%nat) request_frames
  /\ packetStatus (deliver_all 0%nat request_frames (fresh_Channel 0))
     = List.last (map Status request_frames) (packetStatus (fresh_Channel 0))
  /\ chan_err (deliver_all 0%nat request_frames (fresh_Channel 0))
     = chan_err (fresh_Channel 0).
Proof.
  apply (readRounds_delivers_burst in_order CheckClientPacketStatus
           (new_world RoleServer) 0 0%nat (fresh_Channel 0) request_frames [1; 2]).
  - reflexivity.
  - reflexivity.
  - reflexivity.
  - repeat constructor; try apply not_elem_of_slash_a; try (vm_compute; discriminate);
      try (unfold is_uint32; simpl; lia).
  - vm_compute. eauto.
Defined.

(** ** The client's dispatcher over the frames of one message *)

Lemma alter_as_insert (h : gmap ptr Channel) q ch f :
  h !! q = Some ch -> alter f q h = <[ q := f ch ]> h.
Proof.
  intros H. apply map_eq. intros i. destruct (decide (i = q)) as [->|Hi].
  - now rewrite lookup_alter_eq, lookup_insert_eq, H.
  - now rewrite lookup_alter_ne, lookup_insert_ne by congruence.
Qed.

Lemma merged_snoc acc fs f : merged acc (fs ++ [f]) = Some (merge (merged acc fs) f).
Proof. unfold merged. now rewrite foldl_app. Qed.

Lemma merge_fields acc f :
  Status (merge acc f) = Status f
  /\ Data (merge acc f) = default [] (Data <$> acc) ++ Data f
  /\ Path (merge acc f) = default (Path f) (Path <$> acc)
  /\ ChannelId (merge acc f) = default (ChannelId f) (ChannelId <$> acc).
Proof. destruct acc as [r|]; simpl; auto. Qed.

Lemma merged_data fs : forall acc,
  default [] (Data <$> merged acc fs) = default [] (Data <$> acc) ++ concat (map Data fs).
Proof.
  induction fs as [|f fs IH]; intros acc.
  - simpl. now rewrite app_nil_r.
  - change (merged acc (f :: fs)) with (merged (Some (merge acc f)) fs).
    rewrite IH. simpl. destruct acc as [r|]; simpl; now rewrite <- ?app_assoc.
Qed.

Lemma merged_path fs : forall acc d,
  default d (Path <$> merged acc fs)
  = default (List.hd d (map Path fs)) (Path <$> acc).
Proof.
  induction fs as [|f fs IH]; intros acc d.
  - reflexivity.
  - change (merged acc (f :: fs)) with (merged (Some (merge acc f)) fs).
    rewrite IH. simpl. now destruct acc.
Qed.

Lemma merged_id fs : forall acc d,
  default d (ChannelId <$> merged acc fs)
  = default (List.hd d (map ChannelId fs)) (ChannelId <$> acc).
Proof.
  induction fs as [|f fs IH]; intros acc d.
  - reflexivity.
  - change (merged acc (f :: fs)) with (merged (Some (merge acc f)) fs).
    rewrite IH. simpl. now destruct acc.
Qed.

(** A round on a frame that does not complete the message: the frame is
    merged into the pending message and the handler is called with it. *)
Lemma handleClientLoop_body_more has w q ch f tail :
  heap w !! q = Some ch -> receivedQueue ch = f :: tail ->
  Status f <> Status8 -> isServerStatusCompleted (Status f) = false ->
  handleClientLoop_body has w q
  = mkWorld (<[ q := set_pktWhole (Some (merge (pktWhole ch) f)) (set_receivedQueue tail ch) ]>
               (heap w))
      (conn w) (handled w ++ [(q, merge (pktWhole ch) f, false)]) (responded w).
Proof.
  intros Hq Hqueue Hs8 Hc. unfold handleClientLoop_body. rewrite Hq, Hqueue.
  destruct (Z.eqb_spec (Status f) Status8); [contradiction|].
  cbv zeta. rewrite Hc. unfold log_handled, with_chan. simpl.
  f_equal. rewrite alter_alter_eq. now rewrite (alter_as_insert _ q ch _ Hq).
Qed.

(** A round on the frame that completes the message: the whole message goes
    to the handler and to the response endpoint, and nothing stays pending. *)
Lemma handleClientLoop_body_done has w q ch f tail :
  heap w !! q = Some ch -> receivedQueue ch = f :: tail ->
  Status f <> Status8 -> isServerStatusCompleted (Status f) = true ->
  handleClientLoop_body has w q
  = mkWorld (<[ q := set_pktWhole None (set_receivedQueue tail ch) ]> (heap w))
      (conn w) (handled w ++ [(q, merge (pktWhole ch) f, true)])
      (if has q then responded w ++ [(q, merge (pktWhole ch) f)] else responded w).
Proof.
  intros Hq Hqueue Hs8 Hc. unfold handleClientLoop_body. rewrite Hq, Hqueue.
  destruct (Z.eqb_spec (Status f) Status8); [contradiction|].
  cbv zeta. rewrite Hc. unfold log_handled, log_responded, with_chan.
  destruct (has q); simpl; f_equal; rewrite !alter_alter_eq;
    now rewrite (alter_as_insert _ q ch _ Hq).
Qed.

Lemma handleClientRounds_init has q init : forall w ch tail,
  heap w !! q = Some ch -> receivedQueue ch = init ++ tail ->
  Forall (fun f => Status f <> Status8 /\ isServerStatusCompleted (Status f) = false) init ->
  exists hs,
    handleClientRounds has (length init) w q
    = mkWorld (<[ q := set_pktWhole (merged (pktWhole ch) init) (set_receivedQueue tail ch) ]>
                 (heap w))
        (conn w) (handled w ++ hs) (responded w)
    /\ length hs = length init
    /\ Forall (fun h => h.2 = false) hs.
Proof.
  induction init as [|f init IH]; intros w ch tail Hq Hqueue Hall.
  - exists []. simpl. split; [|split; [reflexivity|constructor]].
    destruct w as [h c hd rs]. simpl in *. rewrite app_nil_r. f_equal.
    symmetry. rewrite <- Hqueue. apply insert_id.
    rewrite Hq. f_equal. now destruct ch.
  - apply Forall_cons in Hall as [[Hs8 Hc] Hall].
    cbn [length handleClientRounds].
    rewrite (handleClientLoop_body_more has w q ch f (init ++ tail) Hq Hqueue Hs8 Hc).
    set (c1 := set_pktWhole (Some (merge (pktWhole ch) f))
                 (set_receivedQueue (init ++ tail) ch)).
    set (w1 := mkWorld (<[ q := c1 ]> (heap w)) (conn w)
                 (handled w ++ [(q, merge (pktWhole ch) f, false)]) (responded w)).
    assert (Hq1 : heap w1 !! q = Some c1) by apply lookup_insert_eq.
    destruct (IH w1 c1 tail Hq1 eq_refl Hall) as (hs & Hrounds & Hlen & Hhs).
    rewrite Hrounds. unfold w1, c1. cbn [heap conn handled responded].
    exists ((q, merge (pktWhole ch) f, false) :: hs).
    split; [|split].
    + rewrite insert_insert_eq, <- app_assoc. reflexivity.
    + simpl. now rewrite Hlen.
    + constructor; [reflexivity|assumption].
Qed.

Lemma handleClientRounds_message :
  forall (hasResponseChan : ptr -> bool) (w : World) (q : ptr) (ch : Channel)
         (init : list Packet) (last : Packet),
    heap w !! q = Some ch -> receivedQueue ch = init ++ [last] ->
    pktWhole ch = None -> one_message isServerStatusCompleted init last ->
    hasResponseChan q = true ->
    exists whole calls,
      responded (handleClientRounds hasResponseChan (length (init ++ [last])) w q)
      = responded w ++ [(q, whole)]
      /\ Data whole = concat (map Data (init ++ [last]))
      /\ Status whole = Status last
      /\ Path whole = List.hd (Path last) (map Path init)
      /\ ChannelId whole = List.hd (ChannelId last) (map ChannelId init)
      /\ handled (handleClientRounds hasResponseChan (length (init ++ [last])) w q)
         = handled w ++ calls ++ [(q, whole, true)]
      /\ length calls = length init /\ Forall (fun h => h.2 = false) calls
      /\ heap (handleClientRounds hasResponseChan (length (init ++ [last])) w q) !! q
         = Some (set_pktWhole None (set_receivedQueue [] ch))
      /\ conn (handleClientRounds hasResponseChan (length (init ++ [last])) w q) = conn w.
Proof.
  intros has w q ch init last Hq Hqueue Hnone (Hinit & Hs8 & Hdone) Hhas.
  destruct (handleClientRounds_init has q init w ch [last] Hq Hqueue Hinit)
    as (hs & Hrounds & Hlen & Hhs).
  assert (Hsplit : forall n k w0, handleClientRounds has (n + k) w0 q
                     = handleClientRounds has k (handleClientRounds has n w0 q) q).
  { induction n as [|n IHn]; intros k w0; [reflexivity|]. simpl. apply IHn. }
  rewrite length_app, Hsplit, Hrounds. cbn [length handleClientRounds].
  set (c1 := set_pktWhole (merged (pktWhole ch) init) (set_receivedQueue [last] ch)).
  set (w1 := mkWorld (<[ q := c1 ]> (heap w)) (conn w) (handled w ++ hs) (responded w)).
  assert (Hq1 : heap w1 !! q = Some c1) by apply lookup_insert_eq.
  rewrite (handleClientLoop_body_done has w1 q c1 last [] Hq1 eq_refl Hs8 Hdone).
  rewrite Hhas. unfold w1, c1.
  cbn [heap conn handled responded pktWhole set_pktWhole set_receivedQueue].
  set (whole := merge (merged (pktWhole ch) init) last).
  destruct (merge_fields (merged (pktWhole ch) init) last) as (F1 & F2 & F3 & F4).
  fold whole in F1, F2, F3, F4.
  exists whole, hs. split; [reflexivity|].
  split; [|split; [|split; [|split; [|split; [|split; [|split; [|split]]]]]]].
  - rewrite F2, merged_data, Hnone, map_app, concat_app. simpl.
    now rewrite app_nil_r.
  - assumption.
  - rewrite F3, merged_path, Hnone. reflexivity.
  - rewrite F4, merged_id, Hnone. reflexivity.
  - now rewrite <- app_assoc.
  - assumption.
  - assumption.
  - rewrite insert_insert_eq, lookup_insert_eq. reflexivity.
  - reflexivity.
Qed.

(** X17: the client's dispatcher puts the frames of one response together.
    When a channel with nothing pending holds in its inbound queue the frames
    of one message (frames whose status does not complete it, then one whose
    status does) and has a response endpoint, then after one round per frame
    exactly one whole message has been handed to the endpoint: its data is
    the concatenation of the frames' data in order, its path and channel id
    are those of the first frame and its status that of the last.  The
    handler has been called once per frame, with [completed] only in the last
    call; the queue is empty and nothing is pending. *)
Theorem handleClientLoop_reassembles :
  forall (hasResponseChan : ptr -> bool) (w : World) (q : ptr) (ch : Channel)
         (init : list Packet) (last : Packet),
    heap w !! q = Some ch -> receivedQueue ch = init ++ [last] ->
    pktWhole ch = None -> one_message isServerStatusCompleted init last ->
    hasResponseChan q = true ->
    exists whole calls,
      responded (handleClientRounds hasResponseChan (length (init ++ [last])) w q)
      = responded w ++ [(q, whole)]
      /\ Data whole = concat (map Data (init ++ [last]))
      /\ Status whole = Status last
      /\ Path whole = List.hd (Path last) (map Path init)
      /\ ChannelId whole = List.hd (ChannelId last) (map ChannelId init)
      /\ handled (handleClientRounds hasResponseChan (length (init ++ [last])) w q)
         = handled w ++ calls ++ [(q, whole, true)]
      /\ length calls = length init /\ Forall (fun h => h.2 = false) calls
      /\ heap (handleClientRounds hasResponseChan (length (init ++ [last])) w q) !! q
         = Some (set_pktWhole None (set_receivedQueue [] ch))
      /\ conn (handleClientRounds hasResponseChan (length (init ++ [last])) w q) = conn w.
Proof. exact handleClientRounds_message. Qed.

Lemma handleClientLoop_reassembles_witness :
  exists whole calls,
    responded (handleClientRounds every_channel (length ([response_first] ++ [response_last]))
                 answered_world 0%nat)
    = responded answered_world ++ [(0%nat, whole)]
    /\ Data whole = concat (map Data ([response_first] ++ [response_last]))
    /\ Status whole = Status response_last
    /\ Path whole = List.hd (Path response_last) (map Path [response_first])
    /\ ChannelId whole = List.hd (ChannelId response_last) (map ChannelId [response_first])
    /\ handled (handleClientRounds every_channel
                  (length ([response_first] ++ [response_last])) answered_world 0%nat)
       = handled answered_world ++ calls ++ [(0%nat, whole, true)]
    /\ length calls = length [response_first] /\ Forall (fun h => h.2 = false) calls
    /\ heap (handleClientRounds every_channel
               (length ([response_first] ++ [response_last])) answered_world 0%nat) !! 0%nat
       = Some (set_pktWhole None
                 (set_receivedQueue []
                    (set_receivedQueue [response_first; response_last] (fresh_Channel 0))))
    /\ conn (handleClientRounds every_channel
               (length ([response_first] ++ [response_last])) answered_world 0%nat)
       = conn answered_world.
Proof.
  apply (handleClientLoop_reassembles every_channel answered_world 0%nat
           (set_receivedQueue [response_first; response_last] (fresh_Channel 0))
           [response_first] response_last).
  - reflexivity.
  - reflexivity.
  - reflexivity.
  - repeat split; try discriminate. constructor; [|constructor].
    split; [discriminate|reflexivity].
  - reflexivity.
Defined.

(** ** From the server's [SendPacket] to the client's response endpoint *)

(** The statuses of the frames of one message of the server: [S5] alone, or
    [S4], any number of [S6], then [S7]. *)
Lemma server_statuses_message init last :
  (init = [] /\ Status last = StatusS5)
  \/ (exists first middle, init = first :: middle /\ Status first = StatusS4
        /\ Forall (fun f => Status f = StatusS6) middle /\ Status last = StatusS7) ->
  one_message isServerStatusCompleted init last
  /\ forall prev, prev = 255 \/ isServerStatusCompleted prev = true ->
       is_Some (check_all CheckServerPacketStatus prev (map Status (init ++ [last]))).
Proof.
  intros [[-> Hl]|(first & middle & -> & Hf & Hm & Hl)].
  - split.
    + split; [constructor|]. rewrite Hl. split; [discriminate|reflexivity].
    + intros prev Hprev. simpl. rewrite Hl. unfold CheckServerPacketStatus. simpl.
      destruct Hprev as [-> | ->]; simpl; eauto.
      destruct (prev =? 255); simpl; eauto.
  - split.
    + split; [|rewrite Hl; split; [discriminate|reflexivity]].
      constructor; [rewrite Hf; split; [discriminate|reflexivity]|].
      eapply Forall_impl; [exact Hm|]. intros f ->. split; [discriminate|reflexivity].
    + intros prev Hprev. simpl. rewrite Hf.
      assert (H0 : CheckServerPacketStatus prev StatusS4 = None).
      { unfold CheckServerPacketStatus. simpl.
        destruct Hprev as [-> | ->]; simpl; [reflexivity|].
        now destruct (prev =? 255). }
      rewrite H0. clear H0 Hprev prev Hf.
      assert (Hgo : forall prev, prev = StatusS4 \/ prev = StatusS6 ->
                is_Some (check_all CheckServerPacketStatus prev
                           (map Status (middle ++ [last])))).
      { induction Hm as [|f middle Hfm _ IH]; intros prev Hprev.
        - simpl. rewrite Hl. destruct Hprev as [-> | ->]; simpl; eauto.
        - simpl. rewrite Hfm. destruct Hprev as [-> | ->]; simpl; apply IH; auto. }
      apply Hgo. now left.
Qed.

(** What [SendPacket] queues on an open channel for a packet that names the
    channel's id and has data: one frame with a completed status, or a first
    frame, middle frames and a last frame. *)
Lemma SendPacket_message_frames w m ch pkt :
  heap w !! m = Some ch -> chan_err ch = None ->
  Role (conn w) = RoleClient \/ Role (conn w) = RoleServer ->
  ChannelId pkt = Id ch -> 0 < len (Data pkt) ->
  exists init last,
    SendPacket w m pkt
    = (with_chan m count_sent (with_conn (enqueue_all (init ++ [last])) w), None)
    /\ Forall (fun f => Path f = Path pkt /\ ChannelId f = Id ch
                        /\ 0 < len (Data f) <= MaxPacketSize) (init ++ [last])
    /\ concat (map Data (init ++ [last])) = Data pkt
    /\ ((len (Data pkt) <= MaxPacketSize /\ init = []
         /\ Status last = by_role (Role (conn w)) StatusC1 StatusS5)
        \/ (MaxPacketSize < len (Data pkt)
            /\ exists first middle, init = first :: middle
                 /\ Status first = by_role (Role (conn w)) StatusC0 StatusS4
                 /\ Forall (fun f => Status f = by_role (Role (conn w)) StatusC2 StatusS6)
                      middle
                 /\ Status last = by_role (Role (conn w)) StatusC3 StatusS7)).
Proof.
  intros Hm Herr Hrole Hid Hdata.
  destruct (Z.le_gt_cases (len (Data pkt)) MaxPacketSize) as [Hsmall|Hbig].
  - rewrite (SendPacket_single w m ch pkt Hm Herr Hsmall).
    exists [], (if Role (conn w) =? RoleClient then set_Status 1 pkt
                else if Role (conn w) =? RoleServer then set_Status 5 pkt else pkt).
    split; [reflexivity|].
    assert (Hf : forall f, f = set_Status 1 pkt \/ f = set_Status 5 pkt ->
                 Path f = Path pkt /\ ChannelId f = Id ch
                 /\ 0 < len (Data f) <= MaxPacketSize).
    { intros f [-> | ->]; simpl; auto. }
    destruct Hrole as [E|E]; rewrite E; unfold by_role; simpl;
      (split; [constructor; [apply Hf; auto|constructor]|]);
      (split; [simpl; apply app_nil_r|left; auto]).
  - destruct (SendPacket_fragments w m ch pkt Hm Herr Hrole Hbig)
      as (first & rest & Hsend & Hcat & _ & Hfirst & middle & last & -> & Hmid & Hlast).
    destruct (sendLoop_chunks MaxPacketSize (Role (conn w)) m (Id ch) pkt
                ltac:(unfold MaxPacketSize; lia) Hrole
                (Z.to_nat (len (Data pkt))) (len (Data pkt)) true
                ltac:(unfold MaxPacketSize in *; lia) ltac:(lia))
      as (init' & last' & Hchunks & Hf & Hfull & Hl & _).
    assert (Hq : first :: middle ++ [last] = init' ++ [last']).
    { revert Hsend Hchunks. unfold SendPacket, SendPacket_limit. rewrite Hm, Herr.
      destruct (Z.leb_spec (len (Data pkt)) MaxPacketSize); [lia|].
      destruct (sendLoop _ _ _ _ _ _ _ _) as [chunks ex]. cbn [fst].
      intros Hsend <-.
      apply (f_equal (fun x => tcpWriteQueue (conn (fst x)))) in Hsend.
      destruct ex; simpl in Hsend; apply app_inv_head in Hsend; congruence. }
    change (first :: middle ++ [last]) with ((first :: middle) ++ [last]) in Hq.
    apply app_inj_tail in Hq as [<- <-].
    exists (first :: middle), last. split; [exact Hsend|].
    split; [|split; [exact Hcat|right; eauto 10]].
    apply Forall_app. split.
    + apply Forall_app in Hf as [Hf _].
      apply Forall_forall. intros f Hin.
      rewrite Forall_forall in Hf, Hfull.
      destruct (Hf f Hin) as (_ & P & I & _). specialize (Hfull f Hin).
      unfold MaxPacketSize in *. repeat split; try assumption; lia.
    + apply Forall_app in Hf as [_ Hf]. apply Forall_cons in Hf as [(_ & P & I & _) _].
      constructor; [|constructor]. auto.
Qed.

(** What [SendPacket] queues on an open channel of a server connection for a
    packet that names the channel's id and has data. *)
Lemma SendPacket_server_frames w m ch pkt :
  heap w !! m = Some ch -> chan_err ch = None -> Role (conn w) = RoleServer ->
  ChannelId pkt = Id ch -> 0 < len (Data pkt) ->
  exists init last,
    SendPacket w m pkt
    = (with_chan m count_sent (with_conn (enqueue_all (init ++ [last])) w), None)
    /\ Forall (fun f => Path f = Path pkt /\ ChannelId f = Id ch
                        /\ 0 < len (Data f) <= MaxPacketSize) (init ++ [last])
    /\ concat (map Data (init ++ [last])) = Data pkt
    /\ ((init = [] /\ Status last = StatusS5)
        \/ (exists first middle, init = first :: middle /\ Status first = StatusS4
              /\ Forall (fun f => Status f = StatusS6) middle
              /\ Status last = StatusS7)).
Proof.
  intros Hm Herr Hrole Hid Hdata.
  destruct (SendPacket_message_frames w m ch pkt Hm Herr (or_intror Hrole) Hid Hdata)
    as (init & last & Hsend & Hall & Hcat & Hst).
  rewrite Hrole in Hst. unfold by_role in Hst. simpl in Hst.
  exists init, last. split; [exact Hsend|]. split; [exact Hall|]. split; [exact Hcat|].
  destruct Hst as [(_ & ? & ?)|(_ & ?)]; [left|right]; auto.
Qed.

(** X18: a response sent by the server arrives whole at the client.  The
    server calls [SendPacket] on an open channel, with an empty outbound
    queue, for a packet that names the channel's id, has a path of at most
    512 bytes without a zero byte and some data, of any size.  The client has
    a channel under the same id that is between two messages, with an empty
    inbound queue and a response endpoint.  Then [SendPacket] returns [nil];
    the server's writer, on a socket that takes everything, writes the frames
    of the message; the client's reader, given these bytes, takes as many
    rounds as there are frames and stays open; and the client's dispatcher,
    after as many rounds, has handed exactly one whole message to the
    endpoint, with the data, the path and the channel id of the packet
    sent. *)
Theorem server_response_reaches_client :
  forall (ord ord' : range_order) (hasResponseChan : ptr -> bool)
         (ws wc : World) (m q : ptr) (chs chq : Channel) (pkt : Packet) (rest : list Z),
    running ws -> Role (conn ws) = RoleServer ->
    heap ws !! m = Some chs -> chan_err chs = None -> tcpWriteQueue (conn ws) = [] ->
    ChannelId pkt = Id chs -> 0 < len (Data pkt) ->
    len (Path pkt) <= MaxPathLen -> 0 ∉ Path pkt ->
    conn_err (conn wc) = None -> getChannel wc (Id chs) = Some q ->
    heap wc !! q = Some chq -> receivedQueue chq = [] -> pktWhole chq = None ->
    packetStatus chq = 255 \/ isServerStatusCompleted (packetStatus chq) = true ->
    hasResponseChan q = true ->
    snd (SendPacket ws m pkt) = None
    /\ exists (n : nat) (bytes : list Z) (wc1 : World) (whole : Packet),
         (forall fuel, (n <= fuel)%nat ->
            snd (writeLoop takes_all ord fuel (fst (SendPacket ws m pkt))) = bytes)
         /\ readRounds ord' CheckServerPacketStatus n wc (bytes ++ rest) = (wc1, Some rest)
         /\ responded (handleClientRounds hasResponseChan n wc1 q)
            = responded wc ++ [(q, whole)]
         /\ Data whole = Data pkt /\ Path whole = Path pkt
         /\ ChannelId whole = Id chs.
Proof.
  intros ord ord' has ws wc m q chs chq pkt rest Hrun Hrole Hm Herr Hq0 Hid Hdata
         Hpath Hnul Hcerr Hget Hheap Hrq Hpw Hprev Hhas.
  destruct (running_invariants ws Hrun) as [Hc _].
  destruct (cons_heap ws Hc _ _ Hm) as (_ & Hrange & _).
  pose proof (cons_max ws Hc) as Hmax.
  destruct (SendPacket_server_frames ws m chs pkt Hm Herr Hrole Hid Hdata)
    as (init & last & Hsend & Hall & Hcat & Hst).
  destruct (server_statuses_message init last Hst) as [Hmsg Hchk].
  rewrite Hsend. cbn [fst snd]. split; [reflexivity|].
  set (fs := init ++ [last]) in *.
  set (ws1 := with_chan m count_sent (with_conn (enqueue_all fs) ws)).
  assert (Hq1 : tcpWriteQueue (conn ws1) = fs).
  { unfold ws1. simpl. now rewrite Hq0. }
  assert (Henc : Forall encodable fs).
  { eapply Forall_impl; [exact Hall|]. intros f (P & _ & D). split; [congruence|lia]. }
  assert (Hsendable : Forall (fun f => sendable f /\ ChannelId f = Id chs) fs).
  { assert (Hs8 : Forall (fun f => Status f <> Status8) fs).
    { destruct Hmsg as (Hi & Hl & _). apply Forall_app. split.
      - eapply Forall_impl; [exact Hi|]. now intros f [? _].
      - constructor; [assumption|constructor]. }
    rewrite Forall_forall in Hall, Hs8. apply Forall_forall. intros f Hin.
    destruct (Hall f Hin) as (P & I & D). specialize (Hs8 f Hin).
    split; [|assumption]. split; [congruence|]. split; [lia|].
    split; [congruence|]. split; [lia|]. split; [|assumption].
    rewrite I. unfold is_uint32, MaxUint32 in *. lia. }
  exists (length fs), (concat (map wire fs)),
         (with_chan q (deliver_all q fs) wc).
  destruct (deliver_all_fields q fs chq) as (D1 & _ & _ & _ & D5).
  assert (Hq2 : heap (with_chan q (deliver_all q fs) wc) !! q = Some (deliver_all q fs chq)).
  { simpl. now rewrite lookup_alter_eq, Hheap. }
  assert (Hrecv : receivedQueue (deliver_all q fs chq)
                  = map (received q) init ++ [received q last]).
  { rewrite D1, Hrq. unfold fs. now rewrite map_app. }
  assert (Hmsg' : one_message isServerStatusCompleted (map (received q) init) (received q last)).
  { destruct Hmsg as (Hi & Hl). split; [|exact Hl].
    apply Forall_map. exact Hi. }
  destruct (handleClientRounds_message has _ q _ _ _ Hq2 Hrecv
              ltac:(now rewrite D5) Hmsg' Hhas)
    as (whole & calls & Hresp & Hwd & _ & Hwp & Hwi & _).
  exists whole. split; [|split; [|split; [|split; [|split]]]].
  - intros fuel Hfuel.
    destruct (writeLoop_drains fs ord ws1 fuel Hq1 Henc Hfuel) as (ws' & -> & _).
    reflexivity.
  - apply (readRounds_burst ord' CheckServerPacketStatus (Id chs) q rest fs wc chq);
      try assumption. now apply Hchk.
  - rewrite length_app, length_map in Hresp. unfold fs. rewrite length_app.
    exact Hresp.
  - rewrite Hwd.
    change [received q last] with (map (received q) [last]).
    rewrite <- map_app, map_map. exact Hcat.
  - rewrite Hwp. unfold fs in Hall. destruct init as [|f init].
    + simpl. apply Forall_cons in Hall as [[P _] _]. exact P.
    + simpl. apply Forall_cons in Hall as [[P _] _]. exact P.
  - rewrite Hwi. unfold fs in Hall. destruct init as [|f init].
    + simpl. apply Forall_cons in Hall as [(_ & I & _) _]. exact I.
    + simpl. apply Forall_cons in Hall as [(_ & I & _) _]. exact I.
Qed.

Lemma server_response_reaches_client_witness :
  snd (SendPacket (new_world RoleServer) 0%nat echo_packet) = None
  /\ exists (n : nat) (bytes : list Z) (wc1 : World) (whole : Packet),
       (forall fuel, (n <= fuel)%nat ->
          snd (writeLoop takes_all in_order fuel
                 (fst (SendPacket (new_world RoleServer) 0%nat echo_packet))) = bytes)
       /\ readRounds in_order CheckServerPacketStatus n (new_world RoleClient)
            (bytes ++ [1; 2]) = (wc1, Some [1; 2])
       /\ responded (handleClientRounds every_channel n wc1 0%nat)
          = responded (new_world RoleClient) ++ [(0%nat, whole)]
       /\ Data whole = Data echo_packet /\ Path whole = Path echo_packet
       /\ ChannelId whole = Id (fresh_Channel 0).
Proof.
  apply (server_response_reaches_client in_order in_order every_channel
           (new_world RoleServer) (new_world RoleClient) 0%nat 0%nat
           (fresh_Channel 0) (fresh_Channel 0) echo_packet [1; 2]).
  - apply running_new_world. now right.
  - reflexivity.
  - reflexivity.
  - reflexivity.
  - reflexivity.
  - reflexivity.
  - reflexivity.
  - vm_compute. discriminate.
  - apply not_elem_of_echo_path.
  - reflexivity.
  - reflexivity.
  - reflexivity.
  - reflexivity.
  - reflexivity.
  - left. reflexivity.
  - reflexivity.
Defined.

(** ** A round of the writer *)



(** ** The server's dispatcher answers every frame *)

(** The frames [SendPacket] queues on an open channel: at least one, all with
    the packet's path, and together the packet's data. *)
Lemma SendPacket_queue w m ch pkt :
  heap w !! m = Some ch -> chan_err ch = None ->
  Role (conn w) = RoleClient \/ Role (conn w) = RoleServer ->
  exists frames,
    SendPacket w m pkt
    = (with_chan m count_sent (with_conn (enqueue_all frames) w), None)
    /\ frames <> []
    /\ concat (map Data frames) = Data pkt
    /\ Forall (fun f => Path f = Path pkt) frames.
Proof.
  intros Hm Herr Hrole.
  destruct (Z.le_gt_cases (len (Data pkt)) MaxPacketSize) as [Hsmall|Hbig].
  - rewrite (SendPacket_single w m ch pkt Hm Herr Hsmall).
    eexists [_]. split; [reflexivity|]. split; [discriminate|].
    split; [|constructor; [|constructor]];
      destruct (_ =? RoleClient); try destruct (_ =? RoleServer); simpl;
      auto using app_nil_r.
  - destruct (SendPacket_fragments w m ch pkt Hm Herr Hrole Hbig)
      as (first & rest & Hsend & Hcat & _).
    destruct (sendLoop_chunks MaxPacketSize (Role (conn w)) m (Id ch) pkt
                ltac:(unfold MaxPacketSize; lia) Hrole
                (Z.to_nat (len (Data pkt))) (len (Data pkt)) true
                ltac:(unfold MaxPacketSize in *; lia) ltac:(lia))
      as (init & last & Hchunks & Hf & _).
    assert (Hq : first :: rest = init ++ [last]).
    { revert Hsend Hchunks. unfold SendPacket, SendPacket_limit. rewrite Hm, Herr.
      destruct (Z.leb_spec (len (Data pkt)) MaxPacketSize); [lia|].
      destruct (sendLoop _ _ _ _ _ _ _ _) as [chunks ex]. cbn [fst].
      intros Hsend <-.
      apply (f_equal (fun x => tcpWriteQueue (conn (fst x)))) in Hsend.
      destruct ex; simpl in Hsend; apply app_inv_head in Hsend; congruence. }
    exists (first :: rest). split; [assumption|]. split; [discriminate|].
    split; [assumption|]. rewrite Hq.
    eapply Forall_impl; [exact Hf|]. now intros f (_ & P & _).
Qed.

(** A round of the server's dispatcher on a frame other than a close frame
    is one call of [SendPacket]. *)
Lemma handleServerLoop_body_eq Handle E w m ch pkt queue :
  heap w !! m = Some ch -> receivedQueue ch = pkt :: queue -> Status pkt <> Status8 ->
  handleServerLoop_body Handle E w m
    = (if isServerStatusCompleted (Status pkt)
       then with_chan m (set_pktWhole None)
              (fst (SendPacket
                 (log_handled m pkt (isClientStatusCompleted (Status pkt))
                    (with_chan m (set_pktWhole (Some (merge (pktWhole ch) pkt)))
                       (with_chan m (set_receivedQueue queue) w))) m
                 (mkPacket PacketTypeResponse 0 (Path pkt) (ChannelId pkt)
                    (response_payload E
                       (fst (Handle m pkt (isClientStatusCompleted (Status pkt))))
                       (snd (Handle m pkt (isClientStatusCompleted (Status pkt)))))
                    (Some m))))
       else fst (SendPacket
                 (log_handled m pkt (isClientStatusCompleted (Status pkt))
                    (with_chan m (set_pktWhole (Some (merge (pktWhole ch) pkt)))
                       (with_chan m (set_receivedQueue queue) w))) m
                 (mkPacket PacketTypeResponse 0 (Path pkt) (ChannelId pkt)
                    (response_payload E
                       (fst (Handle m pkt (isClientStatusCompleted (Status pkt))))
                       (snd (Handle m pkt (isClientStatusCompleted (Status pkt)))))
                    (Some m)))).
Proof.
  intros Hm Hq Hs8.
  unfold handleServerLoop_body. rewrite Hm, Hq.
  destruct (Z.eqb_spec (Status pkt) Status8); [contradiction|].
  cbv zeta.
  destruct (Handle m pkt (isClientStatusCompleted (Status pkt))) as [ret err].
  cbn [fst snd]. unfold response_payload.
  destruct err as [e|]; simpl needs_error_response.
  - destruct (error_eqb e ErrPacketContinue) eqn:He; simpl negb; cbv iota.
    + destruct ret as [r|]; cbv beta iota zeta; [rewrite He|]; reflexivity.
    + reflexivity.
  - destruct ret as [r|]; reflexivity.
Qed.

(** X20: the server's dispatcher answers every frame it handles.  For a
    frame other than a close frame, whatever the handler returns, the round
    calls [SendPacket] exactly once, with a response packet that carries the
    frame's path and channel id: the handler's response when there is one and
    the handler's error is [nil] or [ErrPacketContinue], and a structured
    error otherwise, also when the handler returns no response together with
    [ErrPacketContinue].  On an open channel this puts at least one frame on
    the outbound queue, so there is no round without an answer. *)
Theorem handleServerLoop_answers_every_frame :
  forall (Handle : ptr -> Packet -> bool -> option (list Z) * option error)
         (ErrorResponseData : error -> list Z)
         (w : World) (m : ptr) (ch : Channel) (pkt : Packet) (queue : list Packet),
    running w -> heap w !! m = Some ch -> receivedQueue ch = pkt :: queue ->
    Status pkt <> Status8 ->
    let completed := isClientStatusCompleted (Status pkt) in
    let payload := response_payload ErrorResponseData
                     (fst (Handle m pkt completed)) (snd (Handle m pkt completed)) in
    let w1 := log_handled m pkt completed
                (with_chan m (set_pktWhole (Some (merge (pktWhole ch) pkt)))
                   (with_chan m (set_receivedQueue queue) w)) in
    let w2 := fst (SendPacket w1 m
                     (mkPacket PacketTypeResponse 0 (Path pkt) (ChannelId pkt)
                        payload (Some m))) in
    handleServerLoop_body Handle ErrorResponseData w m
    = (if isServerStatusCompleted (Status pkt)
       then with_chan m (set_pktWhole None) w2 else w2)
    /\ (chan_err ch = None ->
        exists frames,
          frames <> []
          /\ tcpWriteQueue (conn (handleServerLoop_body Handle ErrorResponseData w m))
             = tcpWriteQueue (conn w) ++ frames
          /\ concat (map Data frames) = payload
          /\ Forall (fun f => Path f = Path pkt) frames).
Proof.
  intros Handle E w m ch pkt queue Hrun Hm Hq Hs8. cbv zeta.
  destruct (running_invariants w Hrun) as [Hc _].
  pose proof (handleServerLoop_body_eq Handle E w m ch pkt queue Hm Hq Hs8) as Heq.
  split; [exact Heq|].
  intros Herr. rewrite Heq.
  set (w1 := log_handled m pkt (isClientStatusCompleted (Status pkt))
               (with_chan m (set_pktWhole (Some (merge (pktWhole ch) pkt)))
                  (with_chan m (set_receivedQueue queue) w))).
  set (resp := mkPacket _ _ _ _ _ _).
  destruct (SendPacket_queue w1 m
              (set_pktWhole (Some (merge (pktWhole ch) pkt)) (set_receivedQueue queue ch))
              resp)
    as (frames & Hsend & Hne & Hcat & Hpath).
  { unfold w1. simpl. now rewrite !lookup_alter_eq, Hm. }
  { exact Herr. }
  { exact (cons_role w Hc). }
  exists frames. split; [assumption|]. rewrite Hsend. cbn [fst].
  split; [|split; [exact Hcat|exact Hpath]].
  destruct (isServerStatusCompleted (Status pkt)); reflexivity.
Qed.

Lemma handleServerLoop_answers_every_frame_witness :
  handleServerLoop_body waiting_handler no_error_payload requested_world 0%nat
  = (if isServerStatusCompleted (Status (received 0%nat echo_packet))
     then with_chan 0%nat (set_pktWhole None)
            (fst (SendPacket
                    (log_handled 0%nat (received 0%nat echo_packet)
                       (isClientStatusCompleted (Status (received 0%nat echo_packet)))
                       (with_chan 0%nat
                          (set_pktWhole
                             (Some (merge (pktWhole requested_channel)
                                      (received 0%nat echo_packet))))
                          (with_chan 0%nat (set_receivedQueue []) requested_world)))
                    0%nat
                    (mkPacket PacketTypeResponse 0 (Path (received 0%nat echo_packet))
                       (ChannelId (received 0%nat echo_packet))
                       (response_payload no_error_payload
                          (fst (waiting_handler 0%nat (received 0%nat echo_packet)
                                  (isClientStatusCompleted
                                     (Status (received 0%nat echo_packet)))))
                          (snd (waiting_handler 0%nat (received 0%nat echo_packet)
                                  (isClientStatusCompleted
                                     (Status (received 0%nat echo_packet))))))
                       (Some 0%nat))))
     else fst (SendPacket
                    (log_handled 0%nat (received 0%nat echo_packet)
                       (isClientStatusCompleted (Status (received 0%nat echo_packet)))
                       (with_chan 0%nat
                          (set_pktWhole
                             (Some (merge (pktWhole requested_channel)
                                      (received 0%nat echo_packet))))
                          (with_chan 0%nat (set_receivedQueue []) requested_world)))
                    0%nat
                    (mkPacket PacketTypeResponse 0 (Path (received 0%nat echo_packet))
                       (ChannelId (received 0%nat echo_packet))
                       (response_payload no_error_payload
                          (fst (waiting_handler 0%nat (received 0%nat echo_packet)
                                  (isClientStatusCompleted
                                     (Status (received 0%nat echo_packet)))))
                          (snd (waiting_handler 0%nat (received 0%nat echo_packet)
                                  (isClientStatusCompleted
                                     (Status (received 0%nat echo_packet))))))
                       (Some 0%nat))))
  /\ (chan_err requested_channel = None ->
      exists frames,
        frames <> []
        /\ tcpWriteQueue
             (conn (handleServerLoop_body waiting_handler no_error_payload
                      requested_world 0%nat))
           = tcpWriteQueue (conn requested_world) ++ frames
        /\ concat (map Data frames)
           = response_payload no_error_payload
               (fst (waiting_handler 0%nat (received 0%nat echo_packet)
                       (isClientStatusCompleted (Status (received 0%nat echo_packet)))))
               (snd (waiting_handler 0%nat (received 0%nat echo_packet)
                       (isClientStatusCompleted (Status (received 0%nat echo_packet)))))
        /\ Forall (fun f => Path f = Path (received 0%nat echo_packet)) frames).
Proof.
  apply (handleServerLoop_answers_every_frame waiting_handler no_error_payload
           requested_world 0%nat requested_channel (received 0%nat echo_packet) []).
  - apply running_requested_world.
  - reflexivity.
  - reflexivity.
  - discriminate.
Defined.

(** ** Opening a channel *)

(** X21: [newChannel] adds one channel and touches no other.  In a state of
    a run in which the allocator has an id to give (the free set is not
    empty, or [MaxChannelId] is below 2^32 - 1), the new channel object is at
    an address that held no channel, it is open, has seen no frame (last
    status 255) and has empty queues; it is filed under an id under which
    [getChannel] found nothing before; every other id finds what it found
    before, every other channel object is unchanged and the outbound queue is
    as it was.  When the allocator has no id to give, the new channel is filed
    under id 0 instead, in place of the channel that was there. *)
Theorem newChannel_adds_one_channel :
  forall (ord : range_order) (w : World),
    fair ord -> running w ->
    let p := fst (newChannel ord w false) in
    let w' := snd (newChannel ord w false) in
    heap w !! p = None
    /\ (forall p', p' <> p -> heap w' !! p' = heap w !! p')
    /\ tcpWriteQueue (conn w') = tcpWriteQueue (conn w)
    /\ exists id,
         heap w' !! p = Some (fresh_Channel id)
         /\ getChannel w' id = Some p
         /\ (forall k, k <> id -> getChannel w' k = getChannel w k)
         /\ (FreeChannleId (conn w) <> ∅ \/ MaxChannelId (conn w) < MaxUint32 ->
             getChannel w id = None)
         /\ (FreeChannleId (conn w) = ∅ /\ MaxChannelId (conn w) = MaxUint32 -> id = 0).
Proof.
  intros ord w Hfair Hrun. cbv zeta.
  destruct (running_invariants w Hrun) as [Hc _].
  assert (Hfresh : heap w !! fresh (dom (heap w)) = None).
  { apply not_elem_of_dom. apply is_fresh. }
  unfold newChannel. set (p := fresh (dom (heap w))) in *.
  destruct (makeNewChannelId_cases ord (conn w) Hfair)
    as [(k & Hk & ->)|[(Hempty & Hlt & ->)|(Hempty & Hge & ->)]]; cbn [fst snd heap conn].
  - split; [assumption|]. split; [intros p' Hp'; now apply lookup_insert_ne|].
    split; [reflexivity|]. exists k. split; [apply lookup_insert_eq|].
    unfold getChannel. simpl. split; [apply lookup_insert_eq|].
    split; [intros i Hi; now apply lookup_insert_ne|].
    split.
    + intros _. now destruct (cons_free w Hc _ Hk).
    + intros [E _]. rewrite E in Hk. now apply not_elem_of_empty in Hk.
  - split; [assumption|]. split; [intros p' Hp'; now apply lookup_insert_ne|].
    split; [reflexivity|]. exists (MaxChannelId (conn w) + 1).
    split; [apply lookup_insert_eq|].
    unfold getChannel. simpl. split; [apply lookup_insert_eq|].
    split; [intros i Hi; now apply lookup_insert_ne|].
    split.
    + intros _. destruct (Channels (conn w) !! (MaxChannelId (conn w) + 1)) as [q|] eqn:E;
        [|reflexivity].
      destruct (cons_table w Hc _ _ E) as (c & Hq & Hid).
      destruct (cons_heap w Hc _ _ Hq) as (_ & Hrange & _). lia.
    + intros [_ E]. lia.
  - split; [assumption|]. split; [intros p' Hp'; now apply lookup_insert_ne|].
    split; [reflexivity|]. exists 0.
    split; [apply lookup_insert_eq|].
    unfold getChannel. simpl. split; [apply lookup_insert_eq|].
    split; [intros i Hi; now apply lookup_insert_ne|].
    split.
    + intros [Hne|Hlt]; [contradiction|lia].
    + reflexivity.
Qed.

Lemma newChannel_adds_one_channel_witness :
  heap (new_world RoleClient) !! fst (newChannel in_order (new_world RoleClient) false)
  = None
  /\ (forall p', p' <> fst (newChannel in_order (new_world RoleClient) false) ->
        heap (snd (newChannel in_order (new_world RoleClient) false)) !! p'
        = heap (new_world RoleClient) !! p')
  /\ tcpWriteQueue (conn (snd (newChannel in_order (new_world RoleClient) false)))
     = tcpWriteQueue (conn (new_world RoleClient))
  /\ exists id,
       heap (snd (newChannel in_order (new_world RoleClient) false))
         !! fst (newChannel in_order (new_world RoleClient) false)
       = Some (fresh_Channel id)
       /\ getChannel (snd (newChannel in_order (new_world RoleClient) false)) id
          = Some (fst (newChannel in_order (new_world RoleClient) false))
       /\ (forall k, k <> id ->
             getChannel (snd (newChannel in_order (new_world RoleClient) false)) k
             = getChannel (new_world RoleClient) k)
       /\ (FreeChannleId (conn (new_world RoleClient)) <> ∅
           \/ MaxChannelId (conn (new_world RoleClient)) < MaxUint32 ->
           getChannel (new_world RoleClient) id = None)
       /\ (FreeChannleId (conn (new_world RoleClient)) = ∅
           /\ MaxChannelId (conn (new_world RoleClient)) = MaxUint32 -> id = 0).
Proof.
  apply (newChannel_adds_one_channel in_order (new_world RoleClient)).
  - apply fair_in_order.
  - apply running_new_world. now left.
Defined.

(** ** The outbound queue holds frames within the data limit *)

Lemma queue_bounded_with_chan w m g : queue_bounded w -> queue_bounded (with_chan m g w).
Proof. intros H. exact H. Qed.

Lemma queue_bounded_with_conn w f :
  keeps_queue f -> queue_bounded w -> queue_bounded (with_conn f w).
Proof. intros Hf H. unfold queue_bounded. simpl. now rewrite Hf. Qed.

Lemma sendLoop_bounded limit role m mId pkt :
  0 < limit ->
  forall fuel remain first,
    Forall (fun f => len (Data f) <= limit)
      (fst (sendLoop limit fuel role m mId pkt remain first)).
Proof.
  intros Hlimit. induction fuel as [|fuel IH]; intros remain first; simpl.
  { constructor. }
  destruct (chunk_status _ _ _ _) as [st|e]; [|constructor].
  set (chunkSize := if remain <? limit then remain else limit).
  assert (Hc : chunkSize <= limit).
  { unfold chunkSize. destruct (Z.ltb_spec remain limit); lia. }
  assert (Hchunk : len (slice (Data pkt) (len (Data pkt) - remain)
                          (len (Data pkt) - remain + chunkSize)) <= limit).
  { unfold slice, len. rewrite length_take. lia. }
  destruct (remain - chunkSize <=? 0).
  - simpl. constructor; [exact Hchunk|constructor].
  - specialize (IH (remain - chunkSize) false).
    destruct (sendLoop limit fuel role m mId pkt (remain - chunkSize) false) as [rest ex].
    simpl in *. constructor; assumption.
Qed.

Lemma queue_bounded_SendPacket w m pkt :
  queue_bounded w -> queue_bounded (fst (SendPacket w m pkt)).
Proof.
  intros Hw. unfold SendPacket, SendPacket_limit.
  destruct (heap w !! m) as [ch|]; [|assumption].
  destruct (chan_err ch); [assumption|].
  destruct (Z.leb_spec (len (Data pkt)) MaxPacketSize) as [Hsmall|Hbig].
  - unfold queue_bounded. simpl. apply Forall_app. split; [assumption|].
    constructor; [|constructor].
    destruct (_ =? RoleClient); [|destruct (_ =? RoleServer)]; assumption.
  - pose proof (sendLoop_bounded MaxPacketSize (Role (conn w)) m (Id ch) pkt
                  ltac:(unfold MaxPacketSize; lia)
                  (Z.to_nat (len (Data pkt))) (len (Data pkt)) true) as Hb.
    destruct (sendLoop _ _ _ _ _ _ _ _) as [chunks ex]. simpl in Hb.
    assert (queue_bounded (with_conn (enqueue_all chunks) w)).
    { unfold queue_bounded. simpl. apply Forall_app. now split. }
    destruct ex; assumption.
Qed.

Lemma queue_bounded_ChannelClose w m err :
  consistent w -> queue_bounded w -> queue_bounded (fst (ChannelClose w m err)).
Proof.
  intros Hc Hw. destruct (heap w !! m) as [ch|] eqn:Hm.
  2:{ now rewrite ChannelClose_dangling. }
  destruct (cons_heap w Hc _ _ Hm) as (Hlock & _).
  rewrite (ChannelClose_eq w m ch err Hm Hlock). unfold queue_bounded. simpl.
  apply Forall_app. split; [assumption|].
  destruct (chan_err ch); [constructor|]. constructor; [|constructor].
  destruct (close_frame_wire (Role (conn w)) m ch) as (_ & _ & -> & _).
  unfold len, MaxPacketSize. simpl. lia.
Qed.

Lemma queue_bounded_close_each keys : forall w,
  consistent w -> queue_bounded w -> queue_bounded (close_each w keys).
Proof.
  induction keys as [|k keys IH]; intros w Hc Hw; simpl; [assumption|].
  destruct (Channels (conn w) !! k); [|auto].
  apply IH; [now apply consistent_ChannelClose|now apply queue_bounded_ChannelClose].
Qed.

Lemma queue_bounded_ConnectionClose ord w err :
  consistent w -> queue_bounded w -> queue_bounded (ConnectionClose ord w err).
Proof.
  intros Hc Hw. rewrite ConnectionClose_eq by apply Hc.
  apply queue_bounded_with_conn; [intros c; reflexivity|].
  now apply queue_bounded_close_each.
Qed.

Lemma queue_bounded_newChannel ord w sys :
  queue_bounded w -> queue_bounded (snd (newChannel ord w sys)).
Proof.
  intros Hw. unfold newChannel.
  assert (Hq : tcpWriteQueue (snd (makeNewChannelId ord (conn w))) = tcpWriteQueue (conn w)).
  { unfold makeNewChannelId.
    destruct (0 <? Z.of_nat (size (FreeChannleId (conn w)))).
    - now destruct (ord (elements (FreeChannleId (conn w)))).
    - now destruct (MaxChannelId (conn w) <? MaxUint32). }
  destruct sys; [exact Hw|].
  destruct (makeNewChannelId ord (conn w)) as [id cn]. simpl in *.
  unfold queue_bounded. simpl. now rewrite Hq.
Qed.

Lemma queue_bounded_readLoop_body ord check w input :
  consistent w -> queue_bounded w ->
  queue_bounded (fst (readLoop_body ord check w input)).
Proof.
  intros Hc Hw. unfold readLoop_body.
  destruct (conn_err (conn w)); [assumption|].
  destruct (readFrame check w input); simpl; [assumption|].
  now apply queue_bounded_ConnectionClose.
Qed.

Lemma queue_bounded_handleServerLoop_body Handle ErrorResponseData w m :
  consistent w -> queue_bounded w ->
  queue_bounded (handleServerLoop_body Handle ErrorResponseData w m).
Proof.
  intros Hc Hw. unfold handleServerLoop_body.
  destruct (heap w !! m) as [ch|] eqn:Hm; [|assumption].
  destruct (receivedQueue ch) as [|pkt queue] eqn:Hq; [assumption|].
  destruct (cons_heap w Hc _ _ Hm) as (_ & _ & Hok). rewrite Hq in Hok.
  apply Forall_cons in Hok as [_ Hok].
  assert (H0c : consistent (with_chan m (set_receivedQueue queue) w))
    by (apply consistent_with_chan; [now apply quiet_set_receivedQueue|assumption]).
  destruct (Status pkt =? Status8); [now apply queue_bounded_ChannelClose|].
  destruct (Handle m pkt (isClientStatusCompleted (Status pkt))) as [ret err].
  destruct (needs_error_response err); [|destruct ret]; cbv beta iota zeta;
    repeat match goal with
           | |- queue_bounded (if ?b then _ else _) => destruct b
           | |- queue_bounded (match ?x with _ => _ end) => destruct x
           | |- queue_bounded (with_chan _ _ _) => apply queue_bounded_with_chan
           | |- queue_bounded (fst (SendPacket _ _ _)) => apply queue_bounded_SendPacket
           | |- queue_bounded (log_handled _ _ _ _) => change (queue_bounded w)
           | |- queue_bounded _ => assumption
           end.
Qed.

Lemma queue_bounded_handleClientLoop_body hasResponseChan w m :
  consistent w -> queue_bounded w ->
  queue_bounded (handleClientLoop_body hasResponseChan w m).
Proof.
  intros Hc Hw. unfold handleClientLoop_body.
  destruct (heap w !! m) as [ch|] eqn:Hm; [|assumption].
  destruct (receivedQueue ch) as [|pkt queue] eqn:Hq; [assumption|].
  destruct (cons_heap w Hc _ _ Hm) as (_ & _ & Hok). rewrite Hq in Hok.
  apply Forall_cons in Hok as [_ Hok].
  assert (H0c : consistent (with_chan m (set_receivedQueue queue) w))
    by (apply consistent_with_chan; [now apply quiet_set_receivedQueue|assumption]).
  destruct (Status pkt =? Status8); [now apply queue_bounded_ChannelClose|].
  cbv beta iota zeta.
  destruct (isServerStatusCompleted (Status pkt)); [destruct (hasResponseChan m)|];
    exact Hw.
Qed.

Lemma queue_bounded_step w o :
  consistent w -> queue_bounded w -> queue_bounded (step w o).
Proof.
  intros Hc Hw. destruct o; simpl.
  - now apply queue_bounded_newChannel.
  - now apply queue_bounded_SendPacket.
  - now apply queue_bounded_ChannelClose.
  - now apply queue_bounded_ConnectionClose.
  - destruct (Role (conn w) =? RoleClient); now apply queue_bounded_readLoop_body.
  - destruct (Role (conn w) =? RoleServer);
      [now apply queue_bounded_handleServerLoop_body|].
    destruct (Role (conn w) =? RoleClient); [|assumption].
    now apply queue_bounded_handleClientLoop_body.
Qed.

Lemma queue_bounded_writeLoop_body Write ord w :
  consistent w -> queue_bounded w ->
  queue_bounded (fst (fst (writeLoop_body Write ord w))).
Proof.
  intros Hc Hw. unfold writeLoop_body.
  destruct (tcpWriteQueue (conn w)) as [|pkt queue] eqn:Hq; [assumption|].
  assert (H1 : queue_bounded (with_conn (set_tcpWriteQueue queue) w)).
  { unfold queue_bounded in *. simpl. rewrite Hq in Hw.
    now apply Forall_cons in Hw as [_ Hw]. }
  pose proof (consistent_WritePacket Write (with_conn (set_tcpWriteQueue queue) w) pkt
                (consistent_with_conn _ _ (framed_set_tcpWriteQueue queue) Hc)) as H.
  assert (H2 : queue_bounded (fst (fst (fst (WritePacket Write
                                (with_conn (set_tcpWriteQueue queue) w) pkt))))).
  { destruct (WritePacket_state Write (with_conn (set_tcpWriteQueue queue) w) pkt)
      as [->|(c & n & _ & ->)]; assumption. }
  destruct (WritePacket Write _ pkt) as [[[w' sent] n] [e|]]; simpl in *;
    [now apply queue_bounded_ConnectionClose|assumption].
Qed.

Lemma running_queue_bounded w : running w -> queue_bounded w.
Proof.
  induction 1 as [ord role writeQueueLen w Hfair Hnew|w o Hrun IH Hfair
                 |Write ord w Hrun IH Hfair].
  - revert Hnew. unfold NewConnection.
    destruct (negb (role =? RoleClient) && negb (role =? RoleServer)); [discriminate|].
    intros [= <-]. constructor.
  - apply queue_bounded_step; [|assumption]. now apply running_invariants.
  - apply queue_bounded_writeLoop_body; [|assumption]. now apply running_invariants.
Qed.

(** X22: the writer never meets data that is too large.  In every state of
    a run, every packet on the outbound queue has at most 16 MiB of data, so
    [CreateNetPacket] does not refuse it with "data is too large": it
    encodes the packet when its path has at most 512 bytes, and the only
    error with which the encoder can make the writer close the connection is
    "path is too large". *)
Theorem writer_never_meets_large_data :
  forall (w : World) (pkt : Packet),
    running w -> pkt ∈ tcpWriteQueue (conn w) ->
    len (Data pkt) <= MaxPacketSize
    /\ CreateNetPacket pkt <> inr ErrDataTooLarge
    /\ (len (Path pkt) <= MaxPathLen -> CreateNetPacket pkt = inl (wire pkt))
    /\ (forall e, CreateNetPacket pkt = inr e -> e = ErrPathTooLarge).
Proof.
  intros w pkt Hrun Hin.
  pose proof (running_queue_bounded w Hrun) as Hb.
  unfold queue_bounded in Hb. rewrite Forall_forall in Hb. specialize (Hb pkt Hin).
  split; [assumption|]. unfold CreateNetPacket.
  destruct (Z.gtb_spec (len (Path pkt)) MaxPathLen);
    destruct (Z.gtb_spec (len (Data pkt)) MaxPacketSize); try lia.
  - split; [discriminate|]. split; [lia|]. now intros e [= <-].
  - split; [discriminate|]. split; [reflexivity|]. discriminate.
Qed.

Lemma writer_never_meets_large_data_witness :
  len (Data (set_Status 1 echo_packet)) <= MaxPacketSize
  /\ CreateNetPacket (set_Status 1 echo_packet) <> inr ErrDataTooLarge
  /\ (len (Path (set_Status 1 echo_packet)) <= MaxPathLen ->
      CreateNetPacket (set_Status 1 echo_packet) = inl (wire (set_Status 1 echo_packet)))
  /\ (forall e, CreateNetPacket (set_Status 1 echo_packet) = inr e -> e = ErrPathTooLarge).
Proof.
  apply (writer_never_meets_large_data queued_world (set_Status 1 echo_packet)).
  - apply running_queued_world.
  - vm_compute. left.
Defined.

(** ** A burst of frames, then the end of the stream *)


Lemma quiet_deliver_all q pkts :
  Forall (fun pkt => Status pkt <> Status8) pkts -> quiet (deliver_all q pkts).
Proof.
  induction 1 as [|pkt pkts Hs _ IH]; intros c.
  - simpl. auto.
  - rewrite deliver_all_cons.
    destruct (IH (note_received (Status pkt)
                    (len (Data pkt) + 1 + len (Path pkt) + 1 + 4 + 4) (received q pkt) c))
      as (H1 & H2 & H3).
    destruct (quiet_note_received (Status pkt)
                (len (Data pkt) + 1 + len (Path pkt) + 1 + 4 + 4) (received q pkt) Hs c)
      as (G1 & G2 & G3).
    rewrite H1, H2, G1, G2. auto.
Qed.





(** ** From the client's [SendPacket] to the server's handler *)

(** The statuses of the frames of one message of the client: [C1] alone, or
    [C0], any number of [C2], then [C3]. *)
Lemma client_statuses_message init last :
  (init = [] /\ Status last = StatusC1)
  \/ (exists first middle, init = first :: middle /\ Status first = StatusC0
        /\ Forall (fun f => Status f = StatusC2) middle /\ Status last = StatusC3) ->
  one_message isClientStatusCompleted init last
  /\ forall prev, prev = 255 \/ isClientStatusCompleted prev = true ->
       is_Some (check_all CheckClientPacketStatus prev (map Status (init ++ [last]))).
Proof.
  intros [[-> Hl]|(first & middle & -> & Hf & Hm & Hl)].
  - split.
    + split; [constructor|]. rewrite Hl. split; [discriminate|reflexivity].
    + intros prev Hprev. simpl. rewrite Hl. unfold CheckClientPacketStatus. simpl.
      destruct Hprev as [-> | ->]; simpl; eauto.
      destruct (prev =? 255); simpl; eauto.
  - split.
    + split; [|rewrite Hl; split; [discriminate|reflexivity]].
      constructor; [rewrite Hf; split; [discriminate|reflexivity]|].
      eapply Forall_impl; [exact Hm|]. intros f ->. split; [discriminate|reflexivity].
    + intros prev Hprev. simpl. rewrite Hf.
      assert (H0 : CheckClientPacketStatus prev StatusC0 = None).
      { unfold CheckClientPacketStatus. simpl.
        destruct Hprev as [-> | ->]; simpl; [reflexivity|].
        now destruct (prev =? 255). }
      rewrite H0. clear H0 Hprev prev Hf.
      assert (Hgo : forall prev, prev = StatusC0 \/ prev = StatusC2 ->
                is_Some (check_all CheckClientPacketStatus prev
                           (map Status (middle ++ [last])))).
      { induction Hm as [|f middle Hfm _ IH]; intros prev Hprev.
        - simpl. rewrite Hl. destruct Hprev as [-> | ->]; simpl; eauto.
        - simpl. rewrite Hfm. destruct Hprev as [-> | ->]; simpl; apply IH; auto. }
      apply Hgo. now left.
Qed.

(** One round of the server's dispatcher on an open channel. *)
Lemma handleServerLoop_body_round Handle E w m ch pkt queue :
  consistent w -> heap w !! m = Some ch -> chan_err ch = None ->
  receivedQueue ch = pkt :: queue -> Status pkt <> Status8 ->
  consistent (handleServerLoop_body Handle E w m)
  /\ (exists ch', heap (handleServerLoop_body Handle E w m) !! m = Some ch'
                  /\ chan_err ch' = None /\ receivedQueue ch' = queue)
  /\ handled (handleServerLoop_body Handle E w m)
     = handled w ++ [(m, pkt, isClientStatusCompleted (Status pkt))]
  /\ exists frames,
       frames <> []
       /\ tcpWriteQueue (conn (handleServerLoop_body Handle E w m))
          = tcpWriteQueue (conn w) ++ frames.
Proof.
  intros Hc Hm Herr Hq Hs8.
  split; [now apply consistent_handleServerLoop_body|].
  rewrite (handleServerLoop_body_eq Handle E w m ch pkt queue Hm Hq Hs8).
  set (w1 := log_handled m pkt (isClientStatusCompleted (Status pkt))
               (with_chan m (set_pktWhole (Some (merge (pktWhole ch) pkt)))
                  (with_chan m (set_receivedQueue queue) w))).
  set (resp := mkPacket _ _ _ _ _ _).
  set (c1 := set_pktWhole (Some (merge (pktWhole ch) pkt)) (set_receivedQueue queue ch)).
  assert (H1 : heap w1 !! m = Some c1).
  { unfold w1, c1. simpl. now rewrite !lookup_alter_eq, Hm. }
  assert (E1 : chan_err c1 = None) by exact Herr.
  assert (E2 : receivedQueue c1 = queue) by reflexivity.
  assert (E3 : handled w1 = handled w ++ [(m, pkt, isClientStatusCompleted (Status pkt))])
    by reflexivity.
  assert (E4 : tcpWriteQueue (conn w1) = tcpWriteQueue (conn w)) by reflexivity.
  assert (E5 : Role (conn w1) = RoleClient \/ Role (conn w1) = RoleServer)
    by exact (cons_role w Hc).
  clearbody w1 c1.
  destruct (SendPacket_queue w1 m c1 resp H1 E1 E5) as (frames & Hsend & Hne & _).
  rewrite Hsend. cbn [fst].
  split; [|split].
  - destruct (isServerStatusCompleted (Status pkt)); cbn [with_chan with_conn heap];
      rewrite ?lookup_alter_eq, H1; simpl; eauto.
  - destruct (isServerStatusCompleted (Status pkt)); exact E3.
  - exists frames. split; [assumption|].
    destruct (isServerStatusCompleted (Status pkt)); simpl; now rewrite E4.
Qed.

Lemma handleServerRounds_frames Handle E m fs : forall w ch,
  consistent w -> heap w !! m = Some ch -> chan_err ch = None ->
  receivedQueue ch = fs -> Forall (fun f => Status f <> Status8) fs ->
  handled (handleServerRounds Handle E (length fs) w m)
  = handled w ++ map (fun f => (m, f, isClientStatusCompleted (Status f))) fs
  /\ exists answers,
       tcpWriteQueue (conn (handleServerRounds Handle E (length fs) w m))
       = tcpWriteQueue (conn w) ++ answers
       /\ (length fs <= length answers)%nat.
Proof.
  induction fs as [|f fs IH]; intros w ch Hc Hm Herr Hq Hall.
  - simpl. rewrite app_nil_r. split; [reflexivity|]. exists []. now rewrite app_nil_r.
  - apply Forall_cons in Hall as [Hs8 Hall]. cbn [length handleServerRounds].
    destruct (handleServerLoop_body_round Handle E w m ch f fs Hc Hm Herr Hq Hs8)
      as (Hc' & (ch' & Hm' & Herr' & Hq') & Hh & frames & Hne & Hqueue).
    destruct (IH _ ch' Hc' Hm' Herr' Hq' Hall) as (Hh2 & answers & Hq2 & Hlen).
    split.
    + rewrite Hh2, Hh, <- app_assoc. reflexivity.
    + exists (frames ++ answers). rewrite Hq2, Hqueue, <- app_assoc.
      split; [reflexivity|]. rewrite length_app.
      destruct frames; [contradiction|]. simpl. lia.
Qed.

(** X24: the server answers a request frame by frame.  The client calls
    [SendPacket] on an open channel, with an empty outbound queue, for a
    packet that names the channel's id, has a path of at most 512 bytes
    without a zero byte and some data, of any size; the server has a channel
    under the same id that is between two messages, with an empty inbound
    queue.  Then the client's writer writes the frames of the request, the
    server's reader takes them in as many rounds, and the server's dispatcher,
    in as many rounds again, calls the handler once per frame, with the data
    of that frame alone and with [completed] only in the last call, and puts
    at least one response frame per request frame on the server's outbound
    queue.  A request of more than 16 MiB has at least two frames. *)
Theorem client_request_answered_per_frame :
  forall (ord ord' : range_order)
         (Handle : ptr -> Packet -> bool -> option (list Z) * option error)
         (ErrorResponseData : error -> list Z)
         (wc ws : World) (m q : ptr) (chc chq : Channel) (pkt : Packet) (rest : list Z),
    running wc -> Role (conn wc) = RoleClient ->
    heap wc !! m = Some chc -> chan_err chc = None -> tcpWriteQueue (conn wc) = [] ->
    ChannelId pkt = Id chc -> 0 < len (Data pkt) ->
    len (Path pkt) <= MaxPathLen -> 0 ∉ Path pkt ->
    running ws -> conn_err (conn ws) = None -> getChannel ws (Id chc) = Some q ->
    heap ws !! q = Some chq -> receivedQueue chq = [] ->
    packetStatus chq = 255 \/ isClientStatusCompleted (packetStatus chq) = true ->
    snd (SendPacket wc m pkt) = None
    /\ exists (frames : list Packet) (ws1 : World) (answers : list Packet),
         (forall fuel, (length frames <= fuel)%nat ->
            snd (writeLoop takes_all ord fuel (fst (SendPacket wc m pkt)))
            = concat (map wire frames))
         /\ concat (map Data frames) = Data pkt
         /\ (MaxPacketSize < len (Data pkt) -> (2 <= length frames)%nat)
         /\ readRounds ord' CheckClientPacketStatus (length frames) ws
              (concat (map wire frames) ++ rest) = (ws1, Some rest)
         /\ handled (handleServerRounds Handle ErrorResponseData (length frames) ws1 q)
            = handled ws
              ++ map (fun f => (q, received q f, isClientStatusCompleted (Status f))) frames
         /\ (exists init last, frames = init ++ [last]
               /\ Forall (fun f => isClientStatusCompleted (Status f) = false) init
               /\ isClientStatusCompleted (Status last) = true)
         /\ tcpWriteQueue
              (conn (handleServerRounds Handle ErrorResponseData (length frames) ws1 q))
            = tcpWriteQueue (conn ws) ++ answers
         /\ (length frames <= length answers)%nat.
Proof.
  intros ord ord' Handle E wc ws m q chc chq pkt rest Hrun Hrole Hm Herr Hq0 Hid Hdata
         Hpath Hnul Hruns Hcerr Hget Hheap Hrq Hprev.
  destruct (running_invariants wc Hrun) as [Hc _].
  destruct (running_invariants ws Hruns) as [Hcs _].
  destruct (running_table_entry ws _ _ Hruns Hget) as (chq' & Hchq' & _ & Hqerr & _).
  rewrite Hheap in Hchq'. injection Hchq' as <-.
  destruct (cons_heap wc Hc _ _ Hm) as (_ & Hrange & _).
  pose proof (cons_max wc Hc) as Hmax.
  destruct (SendPacket_message_frames wc m chc pkt Hm Herr (cons_role wc Hc) Hid Hdata)
    as (init & last & Hsend & Hall & Hcat & Hst).
  rewrite Hrole in Hst. unfold by_role in Hst. simpl in Hst.
  assert (Hst' : (init = [] /\ Status last = StatusC1)
                 \/ (exists first middle, init = first :: middle /\ Status first = StatusC0
                       /\ Forall (fun f => Status f = StatusC2) middle
                       /\ Status last = StatusC3)).
  { destruct Hst as [(_ & ? & ?)|(_ & ?)]; [left|right]; auto. }
  destruct (client_statuses_message init last Hst') as [Hmsg Hchk].
  rewrite Hsend. cbn [fst snd]. split; [reflexivity|].
  set (fs := init ++ [last]) in *.
  set (wc1 := with_chan m count_sent (with_conn (enqueue_all fs) wc)).
  assert (Hq1 : tcpWriteQueue (conn wc1) = fs).
  { unfold wc1. simpl. now rewrite Hq0. }
  assert (Henc : Forall encodable fs).
  { eapply Forall_impl; [exact Hall|]. intros f (P & _ & D). split; [congruence|lia]. }
  assert (Hs8 : Forall (fun f => Status f <> Status8) fs).
  { destruct Hmsg as (Hi & Hl & _). apply Forall_app. split.
    - eapply Forall_impl; [exact Hi|]. now intros f [? _].
    - constructor; [assumption|constructor]. }
  assert (Hsendable : Forall (fun f => sendable f /\ ChannelId f = Id chc) fs).
  { rewrite Forall_forall in Hall, Hs8. apply Forall_forall. intros f Hin.
    destruct (Hall f Hin) as (P & I & D). specialize (Hs8 f Hin).
    split; [|assumption]. split; [congruence|]. split; [lia|].
    split; [congruence|]. split; [lia|]. split; [|assumption].
    rewrite I. unfold is_uint32, MaxUint32 in *. lia. }
  destruct (deliver_all_fields q fs chq) as (D1 & _ & D3 & _ & _).
  set (ws1 := with_chan q (deliver_all q fs) ws).
  assert (Hq2 : heap ws1 !! q = Some (deliver_all q fs chq)).
  { unfold ws1. simpl. now rewrite lookup_alter_eq, Hheap. }
  assert (Hc1 : consistent ws1).
  { apply consistent_with_chan; [now apply quiet_deliver_all|assumption]. }
  destruct (handleServerRounds_frames Handle E q (map (received q) fs) ws1
              (deliver_all q fs chq) Hc1 Hq2)
    as (Hh & answers & Hans & Hlen).
  { now rewrite D3. }
  { now rewrite D1, Hrq. }
  { apply Forall_map. exact Hs8. }
  rewrite length_map in Hh, Hans, Hlen. rewrite map_map in Hh.
  exists fs, ws1, answers.
  split; [|split; [exact Hcat|split; [|split; [|split; [exact Hh|split; [|split]]]]]].
  - intros fuel Hfuel.
    destruct (writeLoop_drains fs ord wc1 fuel Hq1 Henc Hfuel) as (w' & -> & _).
    reflexivity.
  - intros Hbig. destruct Hst as [(? & _)|(_ & first & middle & -> & _)]; [lia|].
    unfold fs. rewrite length_app. simpl. lia.
  - apply (readRounds_burst ord' CheckClientPacketStatus (Id chc) q rest fs ws chq);
      try assumption. now apply Hchk.
  - exists init, last. split; [reflexivity|]. destruct Hmsg as (Hi & _ & Hl).
    split; [|exact Hl]. eapply Forall_impl; [exact Hi|]. now intros f [_ ?].
  - exact Hans.
  - exact Hlen.
Qed.

Lemma client_request_answered_per_frame_witness :
  snd (SendPacket (new_world RoleClient) 0%nat echo_packet) = None
  /\ exists (frames : list Packet) (ws1 : World) (answers : list Packet),
       (forall fuel, (length frames <= fuel)%nat ->
          snd (writeLoop takes_all in_order fuel
                 (fst (SendPacket (new_world RoleClient) 0%nat echo_packet)))
          = concat (map wire frames))
       /\ concat (map Data frames) = Data echo_packet
       /\ (MaxPacketSize < len (Data echo_packet) -> (2 <= length frames)%nat)
       /\ readRounds in_order CheckClientPacketStatus (length frames)
            (new_world RoleServer) (concat (map wire frames) ++ [1; 2])
          = (ws1, Some [1; 2])
       /\ handled (handleServerRounds waiting_handler no_error_payload (length frames)
                     ws1 0%nat)
          = handled (new_world RoleServer)
            ++ map (fun f => (0%nat, received 0%nat f, isClientStatusCompleted (Status f)))
                 frames
       /\ (exists init last, frames = init ++ [last]
             /\ Forall (fun f => isClientStatusCompleted (Status f) = false) init
             /\ isClientStatusCompleted (Status last) = true)
       /\ tcpWriteQueue
            (conn (handleServerRounds waiting_handler no_error_payload (length frames)
                     ws1 0%nat))
          = tcpWriteQueue (conn (new_world RoleServer)) ++ answers
       /\ (length frames <= length answers)%nat.
Proof.
  apply (client_request_answered_per_frame in_order in_order waiting_handler
           no_error_payload (new_world RoleClient) (new_world RoleServer) 0%nat 0%nat
           (fresh_Channel 0) (fresh_Channel 0) echo_packet [1; 2]).
  - apply running_new_world. now left.
  - reflexivity.
  - reflexivity.
  - reflexivity.
  - reflexivity.
  - reflexivity.
  - reflexivity.
  - vm_compute. discriminate.
  - apply not_elem_of_echo_path.
  - apply running_new_world. now right.
  - reflexivity.
  - reflexivity.
  - reflexivity.
  - reflexivity.
  - left. reflexivity.
Defined.

(** ** Ids of channels opened one after the other *)

Lemma makeNewChannelId_next ord cn :
  FreeChannleId cn = ∅ -> MaxChannelId cn < MaxUint32 ->
  makeNewChannelId ord cn
  = (MaxChannelId cn + 1, set_alloc (MaxChannelId cn + 1) (FreeChannleId cn) cn).
Proof.
  intros Hfree Hmax. unfold makeNewChannelId. rewrite Hfree, size_empty. simpl.
  destruct (Z.ltb_spec (MaxChannelId cn) MaxUint32); [reflexivity|lia].
Qed.

Lemma opened_in_a_row ord role writeQueueLen n :
  Z.of_nat n <= MaxUint32 ->
  MaxChannelId (conn (Nat.iter n (fun w => snd (newChannel ord w false)) (new_connection role writeQueueLen)))
  = Z.of_nat n
  /\ FreeChannleId
       (conn (Nat.iter n (fun w => snd (newChannel ord w false)) (new_connection role writeQueueLen))) = ∅
  /\ forall k,
       is_Some (getChannel
                  (Nat.iter n (fun w => snd (newChannel ord w false)) (new_connection role writeQueueLen)) k)
       <-> 0 <= k <= Z.of_nat n.
Proof.
  induction n as [|n IH]; intros Hn.
  - simpl. split; [reflexivity|]. split; [reflexivity|].
    intros k. unfold getChannel, new_connection, newChannel. simpl.
    destruct (decide (k = 0)) as [->|Hk].
    + rewrite lookup_insert_eq. split; [lia|eauto].
    + rewrite lookup_insert_ne, lookup_empty by congruence.
      split; [intros [? [=]]|lia].
  - destruct IH as (Hmax & Hfree & Htab); [lia|].
    rewrite !Nat.iter_succ. set (w := Nat.iter n _ _) in *.
    unfold newChannel. rewrite makeNewChannelId_next by (assumption || lia).
    cbn [snd conn]. simpl MaxChannelId. simpl FreeChannleId.
    split; [lia|]. split; [assumption|].
    intros k. unfold getChannel. simpl Channels.
    destruct (decide (k = MaxChannelId (conn w) + 1)) as [->|Hk].
    + rewrite lookup_insert_eq. split; [lia|eauto].
    + rewrite lookup_insert_ne by congruence.
      specialize (Htab k). unfold getChannel in Htab. rewrite Htab. lia.
Qed.

(** X25: without a [Close], channel ids are handed out in a row.  On the
    connection that [NewConnection] returns, after [n] calls of [newChannel]
    (with the allocator not yet at 2^32 - 1) the channel table holds exactly
    the ids 0 to [n], the free set is empty and [MaxChannelId] is [n]; the
    next call makes a channel with id [n + 1] and files it under that id. *)
Theorem newChannel_consecutive_ids :
  forall (ord0 ord : range_order) (role : Z) (writeQueueLen : nat) (w0 : World)
         (n : nat),
    NewConnection ord0 role writeQueueLen = inl w0 -> Z.of_nat n < MaxUint32 ->
    let w := Nat.iter n (fun w => snd (newChannel ord w false)) w0 in
    MaxChannelId (conn w) = Z.of_nat n
    /\ FreeChannleId (conn w) = ∅
    /\ (forall k, is_Some (getChannel w k) <-> 0 <= k <= Z.of_nat n)
    /\ heap (snd (newChannel ord w false)) !! fst (newChannel ord w false)
       = Some (fresh_Channel (Z.of_nat n + 1))
    /\ getChannel (snd (newChannel ord w false)) (Z.of_nat n + 1)
       = Some (fst (newChannel ord w false)).
Proof.
  intros ord0 ord role writeQueueLen w0 n Hnew Hn. cbv zeta.
  assert (Hw0 : w0 = new_connection role writeQueueLen).
  { revert Hnew. unfold NewConnection.
    destruct (negb (role =? RoleClient) && negb (role =? RoleServer)); [discriminate|].
    now intros [= <-]. }
  subst w0.
  destruct (opened_in_a_row ord role writeQueueLen n ltac:(lia))
    as (Hmax & Hfree & Htab).
  set (w := Nat.iter n _ _) in *.
  split; [assumption|]. split; [assumption|]. split; [assumption|].
  unfold newChannel. rewrite makeNewChannelId_next by (assumption || lia).
  cbn [fst snd heap conn]. rewrite Hmax. split.
  - apply lookup_insert_eq.
  - unfold getChannel. simpl. apply lookup_insert_eq.
Qed.

Lemma newChannel_consecutive_ids_witness :
  MaxChannelId
    (conn (Nat.iter 2 (fun w => snd (newChannel in_order w false)) (new_world RoleClient)))
  = Z.of_nat 2
  /\ FreeChannleId
       (conn (Nat.iter 2 (fun w => snd (newChannel in_order w false))
                (new_world RoleClient))) = ∅
  /\ (forall k,
        is_Some (getChannel
                   (Nat.iter 2 (fun w => snd (newChannel in_order w false))
                      (new_world RoleClient)) k)
        <-> 0 <= k <= Z.of_nat 2)
  /\ heap (snd (newChannel in_order
                  (Nat.iter 2 (fun w => snd (newChannel in_order w false))
                     (new_world RoleClient)) false))
       !! fst (newChannel in_order
                 (Nat.iter 2 (fun w => snd (newChannel in_order w false))
                    (new_world RoleClient)) false)
     = Some (fresh_Channel (Z.of_nat 2 + 1))
  /\ getChannel
       (snd (newChannel in_order
               (Nat.iter 2 (fun w => snd (newChannel in_order w false))
                  (new_world RoleClient)) false))
       (Z.of_nat 2 + 1)
     = Some (fst (newChannel in_order
                    (Nat.iter 2 (fun w => snd (newChannel in_order w false))
                       (new_world RoleClient)) false)).
Proof.
  apply (newChannel_consecutive_ids in_order in_order RoleClient 16
           (new_world RoleClient) 2).
  - reflexivity.
  - vm_compute. reflexivity.
Defined.
